(** * NRCA-Spectra: the peak engine of [spectra_Objects.py]

    A shallow embedding of the peak-detection core of [spectra_Objects.py]
    ([definepeak], [Integrate], [Fwhm], [computepeak], [maxima], [minima],
    [propsisot], [sorting]) together with the properties the specification
    states about it.

    Conventions.
    - Python values that can fail are computed in [Py.result]; the session-wide
      error sink [err] is an append-only list of [Py.entry] threaded through
      the functions that call [err.add].
    - numpy's float64 is an abstract [Number]; it is instantiated with binary64
      ([PrimFloat]) to run the code as it runs, and with the rationals [Q] to
      reason in exact arithmetic.
    - helpers of [spectra_Basics] / [spectra_Finders] / [spectra_InitSettings]
      are the fields of the record [Basics]. *)

From Stdlib Require Import ZArith QArith Qabs Qround List String Bool Lia Lqa.
From Stdlib Require Import Permutation Sorted Floats Setoid Morphisms.
Import ListNotations.

Set Implicit Arguments.

(** ** Python runtime: exceptions, results, the error sink, indexing *)

Module Py.

(** The exceptions that occur in the modelled code. [Exception_ msg n] is
    [Exception(msg, n)] as raised by [definepeak]; [PeakInfoLength] is the
    exception of [Peak.__init__]; [HelperError] is any exception coming out
    of a helper function that lives in another module. *)
Inductive exn : Type :=
| IndexError
| TypeError
| ValueError
| UnboundLocalError
| Exception_ (msg : string) (arg : Z)
| PeakInfoLength (len size : nat)
| HelperError (what : string).

Inductive result (A : Type) : Type :=
| Ok (a : A)
| Raise (e : exn).
Arguments Ok {A} a.
Arguments Raise {A} e.

Definition bind {A B} (r : result A) (k : A -> result B) : result B :=
  match r with
  | Ok a => k a
  | Raise e => Raise e
  end.

(** One call [err.add(e, function, entity, index)]. *)
Record entry : Type := Entry {
  e_exn : exn;
  e_function : string;
  e_entity : string;
  e_index : Z
}.

(** The error sink: entries in the order they were added. *)
Definition sink : Type := list entry.

Definition err_add (e : exn) (f ent : string) (i : Z) (err : sink) : sink :=
  err ++ [Entry e f ent i].

(** Computations that may raise and may write to the sink.  What was added
    to the sink before an exception stays there. *)
Definition M (A : Type) : Type := sink -> result A * sink.

Definition ret {A} (a : A) : M A := fun err => (Ok a, err).
Definition raise {A} (e : exn) : M A := fun err => (Raise e, err).
Definition lift {A} (r : result A) : M A := fun err => (r, err).
Definition mbind {A B} (m : M A) (k : A -> M B) : M B :=
  fun err => match m err with
             | (Ok a, err') => k a err'
             | (Raise e, err') => (Raise e, err')
             end.

(** [try: body / except Exception as e: handler e]. *)
Definition try_except {A} (body : M A) (handler : exn -> M A) : M A :=
  fun err => match body err with
             | (Ok a, err') => (Ok a, err')
             | (Raise e, err') => handler e err'
             end.

(** [seq[i]] for a list, tuple or 1-d array: negative indices count from
    the end, anything outside raises [IndexError]. *)
Definition norm_index (len : nat) (i : Z) : option nat :=
  let n := Z.of_nat len in
  if (0 <=? i)%Z && (i <? n)%Z then Some (Z.to_nat i)
  else if (- n <=? i)%Z && (i <? 0)%Z then Some (Z.to_nat (i + n))
  else None.

Definition getitem {A} (l : list A) (i : Z) : result A :=
  match norm_index (List.length l) i with
  | Some k =>
      match nth_error l k with
      | Some a => Ok a
      | None => Raise IndexError
      end
  | None => Raise IndexError
  end.

(** [seq[a:b]]: bounds are shifted when negative and clamped; never raises. *)
Definition clamp (len : nat) (i : Z) : Z :=
  let n := Z.of_nat len in
  if (i <? 0)%Z then Z.max 0 (i + n) else Z.min i n.

Definition slice {A} (l : list A) (a b : Z) : list A :=
  let a' := clamp (List.length l) a in
  let b' := clamp (List.length l) b in
  firstn (Z.to_nat (b' - a')) (skipn (Z.to_nat a') l).

(** [range(start, stop, step)], for [step <> 0]. *)
Definition range (start stop step : Z) : list Z :=
  let n := if (0 <? step)%Z then ((stop - start + step - 1) / step)%Z
           else ((start - stop - step - 1) / (- step))%Z in
  map (fun k => (start + Z.of_nat k * step)%Z) (seq 0 (Z.to_nat n)).

End Py.

Import Py.

Declare Scope py_scope.
Delimit Scope py_scope with py.
Notation "x <- c ;; k" := (Py.bind c (fun x => k))
  (at level 61, c at next level, right associativity) : py_scope.
Notation "' p <- c ;; k" := (Py.bind c (fun p => k))
  (at level 61, p pattern, c at next level, right associativity) : py_scope.
Notation "x <~ c ;; k" := (Py.mbind c (fun x => k))
  (at level 61, c at next level, right associativity) : py_scope.
Notation "' p <~ c ;; k" := (Py.mbind c (fun p => k))
  (at level 61, p pattern, c at next level, right associativity) : py_scope.

(** ** Numbers *)

(** The operations the code applies to float64 values.  [sort_leb] is the
    order numpy's sort uses (the usual one, with NaN last); [of_Z] converts an
    integer, as numpy does when an int meets a float. *)
Class Number (T : Type) : Type := {
  of_Z : Z -> T;
  half : T;
  nadd : T -> T -> T;
  nsub : T -> T -> T;
  nmul : T -> T -> T;
  ndiv : T -> T -> T;
  nneg : T -> T;
  nabs : T -> T;
  neqb : T -> T -> bool;
  nltb : T -> T -> bool;
  nleb : T -> T -> bool;
  sort_leb : T -> T -> bool
}.

Declare Scope num_scope.
Delimit Scope num_scope with num.
Infix "+" := nadd : num_scope.
Infix "-" := nsub : num_scope.
Infix "*" := nmul : num_scope.
Infix "/" := ndiv : num_scope.
Notation "- x" := (nneg x) : num_scope.
Infix "==" := neqb (at level 70, no associativity) : num_scope.
Infix "<" := nltb : num_scope.
Infix "<=" := nleb : num_scope.
Notation "x > y" := (nltb y x) : num_scope.
Notation "x >= y" := (nleb y x) : num_scope.

(** Exact arithmetic.  [x / 0] is 0 here, where float64 gives an infinity or
    NaN: what is proved at [Q] speaks of finite values. *)
#[export] Instance Q_Number : Number Q := {|
  of_Z := inject_Z;
  half := 1 # 2;
  nadd := Qplus;
  nsub := Qminus;
  nmul := Qmult;
  ndiv := Qdiv;
  nneg := Qopp;
  nabs := Qabs;
  neqb := Qeq_bool;
  nltb := fun a b => negb (Qle_bool b a);
  nleb := Qle_bool;
  sort_leb := Qle_bool
|}.

(** IEEE 754 binary64, the arithmetic of numpy's float64. *)
Definition float_of_Z (z : Z) : float :=
  match z with
  | Z0 => PrimFloat.zero
  | Zpos _ => PrimFloat.of_uint63 (Uint63.of_Z z)
  | Zneg _ => PrimFloat.opp (PrimFloat.of_uint63 (Uint63.of_Z (- z)))
  end.

#[export] Instance float_Number : Number float := {|
  of_Z := float_of_Z;
  half := 0.5%float;
  nadd := PrimFloat.add;
  nsub := PrimFloat.sub;
  nmul := PrimFloat.mul;
  ndiv := PrimFloat.div;
  nneg := PrimFloat.opp;
  nabs := PrimFloat.abs;
  neqb := PrimFloat.eqb;
  nltb := PrimFloat.ltb;
  nleb := PrimFloat.leb;
  sort_leb := fun a b => PrimFloat.leb a b || PrimFloat.is_nan b
|}.

(** ** Data *)

(** A two-row numpy array [[x; y]], kept as its list of columns: [arr[0, i]]
    is [fst] of column [i], [np.shape(arr)[1]] is the number of columns. *)
Definition array2 (T : Type) : Type := list (T * T).
Definition row0 {T} (a : array2 T) : list T := map fst a.
Definition row1 {T} (a : array2 T) : list T := map snd a.

(** The search radius [prange].  It is an integer everywhere except in the
    single-candidate branch of [propsisot], where numpy arithmetic on a shape
    tuple can make it a one-element integer array. *)
Inductive radius : Type :=
| RInt (n : Z)
| RArr (n : Z).

Definition radius_val (r : radius) : Z :=
  match r with RInt n => n | RArr n => n end.

(** The fields of an [Isotope], [Element] or [Compound] that the engine
    reads. [ma] holds the maxima as columns, [mai] their indices. *)
Record Data (T : Type) : Type := {
  fullname : string;
  mode : string;
  spectrum : array2 T;
  spectrum_tof : array2 T;
  der : list T;
  sder : list T;
  ma : array2 T;
  mai : list Z
}.

(** The dictionary built by [cf.pack()]. *)
Record Params (T : Type) : Type := {
  dboxes : T;
  maxouterslope : T;
  slopedrop : T;
  prangemax : Z
}.

(** Functions and constants the engine imports from [spectra_Basics],
    [spectra_Finders] and [spectra_InitSettings]; they are parameters of the
    development.  An optional argument left out by the caller is [None]. *)
Record Basics (T : Type) : Type := {
  FitBoxes : list T -> T -> result (list T * T);
  InBetween : list T -> T -> bool -> result (option Z * option Z);
  E2t : T -> option string -> result T;
  GetIndex : list T -> list T -> option bool -> result (list Z);
  Smooth : array2 T -> Z -> result (array2 T);
  IndMaxima : list T -> option Z -> result (list Z);
  peakattr_size : nat
}.

(** What [definepeak] returns: [(outp_e, outp_i, (outerslope, boxwidth), peakr)]. *)
Record Bounds (T : Type) : Type := {
  b_xlims : T * T;
  b_ilims : list Z;
  b_outerslope : T * T;
  b_peakreason : Z * Z
}.

(** A [Peak]: the attributes set by [Peak.__init__] from the 29-tuple [info]
    of [computepeak], in the order of that tuple ([p_fullname] is the
    attribute [fullname]).  [yvals] is [None] for the integer [0] stored when
    the peak is not bounded. *)
Record Peak (T : Type) : Type := {
  p_fullname : string;
  num : Z;
  center_ : Z;
  center : T;
  icenter : Z;
  center_tof : T;
  integral : T;
  integral_ : Z;
  integral_tof : T;
  width : T;
  width_ : Z;
  height : T;
  height_ : Z;
  fwhm : T;
  fwhm_ : Z;
  ahh : T;
  ahh_ : Z;
  ahw : T;
  ahw_ : Z;
  xlims : T * T;
  ilims : list Z;
  outerslope : T * T;
  peakreason : Z * Z;
  yvals : option (list T);
  coords : T * T;
  coords_tof : T * T;
  prange : radius;
  user_edited : bool;
  user_defined : bool
}.

(** The number of entries of the tuple [info]. *)
Definition info_length : nat := 29.

(** ** [numpy.argsort] *)

(** Position [i] of [keys] holds a key that is not above the one at [j]. *)
Definition key_le {K} (leb : K -> K -> bool) (keys : list K) (i j : nat)
  : Prop :=
  forall a b,
    nth_error keys i = Some a -> nth_error keys j = Some b -> leb a b = true.

(** What numpy documents of [a.argsort()] on a 1-d array: the indices that
    sort the array.  The default algorithm is not stable, so nothing is said
    about the order of equal keys. *)
Class ArgSort : Type := {
  argsort : forall {K : Type}, (K -> K -> bool) -> list K -> list nat;
  argsort_perm : forall K (leb : K -> K -> bool) (keys : list K),
    Permutation (argsort leb keys) (seq 0 (List.length keys));
  argsort_sorted : forall K (leb : K -> K -> bool) (keys : list K),
    (forall a b, leb a b = true \/ leb b a = true) ->
    (forall a b c, leb a b = true -> leb b c = true -> leb a c = true) ->
    StronglySorted (key_le leb keys) (argsort leb keys)
}.

(** A stable argsort by insertion, which is what numpy runs on short arrays. *)
Fixpoint insert_key {K} (leb : K -> K -> bool) (x : nat * K)
         (l : list (nat * K)) : list (nat * K) :=
  match l with
  | [] => [x]
  | y :: r => if leb (snd x) (snd y) then x :: l
              else y :: insert_key leb x r
  end.

Definition isort_keys {K} (leb : K -> K -> bool) (l : list (nat * K))
  : list (nat * K) :=
  fold_right (insert_key leb) [] l.

Definition stable_argsort {K} (leb : K -> K -> bool) (keys : list K)
  : list nat :=
  map fst (isort_keys leb (combine (seq 0 (List.length keys)) keys)).

Section Engine.

Context {T : Type} {NT : Number T} {AS : ArgSort}.
Variable B : Basics T.

Local Open Scope py_scope.

Definition zero : T := of_Z 0.

(** *** numpy helpers *)

(** [np.unique(a, return_counts=True)]: the distinct values in increasing
    order, each with its number of occurrences. *)
Fixpoint insert_count (v : T) (l : list (T * nat)) : list (T * nat) :=
  match l with
  | [] => [(v, 1%nat)]
  | (w, c) :: r =>
      if (v == w)%num then (w, S c) :: r
      else if sort_leb v w then (v, 1%nat) :: l
      else (w, c) :: insert_count v r
  end.

Definition np_unique (a : list T) : list (T * nat) :=
  fold_left (fun acc v => insert_count v acc) a [].

(** [np.argmax]: the first index of the largest entry; [ValueError] on an
    empty array. *)
Fixpoint argmax_from (best_i best i : nat) (l : list nat) : nat :=
  match l with
  | [] => best_i
  | c :: r => if (best <? c)%nat then argmax_from i c (S i) r
              else argmax_from best_i best (S i) r
  end.

Definition np_argmax (l : list nat) : result Z :=
  match l with
  | [] => Raise ValueError
  | c :: r => Ok (Z.of_nat (argmax_from 0 c 1 r))
  end.

(** [np.diff]. *)
Fixpoint np_diff (x : list T) : list T :=
  match x with
  | a :: (b :: _) as r => (b - a)%num :: np_diff r
  | _ => []
  end.

(** [np.sum] of a 1-d array, added up from the first element on.  numpy adds
    arrays of eight and more elements in blocks; the order matters for the
    rounding of binary64 only, and no binary64 evaluation below sums more
    than one term. *)
Definition np_sum (l : list T) : T :=
  match l with
  | [] => zero
  | a :: r => fold_left nadd r a
  end.

(** [a[::2]]. *)
Fixpoint every2 {A} (l : list A) : list A :=
  match l with
  | a :: r => a :: match r with
                   | _ :: r' => every2 r'
                   | [] => []
                   end
  | [] => []
  end.

(** [a[start:stop:2]]. *)
Definition slice2 {A} (l : list A) (start stop : Z) : list A :=
  every2 (slice l start stop).

(** [arr[idx]] for an index sequence [idx] (numpy fancy indexing). *)
Fixpoint take {A} (l : list A) (idx : list Z) : result (list A) :=
  match idx with
  | [] => Ok []
  | i :: r => a <- getitem l i ;; t <- take l r ;; Ok (a :: t)
  end.

(** *** [definepeak] *)

(** Lines 65-68: the histogram of the windowed derivative for box widths
    [dboxes*1 .. dboxes*9], stopping at the first one in which some box value
    occurs more than once.  [cur] holds [(temp1, temp2)] zipped, and
    [boxwidth], as left by the previous iteration. *)
Fixpoint boxes_loop (redder : list T) (dboxes : T) (mults : list Z)
         (cur : option (list (T * nat) * T))
  : result (option (list (T * nat) * T)) :=
  match mults with
  | [] => Ok cur
  | i :: rest =>
      '(fit, boxwidth) <- FitBoxes B redder (dboxes * of_Z i)%num ;;
      let temp := np_unique fit in
      if negb (forallb (fun vc => (snd vc =? 1)%nat) temp)
      then Ok (Some (temp, boxwidth))
      else boxes_loop redder dboxes rest (Some (temp, boxwidth))
  end.

(** Lines 65-70: the outer slope and the box width. *)
Definition outer_slope (redder : list T) (params : Params T) : result (T * T) :=
  cur <- boxes_loop redder (dboxes params) (range 1 10 1) None ;;
  match cur with
  | None => Raise UnboundLocalError
  | Some (temp, boxwidth) =>
      k <- np_argmax (map snd temp) ;;
      os <- getitem (map fst temp) k ;;
      Ok (if (nabs os > maxouterslope params)%num then zero else os, boxwidth)
  end.

(** The decay test of line 87 and the sign test of line 92. *)
Definition decay_stop (params : Params T) (outerslope dermax d : T) : bool :=
  (nabs ((d - outerslope) / (dermax - outerslope)) <= slopedrop params)%num.

Definition sign_stop (s_next s_here : T) : bool :=
  (s_next * s_here <= zero)%num.

(** Lines 78-96: one scan, over the indices [idxs] still to visit.
    [dermax] is [None] while [lock] is [False] (the two are set together).
    The result is the boundary [(reason, i, x)] at which the scan broke out,
    or [None] when it ran to the end of its range. *)
Fixpoint scan (self : Data T) (params : Params T) (prange sign : Z)
         (outerslope : T) (idxs : list Z) (dermax : option T)
  : result (option (Z * Z * T)) :=
  match idxs with
  | [] => Ok None
  | i :: rest =>
      s_next <- getitem (sder self) (i + sign) ;;
      s_here <- getitem (sder self) i ;;
      let decreasing := (s_next < s_here)%num in
      let increasing := (s_next > s_here)%num in
      dermax' <-
        match dermax with
        | None =>
            if (if (sign =? -1)%Z then decreasing else increasing)
            then if (s_here == outerslope)%num
                 then Raise (Exception_ "Non-standing slope" prange)
                 else Ok (Some s_here)
            else Ok None
        | Some _ => Ok dermax
        end ;;
      match dermax' with
      | Some dm =>
          d <- getitem (der self) i ;;
          if decay_stop params outerslope dm d
          then x <- getitem (row0 (spectrum self)) i ;; Ok (Some (1%Z, i, x))
          else if sign_stop s_next s_here
          then x <- getitem (row0 (spectrum self)) i ;; Ok (Some (2%Z, i, x))
          else scan self params prange sign outerslope rest dermax'
      | None => scan self params prange sign outerslope rest dermax'
      end
  end.

(** Lines 75-96: the two scans, left then right; the boundaries found, in
    the order they were appended to [outp_e], [outp_i] and [peakr]. *)
Definition scans (self : Data T) (params : Params T) (center prange : Z)
           (outerslope : T) : result (list (Z * Z * T)) :=
  l <- scan self params prange (-1) outerslope
            (range center (center + (-1) * (prange + 1)) (-1)) None ;;
  r <- scan self params prange 1 outerslope
            (range center (center + 1 * (prange + 1)) 1) None ;;
  Ok (match l with Some b => [b] | None => [] end ++
      match r with Some b => [b] | None => [] end).

(** Lines 98-100. *)
Definition bounds_of (prange : Z) (outerslope boxwidth : T)
           (outp : list (Z * Z * T)) : result (Bounds T) :=
  match outp with
  | [(r0, i0, x0); (r1, i1, x1)] =>
      if (x0 == x1)%num then Raise (Exception_ "Zero-width peak" prange)
      else Ok {| b_xlims := (x0, x1); b_ilims := [i0; i1];
                 b_outerslope := (outerslope, boxwidth);
                 b_peakreason := (r0, r1) |}
  | _ => Raise (Exception_ "Unable to Define Peak" prange)
  end.

(** The [try] block of [definepeak].  A slice bound must be an integer: a
    one-element array as [prange] makes line 64 raise [TypeError]. *)
Definition definepeak_try (self : Data T) (npeak : Z) (prange : radius)
           (params : Params T) : result (Bounds T) :=
  center <- getitem (mai self) npeak ;;
  p <- match prange with RInt p => Ok p | RArr _ => Raise TypeError end ;;
  let redder := slice (sder self) (center - p) (center + p + 1) in
  '(outerslope, boxwidth) <- outer_slope redder params ;;
  outp <- scans self params center p outerslope ;;
  bounds_of p outerslope boxwidth outp.

(** [(0.,0.), (0,0), (0.,0.), (0,0)]. *)
Definition sentinel_bounds : Bounds T :=
  {| b_xlims := (zero, zero); b_ilims := [0%Z; 0%Z];
     b_outerslope := (zero, zero); b_peakreason := (0%Z, 0%Z) |}.

Definition definepeak (self : Data T) (npeak : Z) (prange : radius)
           (params : Params T) : M (Bounds T) :=
  try_except
    (lift (definepeak_try self npeak prange params))
    (fun e err =>
       (Ok sentinel_bounds, err_add e "definepeak" (fullname self) npeak err)).

(** *** [Integrate] *)

(** [scipy.integrate.simps]'s helper [_basic_simps(y, start, stop, x, dx, axis)]
    for a 1-d [y] with sample points [x]: Simpson's rule on the pairs of
    intervals that start at [start, start+2, ...], with the weights for
    unequal spacing.  The five strided slices have the same length in every
    call [simps] makes, except for two samples, where the result is empty. *)
Definition simpson_term (y0 y1 y2 h0 h1 : T) : T :=
  let hsum := (h0 + h1)%num in
  let hprod := (h0 * h1)%num in
  let h0divh1 := (h0 / h1)%num in
  (hsum / of_Z 6 *
   (y0 * (of_Z 2 - of_Z 1 / h0divh1)
    + y1 * hsum * hsum / hprod
    + y2 * (of_Z 2 - h0divh1)))%num.

Fixpoint simpson_terms (y0 y1 y2 h0 h1 : list T) : list T :=
  match y0, y1, y2, h0, h1 with
  | a :: y0', b :: y1', c :: y2', u :: h0', v :: h1' =>
      simpson_term a b c u v :: simpson_terms y0' y1' y2' h0' h1'
  | _, _, _, _, _ => []
  end.

Definition basic_simps (y : list T) (start stop : Z) (x : list T) : T :=
  let h := np_diff x in
  np_sum (simpson_terms
            (slice2 y start stop)
            (slice2 y (start + 1) (stop + 1))
            (slice2 y (start + 2) (stop + 2))
            (slice2 h start stop)
            (slice2 h (start + 1) (stop + 1))).

(** [scipy.integrate.simps(y, x)] with its default [even='avg'] (SciPy before
    1.11): for an even number of samples the average of Simpson's rule on
    the first [N-2] intervals plus a trapezoid on the last one, and of a
    trapezoid on the first interval plus Simpson's rule on the last [N-2]. *)
Definition simps (y x : list T) : result T :=
  let N := Z.of_nat (List.length y) in
  if negb (List.length x =? List.length y)%nat then Raise ValueError
  else if (N mod 2 =? 0)%Z then
    xl <- getitem x (-1) ;; xl' <- getitem x (-2) ;;
    yl <- getitem y (-1) ;; yl' <- getitem y (-2) ;;
    let val := (zero + half * (xl - xl') * (yl + yl'))%num in
    let result_ := basic_simps y 0 (N - 3) x in
    x1 <- getitem x 1 ;; x0 <- getitem x 0 ;;
    y1 <- getitem y 1 ;; y0 <- getitem y 0 ;;
    let val := (val + half * (x1 - x0) * (y1 + y0))%num in
    let result_ := (result_ + basic_simps y 1 (N - 2) x)%num in
    let val := (val / of_Z 2)%num in
    let result_ := (result_ / of_Z 2)%num in
    Ok (result_ + val)%num
  else Ok (basic_simps y 0 (N - 2) x).

(** Lines 105-119. *)
Definition Integrate (array : array2 T) (iedges : list Z) : result T :=
  e0 <- getitem iedges 0 ;;
  e1 <- getitem iedges 1 ;;
  let listx := slice (row0 array) e0 (e1 + 1) in
  let listy := slice (row1 array) e0 (e1 + 1) in
  raw_int <- simps listy listx ;;
  xr <- getitem (row0 array) e1 ;; xl <- getitem (row0 array) e0 ;;
  yr <- getitem (row1 array) e1 ;; yl <- getitem (row1 array) e0 ;;
  let background := (half * (xr - xl) * (yr + yl))%num in
  Ok (raw_int - background)%num.

(** *** [Fwhm] (lines 121-140) *)
Definition Fwhm (array : array2 T) (ic : Z) (coords : T * T) (ilims : list Z)
  : result T :=
  let yhm := (snd coords / of_Z 2)%num in
  i0 <- getitem ilims 0 ;;
  i1 <- getitem ilims 1 ;;
  r1 <- InBetween B (slice (row1 array) i0 ic) yhm true ;;
  let iredhm1 := fst r1 in
  r2 <- InBetween B (slice (row1 array) ic (i1 + 1)) yhm true ;;
  let iredhm2 := snd r2 in
  xhm1 <- match iredhm1 with
          | Some k => x <- getitem (row0 array) (k + i0) ;; Ok (Some x)
          | None => Ok None
          end ;;
  xhm2 <- match iredhm2 with
          | Some k => x <- getitem (row0 array) (k + ic) ;; Ok (Some x)
          | None => Ok None
          end ;;
  Ok match xhm1, xhm2 with
     | Some a, Some b => (b - a)%num
     | _, _ => zero
     end.

(** *** [computepeak] *)

(** [xlims != (0.,0.)] on a pair. *)
Definition is_sentinel (xl : T * T) : bool :=
  (fst xl == zero)%num && (snd xl == zero)%num.

(** Lines 170-211: the derived quantities and the tuple [info], from the
    boundaries [bnd] found by lines 161-169.  The tuple is kept as the record
    it is unpacked into. *)
Definition peak_info (self : Data T) (peakpos : Z) (prange : radius)
           (center : T) (coords coords_tof : T * T) (icenter : Z)
           (center_tof : T) (bnd : Bounds T) (user_edited : bool)
  : result (Peak T) :=
  let xlims := b_xlims bnd in
  let ilims := b_ilims bnd in
  let successful := negb (is_sentinel xlims) in
  integral <- (if successful then Integrate (spectrum self) ilims
               else Ok zero) ;;
  integral_tof <- (if successful
                   then i <- Integrate (spectrum_tof self) ilims ;;
                        Ok (- i)%num
                   else Ok zero) ;;
  yvals <- (if successful
            then v <- take (row1 (spectrum self)) ilims ;; Ok (Some v)
            else Ok None) ;;
  let width := if successful then (snd xlims - fst xlims)%num
               else of_Z (-1) in
  height <- (if successful
             then m1 <- getitem (row1 (ma self)) peakpos ;;
                  v1 <- getitem (match yvals with Some v => v | None => [] end) 1 ;;
                  v0 <- getitem (match yvals with Some v => v | None => [] end) 0 ;;
                  Ok (m1 - (v1 + v0) / of_Z 2)%num
             else Ok (of_Z (-1))) ;;
  fwhm <- (if successful
           then Fwhm (spectrum self) icenter coords ilims
           else Ok zero) ;;
  Ok {| p_fullname := fullname self;
        num := -1;
        center_ := peakpos;
        center := center;
        icenter := icenter;
        center_tof := center_tof;
        integral := integral;
        integral_ := -1;
        integral_tof := integral_tof;
        width := width;
        width_ := -1;
        height := height;
        height_ := -1;
        fwhm := fwhm;
        fwhm_ := -1;
        ahh := (integral / (height * height))%num;
        ahh_ := -1;
        ahw := (integral / (height * width))%num;
        ahw_ := -1;
        xlims := xlims;
        ilims := ilims;
        outerslope := b_outerslope bnd;
        peakreason := b_peakreason bnd;
        yvals := yvals;
        coords := coords;
        coords_tof := coords_tof;
        prange := prange;
        user_edited := user_edited;
        user_defined := false |}.

(** Lines 154-211: everything up to and including the tuple [info]. *)
Definition computepeak_info (self : Data T) (peakpos : Z) (prange : radius)
           (params : Params T) (setx : option (T * T)) : M (Peak T) :=
  (center <~ lift (getitem (row0 (ma self)) peakpos) ;;
   c0 <~ lift (getitem (row0 (ma self)) peakpos) ;;
   c1 <~ lift (getitem (row1 (ma self)) peakpos) ;;
   let coords := (c0, c1) in
   t0 <~ lift (E2t B (fst coords) None) ;;
   let coords_tof := (t0, snd coords) in
   icenter <~ lift (getitem (mai self) peakpos) ;;
   center_tof <~ lift (E2t B center (Some (mode self))) ;;
   '(bnd, user_edited) <~
      match setx with
      | None =>
          b <~ definepeak self peakpos prange params ;;
          ret (b, false)
      | Some sx =>
          il <~ lift (GetIndex B (row0 (spectrum self)) [fst sx; snd sx] None) ;;
          ret ({| b_xlims := sx; b_ilims := il;
                  b_outerslope := (zero, zero);
                  b_peakreason := (3%Z, 3%Z) |}, true)
      end ;;
   lift (peak_info self peakpos prange center coords coords_tof icenter
                   center_tof bnd user_edited))%py.

(** [Peak(info)] (lines 883-887): the length of [info] is checked against
    [peakattr.size] before the attributes are set. *)
Definition Peak_init (info : Peak T) : result (Peak T) :=
  if negb (info_length =? peakattr_size B)%nat
  then Raise (PeakInfoLength info_length (peakattr_size B))
  else Ok info.

(** [return Peak(info)] where the local [info] may not be bound yet. *)
Definition return_Peak (info : option (Peak T)) : M (Peak T) :=
  match info with
  | Some i => lift (Peak_init i)
  | None => raise UnboundLocalError
  end.

(** Lines 153-215.  The handler logs the exception with index [-1] and then
    evaluates [Peak(info)] once more. *)
Definition computepeak (self : Data T) (peakpos : Z) (prange : radius)
           (params : Params T) (setx : option (T * T)) : M (Peak T) :=
  fun err =>
    match computepeak_info self peakpos prange params setx err with
    | (Ok info, err1) =>
        try_except
          (return_Peak (Some info))
          (fun e err2 =>
             return_Peak (Some info)
               (err_add e "computepeak" (fullname self) (-1) err2))
          err1
    | (Raise e, err1) =>
        return_Peak None (err_add e "computepeak" (fullname self) (-1) err1)
    end.

(** *** [maxima] and [minima] *)

(** Columns of [c] that satisfy the bounds; [ycmp] is [>=] for maxima and
    [<=] for minima. A bound that is [None] keeps everything. *)
Definition within (xbounds : option (T * T)) (ybounds : option T)
           (ycmp : T -> T -> bool) (c : T * T) : bool :=
  match xbounds with
  | Some xb => (fst c >= fst xb)%num && (fst c <= snd xb)%num
  | None => true
  end &&
  match ybounds with
  | Some yb => ycmp (snd c) yb
  | None => true
  end.

(** Lines 218-246. *)
Definition maxima (arr : array2 T) (xbounds : option (T * T))
           (ybounds : option T) (smoothing : Z)
  : result (array2 T * list Z) :=
  arr <- Smooth B arr smoothing ;;
  imax <- IndMaxima B (row1 arr) None ;;
  cmaxima <- take arr imax ;;
  let cmaxima := filter (within xbounds ybounds (fun a b => a >= b)%num) cmaxima in
  imaxima <- GetIndex B (row0 arr) (row0 cmaxima) (Some false) ;;
  Ok (cmaxima, imaxima).

(** Lines 248-257. *)
Definition minima (arr : array2 T) (xbounds : option (T * T))
           (ybounds : option T) (smoothing : Z)
  : result (array2 T * list Z) :=
  imin <- IndMaxima B (row1 arr) (Some (-1)%Z) ;;
  cminima <- take arr imin ;;
  let cminima := filter (within xbounds ybounds (fun a b => a <= b)%num) cminima in
  iminima <- GetIndex B (row0 arr) (row0 cminima) (Some false) ;;
  Ok (cminima, iminima).

(** *** [sorting] (lines 293-326) *)

(** The dictionaries of peaks are kept as association lists in insertion
    order, which is the order of [inp.values()].  The [Peak] objects of one
    dictionary are distinct objects; [sorting] writes the rank attributes
    on them in place and returns them under new keys. *)
Definition peakdict : Type := list (Z * Peak T).

(** The 6 x N array: one row per rankable attribute, one column per peak. *)
Definition metric_array (peaks : list (Peak T)) : list (list T) :=
  [ map (@integral T) peaks; map (@width T) peaks; map (@height T) peaks;
    map (@fwhm T) peaks; map (@ahh T) peaks; map (@ahw T) peaks ].

(** [-array]. *)
Definition negated (array : list (list T)) : list (list T) :=
  map (map nneg) array.

(** [(-array).argsort()]: each row sorted on its own. *)
Definition argsort_rows (array : list (list T)) : list (list nat) :=
  map (argsort sort_leb) array.

(** [(-array).argsort().argsort()]; the second sort is on integers. *)
Definition rank_rows (array : list (list T)) : list (list nat) :=
  map (argsort Nat.leb) (argsort_rows array).

(** Lines 317-323 for one [el]. *)
Definition set_ranks (ranks : list (list nat)) (el : nat) (p : Peak T)
  : Peak T :=
  let r k := Z.of_nat (nth el (nth k ranks []) 0%nat) in
  {| p_fullname := p_fullname p;
     num := r 0%nat;
     center_ := center_ p;
     center := center p;
     icenter := icenter p;
     center_tof := center_tof p;
     integral := integral p;
     integral_ := r 0%nat;
     integral_tof := integral_tof p;
     width := width p;
     width_ := r 1%nat;
     height := height p;
     height_ := r 2%nat;
     fwhm := fwhm p;
     fwhm_ := r 3%nat;
     ahh := ahh p;
     ahh_ := r 4%nat;
     ahw := ahw p;
     ahw_ := r 5%nat;
     xlims := xlims p;
     ilims := ilims p;
     outerslope := outerslope p;
     peakreason := peakreason p;
     yvals := yvals p;
     coords := coords p;
     coords_tof := coords_tof p;
     prange := prange p;
     user_edited := user_edited p;
     user_defined := user_defined p |}.

(** The list [peaks] after the loop of lines 316-323. *)
Definition ranked (peaks : list (Peak T)) : list (Peak T) :=
  let ranks := rank_rows (negated (metric_array peaks)) in
  map (fun ep => set_ranks ranks (fst ep) (snd ep))
      (combine (seq 0 (List.length peaks)) peaks).

Definition integral_sorting (peaks : list (Peak T)) : list nat :=
  nth 0 (argsort_rows (negated (metric_array peaks))) [].

Definition sorting (inp : peakdict) : peakdict :=
  let peaks := map snd inp in
  let peaks' := ranked peaks in
  match peaks' with
  | [] => []
  | d :: _ =>
      map (fun i => (Z.of_nat i,
                     nth (nth i (integral_sorting peaks) 0%nat) peaks' d))
          (seq 0 (List.length peaks))
  end.

(** *** [propsisot] (lines 259-291) *)

(** Python's [min(a, b, ...)]: the first of the smallest arguments. *)
Fixpoint py_min_from (cur : radius) (l : list radius) : radius :=
  match l with
  | [] => cur
  | x :: r =>
      py_min_from (if (radius_val x <? radius_val cur)%Z then x else cur) r
  end.

Definition py_min (a : radius) (l : list radius) : radius := py_min_from a l.

(** [shape - k] for the 1-tuple [shape = (n,)] and an element [k] of the
    index array [mai].  A tuple has no subtraction, so the reflected
    operator of the numpy integer runs; it broadcasts over the tuple and
    gives the one-element array [[n - k]]. *)
Definition shape1_minus (n k : Z) : radius := RArr (n - k).

Definition radius_minus (r : radius) (k : Z) : radius :=
  match r with
  | RInt n => RInt (n - k)
  | RArr n => RArr (n - k)
  end.

(** Lines 273-285: the search radius of candidate [i]. *)
Definition search_radius (self : Data T) (params : Params T) (i : Z)
  : result radius :=
  let size := Z.of_nat (List.length (mai self)) in
  let ncols := Z.of_nat (List.length (spectrum self)) in
  nleft <- getitem (mai self) i ;;
  m <- getitem (mai self) i ;;
  let nright := (ncols - m - 1)%Z in
  if (1 <? size)%Z then
    if (i =? 0)%Z then
      Ok (py_min (RInt (prangemax params)) [RInt nleft; RInt nright])
    else if (i =? size - 1)%Z then
      Ok (py_min (RInt (prangemax params)) [RInt nleft; RInt nright])
    else
      a <- getitem (mai self) (i + 1) ;;
      b <- getitem (mai self) (i - 1) ;;
      Ok (py_min (RInt (prangemax params))
                 [RInt (a - b); RInt nleft; RInt nright])
  else if (size =? 1)%Z then
    m0 <- getitem (mai self) 0 ;;
    ml <- getitem (mai self) (-1) ;;
    Ok (py_min (RInt (m0 - 1))
               [radius_minus (shape1_minus ncols ml) 1;
                RInt (prangemax params)])
  else Ok (RInt 0).

(** [setx.get(i)]. *)
Fixpoint dict_get {V} (d : list (Z * V)) (i : Z) : option V :=
  match d with
  | [] => None
  | (k, v) :: r => if (k =? i)%Z then Some v else dict_get r i
  end.

(** The body of the [try] of lines 272-286 for candidate [i]. *)
Definition candidate (self : Data T) (params : Params T)
           (setx : list (Z * (T * T))) (i : Z) : M (Peak T) :=
  (prange <~ lift (search_radius self params i) ;;
   computepeak self i prange params (dict_get setx i))%py.

(** The loop of lines 271-289 over the candidates [idxs] still to do. *)
Fixpoint candidates (self : Data T) (params : Params T)
         (setx : list (Z * (T * T))) (idxs : list Z) (peaks_pos : peakdict)
         (err : sink) : peakdict * sink :=
  match idxs with
  | [] => (peaks_pos, err)
  | i :: rest =>
      match candidate self params setx i err with
      | (Ok pk, err') =>
          candidates self params setx rest (peaks_pos ++ [(i, pk)]) err'
      | (Raise e, err') =>
          candidates self params setx rest peaks_pos
                     (err_add e "propsisot" (fullname self) i err')
      end
  end.

Definition propsisot (self : Data T) (params : Params T)
           (setx : list (Z * (T * T))) (err : sink) : peakdict * sink :=
  let '(peaks_pos, err') :=
    candidates self params setx
               (range 0 (Z.of_nat (List.length (mai self))) 1) [] err in
  (sorting peaks_pos, err').

End Engine.

(** ** Vocabulary of the properties *)

Section Vocabulary.

Context {T : Type} {NT : Number T} {AS : ArgSort}.

(** The trend test of line 82 between sample [i] and the next one outward. *)
Definition arming (sign : Z) (s_next s_here : T) : bool :=
  if (sign =? -1)%Z then (s_next < s_here)%num else (s_next > s_here)%num.

(** The lock stays open at sample [k]. *)
Definition no_arm (self : Data T) (sign k : Z) : Prop :=
  exists a b,
    getitem (sder self) (k + sign) = Ok a /\ getitem (sder self) k = Ok b /\
    arming sign a b = false.

(** The lock closes at sample [i] on a derivative equal to the outer slope. *)
Definition arms_on_outer_slope (self : Data T) (sign : Z) (os : T) (i : Z)
  : Prop :=
  exists a b,
    getitem (sder self) (i + sign) = Ok a /\ getitem (sder self) i = Ok b /\
    arming sign a b = true /\ (b == os)%num = true.

(** With the lock closed on [dm], neither stop fires at sample [k]. *)
Definition no_stop (self : Data T) (params : Params T) (sign : Z)
           (os dm : T) (k : Z) : Prop :=
  exists a b d,
    getitem (sder self) (k + sign) = Ok a /\ getitem (sder self) k = Ok b /\
    getitem (der self) k = Ok d /\
    decay_stop params os dm d = false /\ sign_stop a b = false.

(** The rankable attributes, in the order of the rows of the array, and the
    attributes that receive their ranks. *)
Definition metric (k : nat) : Peak T -> T :=
  nth k [@integral T; @width T; @height T; @fwhm T; @ahh T; @ahw T]
      (fun _ => zero).

Definition rank_field (k : nat) : Peak T -> Z :=
  nth k [@integral_ T; @width_ T; @height_ T; @fwhm_ T; @ahh_ T; @ahw_ T]
      (fun _ => 0%Z).

(** Row [k] of [(-array).argsort()] and of [(-array).argsort().argsort()]. *)
Definition sort_row (k : nat) (peaks : list (Peak T)) : list nat :=
  argsort sort_leb (map nneg (map (metric k) peaks)).

Definition rank_row (k : nat) (peaks : list (Peak T)) : list nat :=
  argsort Nat.leb (sort_row k peaks).

End Vocabulary.

(** The spec's words for the decay stop: the fraction of the way from
    [dermax] to the outer slope that the derivative [d] has moved. *)
Definition moved_fraction (outerslope dermax d : Q) : Q :=
  (dermax - d) / (dermax - outerslope).

(** An antiderivative of [a*x + b]. *)
Definition antiderivative (a b x : Q) : Q := a * x * x / 2 + b * x.

(** The sum of a list of rationals. *)
Definition qsum (l : list Q) : Q := fold_right Qplus 0 l.

(** No two peaks of the list have the same value of attribute [m]. *)
Definition distinct_on (m : Peak Q -> Q) (peaks : list (Peak Q)) : Prop :=
  forall i j p q,
    nth_error peaks i = Some p -> nth_error peaks j = Some q ->
    m p == m q -> i = j.

(** No two peaks tie in any of the six rankable attributes. *)
Definition no_ties (peaks : list (Peak Q)) : Prop :=
  distinct_on (@integral Q) peaks /\ distinct_on (@width Q) peaks /\
  distinct_on (@height Q) peaks /\ distinct_on (@fwhm Q) peaks /\
  distinct_on (@ahh Q) peaks /\ distinct_on (@ahw Q) peaks.

(** ** A runnable instance over the rationals

    The helper functions of [spectra_Basics] are not part of the modelled
    file.  To run the engine on examples they are given the simplest bodies
    that fit the specification's description of them; no general theorem
    below depends on these bodies. *)

(** Modelled from the spec: [FitBoxes] is missing; "partitioning this window
    into boxes of width [dboxes*i]" and "quantized derivative value": each
    value is replaced by the lower edge of its box. *)
Definition FitBoxes_q (redder : list Q) (w : Q) : result (list Q * Q) :=
  Ok (map (fun v => inject_Z (Qfloor (v / w)) * w) redder, w).

(** Modelled from the spec: [InBetween] is missing; "if a crossing is not
    found on either side, FWHM is reported as 0": this one never finds one. *)
Definition InBetween_q (a : list Q) (v : Q) (flag : bool)
  : result (option Z * option Z) :=
  Ok (None, None).

(** Modelled from the spec: [E2t] is missing; "a fixed, invertible, monotonic
    transform" between the two domains, here the identity. *)
Definition E2t_q (x : Q) (mode : option string) : result Q := Ok x.

(** Modelled from the spec: [GetIndex] is missing; "nearest-match lookup":
    the first position holding the value, position 0 when there is none. *)
Fixpoint index_of (a : list Q) (v : Q) (k : Z) : Z :=
  match a with
  | [] => 0
  | w :: r => if Qeq_bool w v then k else index_of r v (k + 1)
  end.

Definition GetIndex_q (a vals : list Q) (closest : option bool)
  : result (list Z) :=
  Ok (map (fun v => index_of a v 0) vals).

(** Modelled from the spec: [Smooth] is missing; "a moving-window smoothing
    transform applied a configured number of times": a three-point mean of
    [y] that keeps the two end samples. *)
Fixpoint mean3 (prev : Q) (l : list (Q * Q)) : list (Q * Q) :=
  match l with
  | (x, y) :: (((_, y') :: _) as r) => (x, (prev + y + y') / 3) :: mean3 y r
  | _ => l
  end.

(** One smoothing pass. *)
Definition smooth_once (a : array2 Q) : array2 Q :=
  match a with
  | (x, y) :: r => (x, y) :: mean3 y r
  | [] => []
  end.

Definition Smooth_q (a : array2 Q) (iters : Z) : result (array2 Q) :=
  Ok (Nat.iter (Z.to_nat iters) smooth_once a).

(** Modelled from the spec: [IndMaxima] is missing; "finds all local extrema
    of the requested sign by comparing each sample to its neighbors". *)
Fixpoint extrema_from (s : Q) (k : Z) (l : list Q) : list Z :=
  match l with
  | a :: ((b :: c :: _) as r) =>
      if negb (Qle_bool (s * b) (s * a)) && negb (Qle_bool (s * b) (s * c))
      then (k + 1)%Z :: extrema_from s (k + 1) r
      else extrema_from s (k + 1) r
  | _ => []
  end.

Definition IndMaxima_q (y : list Q) (sign : option Z) : result (list Z) :=
  Ok (extrema_from (inject_Z (match sign with Some s => s | None => 1 end)) 0 y).

(** The helpers above; [peakattr.size] is taken to be the 29 entries that
    [computepeak] puts in [info]. *)
Definition basics_q : Basics Q :=
  {| FitBoxes := FitBoxes_q;
     InBetween := InBetween_q;
     E2t := E2t_q;
     GetIndex := GetIndex_q;
     Smooth := Smooth_q;
     IndMaxima := IndMaxima_q;
     peakattr_size := 29 |}.

(** Integer samples as rationals. *)
Definition qs (l : list Z) : list Q := map inject_Z l.

(** A spectrum of 12 samples with one peak at index 5, and its forward
    differences. *)
Definition peak_xy : array2 Q :=
  combine (qs [0; 1; 2; 3; 4; 5; 6; 7; 8; 9; 10; 11]%Z)
          (qs [0; 0; 1; 5; 13; 16; 13; 5; 1; 0; 0; 0]%Z).

Definition peak_der : list Q := qs [0; 1; 4; 8; 3; -3; -8; -4; -1; 0; 0]%Z.

Definition one_peak : Data Q :=
  {| fullname := "Ta-181"; mode := "n-g";
     spectrum := peak_xy; spectrum_tof := peak_xy;
     der := peak_der; sder := peak_der;
     ma := [(5, 16)]; mai := [5%Z] |}.

(** A flat spectrum with a candidate at index 5. *)
Definition flat_xy : array2 Q :=
  combine (qs [0; 1; 2; 3; 4; 5; 6; 7; 8; 9; 10; 11]%Z)
          (qs [2; 2; 2; 2; 2; 2; 2; 2; 2; 2; 2; 2]%Z).

Definition flat : Data Q :=
  {| fullname := "flat"; mode := "n-g";
     spectrum := flat_xy; spectrum_tof := flat_xy;
     der := repeat 0 11; sder := repeat 0 11;
     ma := [(5, 2)]; mai := [5%Z] |}.

(** Settings used in the examples. *)
Definition params_q : Params Q :=
  {| dboxes := 1; maxouterslope := 1; slopedrop := 1 # 4; prangemax := 100 |}.

(** Candidates at indices 10, 20 and 35 of a 100-sample array. *)
Definition three_candidates : Data Q :=
  {| fullname := "three"; mode := "n-g";
     spectrum := repeat (0, 0) 100; spectrum_tof := repeat (0, 0) 100;
     der := repeat 0 99; sder := repeat 0 99;
     ma := [(10, 1); (20, 1); (35, 1)]; mai := [10; 20; 35]%Z |}.

(** Samples whose raw minima are at 1, 3 and 5, and whose minima after one
    smoothing pass are at 2 and 4. *)
Definition noisy_xy : array2 Q :=
  combine (qs [0; 1; 2; 3; 4; 5; 6]%Z) (qs [5; 1; 4; 3; 6; 2; 7]%Z).

(** The spec's example: [x = [0,1,2,3]], [y = [0,2,4,6]], boundaries (0, 3). *)
Definition line_q : array2 Q :=
  combine (qs [0; 1; 2; 3]%Z) (qs [0; 2; 4; 6]%Z).

(** The same code in the arithmetic it runs in. *)
Definition fs (l : list Z) : list float := map float_of_Z l.

Definition line_f64 : array2 float :=
  combine (fs [0; 1; 2; 3]%Z) (fs [0; 2; 4; 6]%Z).

(** [x = [0,2,5]] with [y = x]: exactly linear, unevenly spaced. *)
Definition uneven_f64 : array2 float :=
  combine (fs [0; 2; 5]%Z) (fs [0; 2; 5]%Z).

(** A Peak as [computepeak] builds it from its integral, width, height and
    fwhm; what does not take part in the ranking is left at zero. *)
Definition peak_of (name : string) (pos : Z) (i w h f : Q) : Peak Q :=
  {| p_fullname := name; num := -1; center_ := pos; center := 0;
     icenter := 0; center_tof := 0;
     integral := i; integral_ := -1; integral_tof := 0;
     width := w; width_ := -1; height := h; height_ := -1;
     fwhm := f; fwhm_ := -1;
     ahh := i / (h * h); ahh_ := -1; ahw := i / (h * w); ahw_ := -1;
     xlims := (0, 0); ilims := [0%Z; 0%Z]; outerslope := (0, 0);
     peakreason := (0%Z, 0%Z); yvals := None; coords := (0, 0);
     coords_tof := (0, 0); prange := RInt 0;
     user_edited := false; user_defined := false |}.

(** An unbounded candidate followed by a bounded one whose half-maximum
    crossing was not found: both have fwhm 0. *)
Definition tied_peaks : list (Z * Peak Q) :=
  [(0%Z, peak_of "W-182" 0 0 (-1) (-1) 0);
   (1%Z, peak_of "W-182" 1 10 7 4 0)].

(** Two peaks that differ in every ranked attribute. *)
Definition untied_peaks : list (Z * Peak Q) :=
  [(0%Z, peak_of "W-182" 0 3 2 5 1);
   (1%Z, peak_of "W-182" 1 10 7 4 3)].

(** ** The rest of [spectra_Objects.py]

    The classes and functions around the peak engine: the running means of
    [Summer], the volumes of [Catalog], [RankNearest], [AskPeak], and the
    methods of [Data] that rebuild the peaks of an entity. *)

(** *** Python dictionaries and [sorted] *)

(** A [dict] with string keys, as the list of its items in insertion order.
    A list stands for a dictionary when no key occurs twice in it. *)
Definition sdict (V : Type) : Type := list (string * V).

Definition dict_ok {V} (d : sdict V) : Prop := NoDup (map fst d).

(** [d.get(k)], and [k in d] when it is not [None]; [d[k]] raises [KeyError]
    where this is [None]. *)
Fixpoint sdict_get {V} (d : sdict V) (k : string) : option V :=
  match d with
  | [] => None
  | (k', v) :: r => if String.eqb k' k then Some v else sdict_get r k
  end.

(** [d[k] = v]: a key that is present keeps its place. *)
Fixpoint sdict_set {V} (d : sdict V) (k : string) (v : V) : sdict V :=
  match d with
  | [] => [(k, v)]
  | (k', v') :: r =>
      if String.eqb k' k then (k', v) :: r else (k', v') :: sdict_set r k v
  end.

(** [dict(a, **b)]: a copy of [a] updated with the items of [b] in order. *)
Definition dict_merge {V} (a b : sdict V) : sdict V :=
  fold_left (fun d kv => sdict_set d (fst kv) (snd kv)) b a.

(** [sorted(l)]: a stable sort, here by insertion. *)
Fixpoint py_insert {A} (leb : A -> A -> bool) (x : A) (l : list A) : list A :=
  match l with
  | [] => [x]
  | y :: r => if leb x y then x :: l else y :: py_insert leb x r
  end.

Definition py_sorted {A} (leb : A -> A -> bool) (l : list A) : list A :=
  fold_right (py_insert leb) [] l.

(** *** [Summer] (lines 696-734) *)

(** The three dictionaries of a [Summer]: the running mean, the number of
    amounts and the amounts themselves, by key. *)
Record Summer (T : Type) : Type := {
  values : sdict T;
  counts : sdict Z;
  lists : sdict (list T)
}.

Section SummerMethods.

Context {T : Type} {NT : Number T}.

(** [np.round(x, decimals)]. *)
Variable np_round : T -> Z -> T.

(** [Summer()]. *)
Definition Summer_init : Summer T :=
  {| values := []; counts := []; lists := [] |}.

(** [append] (lines 702-709).  The result is [None] where a dictionary
    lookup raises [KeyError].  The integer 0 stored for a new key meets a
    float in the next line, so it is kept as the number 0. *)
Definition Summer_append (self : Summer T) (key : string) (amount : T)
  : option (Summer T) :=
  let self :=
    match sdict_get (values self) key with
    | Some _ => self
    | None => {| values := sdict_set (values self) key (of_Z 0);
                 counts := sdict_set (counts self) key 0%Z;
                 lists := sdict_set (lists self) key [] |}
    end in
  match sdict_get (values self) key, sdict_get (counts self) key with
  | Some v, Some c =>
      let values' :=
        sdict_set (values self) key
                  ((v * of_Z c + amount) / of_Z (c + 1)%Z)%num in
      let counts' := sdict_set (counts self) key (c + 1)%Z in
      match sdict_get (lists self) key with
      | Some l =>
          Some {| values := values'; counts := counts';
                  lists := sdict_set (lists self) key (l ++ [amount]) |}
      | None => None
      end
  | _, _ => None
  end.

(** [get_as_lists] (lines 714-716): the keys in increasing order and their
    values. *)
Definition Summer_get_as_lists (self : Summer T) : list string * list T :=
  let keys := py_sorted String.leb (map fst (values self)) in
  (keys,
   flat_map (fun key => match sdict_get (values self) key with
                        | Some v => [v]
                        | None => []
                        end) keys).

(** [np.mean] and [np.var] of a 1-d array. *)
Definition np_mean (l : list T) : T :=
  (np_sum l / of_Z (Z.of_nat (List.length l)))%num.

Definition np_var (l : list T) : T :=
  let arrmean := np_mean l in
  let x := map (fun a => (a - arrmean)%num) l in
  (np_sum (map (fun d => (d * d)%num) x) / of_Z (Z.of_nat (List.length l)))%num.

(** [get_stats] (lines 721-722); [None] for the [KeyError]. *)
Definition Summer_get_stats (self : Summer T) (key : string)
  : option (T * T) :=
  match sdict_get (lists self) key with
  | Some l => Some (np_mean l, np_var l)
  | None => None
  end.

(** [sum] (lines 724-725). *)
Definition Summer_sum (self : Summer T) : T :=
  np_sum (snd (Summer_get_as_lists self)).

(** [percentage] (lines 727-734). *)
Definition Summer_percentage (self : Summer T) (outof100 : bool)
           (decimals : option Z) : sdict T :=
  map (fun kv =>
         let res := (snd kv / Summer_sum self)%num in
         let res := if outof100 then (res * of_Z 100)%num else res in
         let res := match decimals with
                    | Some d => np_round res d
                    | None => res
                    end in
         (fst kv, res))
      (values self).

End SummerMethods.

(** *** [Catalog] (lines 537-661) *)

(** The four volumes of a [Catalog]; [E] is the type of the entities they
    hold. *)
Record Catalog (E : Type) : Type := {
  isotopes : sdict E;
  elements : sdict E;
  compounds : sdict E;
  samples : sdict E
}.

Section CatalogMethods.

Context {E : Type}.

(** The attribute [mode] of an entity. *)
Variable mode_of : E -> string.

Definition volumes : list string :=
  ["isotopes"; "elements"; "compounds"; "samples"]%string.

(** [kwargs.get(volume, dict())]. *)
Definition kwargs_get (kwargs : sdict (sdict E)) (volume : string) : sdict E :=
  match sdict_get kwargs volume with
  | Some d => d
  | None => []
  end.

(** [_format] (lines 544-546). *)
Definition Catalog_format (kwargs : sdict (sdict E)) : Catalog E :=
  {| isotopes := kwargs_get kwargs "isotopes";
     elements := kwargs_get kwargs "elements";
     compounds := kwargs_get kwargs "compounds";
     samples := kwargs_get kwargs "samples" |}.

(** [update] (lines 552-554). *)
Definition Catalog_update (self : Catalog E) (kwargs : sdict (sdict E))
  : Catalog E :=
  {| isotopes := dict_merge (isotopes self) (kwargs_get kwargs "isotopes");
     elements := dict_merge (elements self) (kwargs_get kwargs "elements");
     compounds := dict_merge (compounds self) (kwargs_get kwargs "compounds");
     samples := dict_merge (samples self) (kwargs_get kwargs "samples") |}.

(** [not mode]: [None] and the empty string are false. *)
Definition no_mode (mode : option string) : bool :=
  match mode with
  | None => true
  | Some m => String.eqb m ""
  end.

(** [_discriminate] (lines 564-568). *)
Definition Catalog_discriminate (Dict : sdict E) (mode : option string)
  : sdict E :=
  if no_mode mode then Dict
  else filter (fun kv => match mode with
                         | Some m => String.eqb (mode_of (snd kv)) m
                         | None => false
                         end) Dict.

(** Lines 570-589. *)
Definition Isotopes (self : Catalog E) (mode : option string) : sdict E :=
  Catalog_discriminate (isotopes self) mode.

Definition Elements (self : Catalog E) (mode : option string) : sdict E :=
  Catalog_discriminate (elements self) mode.

Definition Compounds (self : Catalog E) (mode : option string) : sdict E :=
  Catalog_discriminate (compounds self) mode.

Definition Samples (self : Catalog E) (mode : option string) : sdict E :=
  Catalog_discriminate (samples self) mode.

Definition Mixes (self : Catalog E) (mode : option string) : sdict E :=
  dict_merge (Elements self mode) (Compounds self mode).

Definition Datas (self : Catalog E) (mode : option string) : sdict E :=
  dict_merge (Isotopes self mode) (Mixes self mode).

Definition Substances (self : Catalog E) (mode : option string) : sdict E :=
  dict_merge (Datas self mode) (Samples self mode).

(** [get] (lines 630-631); Python's [None] is [None]. *)
Definition Catalog_get (self : Catalog E) (inp : string) (otherwise : option E)
  : option E :=
  match sdict_get (Substances self None) inp with
  | Some e => Some e
  | None => otherwise
  end.

(** [get_compounds] and [get_samples] (lines 614-618). *)
Definition get_compounds (self : Catalog E) : list string :=
  map fst (compounds self).

Definition get_samples (self : Catalog E) : list string :=
  map fst (samples self).

End CatalogMethods.

(** *** [Catalog._unravel] and the lists of names (lines 594-625) *)

(** The characters '_' and '-'. *)
Definition underscore : Ascii.ascii := Ascii.ascii_of_nat 95.
Definition hyphen : Ascii.ascii := Ascii.ascii_of_nat 45.

(** [s.split(sep)] for a separator of one character. *)
Fixpoint str_split (sep : Ascii.ascii) (s : string) : list string :=
  match s with
  | EmptyString => [EmptyString]
  | String c r =>
      if Ascii.eqb c sep then EmptyString :: str_split sep r
      else match str_split sep r with
           | h :: t => String c h :: t
           | [] => [String c EmptyString]
           end
  end.

(** [sep.join(parts)]. *)
Fixpoint str_join (sep : Ascii.ascii) (parts : list string) : string :=
  match parts with
  | [] => EmptyString
  | p :: r =>
      match r with
      | [] => p
      | _ :: _ => (p ++ String sep (str_join sep r))%string
      end
  end.

(** A list comprehension whose element expression may raise. *)
Fixpoint comprehension {A C} (f : A -> result C) (l : list A)
  : result (list C) :=
  match l with
  | [] => Ok []
  | a :: r => (c <- f a ;; t <- comprehension f r ;; Ok (c :: t))%py
  end.

(** The lambda [spl] of line 595: the first [n] fields, separated by '-', of
    what precedes the first '_' of the name [a]. *)
Definition spl (a : string) (n : nat) : result string :=
  let stem := hd EmptyString (str_split underscore a) in
  (fields <- comprehension (fun i => getitem (str_split hyphen stem) (Z.of_nat i))
                           (seq 0 n) ;;
   Ok (str_join hyphen fields))%py.

(** A string read back from a numpy array of strings: such an array pads
    its elements with NUL characters and drops them at the end of an element
    when it is read. *)
Fixpoint np_str (s : string) : string :=
  match s with
  | EmptyString => EmptyString
  | String c r =>
      match np_str r with
      | EmptyString =>
          if Ascii.eqb c Ascii.zero then EmptyString else String c EmptyString
      | String _ _ as r' => String c r'
      end
  end.

(** [np.unique(l, return_counts=True)] for a list of strings: the distinct
    values in increasing order, each with its number of occurrences. *)
Definition np_unique_str (l : list string) : list (string * nat) :=
  let a := map np_str l in
  map (fun x => (x, count_occ string_dec a x))
      (py_sorted String.leb (nodup string_dec a)).

Section CatalogNames.

Context {E : Type}.

(** [_unravel] (lines 594-600). *)
Definition Catalog_unravel (self : Catalog E)
  : result (list string * list string * list string * list string) :=
  (isots_in <- comprehension (fun isot => spl isot 3) (map fst (isotopes self)) ;;
   let isots := map fst (np_unique_str isots_in) in
   ielems_in <- comprehension (fun isot => spl isot 2) (map fst (isotopes self)) ;;
   let ielems := map fst (np_unique_str ielems_in) in
   let nisots := map snd (np_unique_str ielems_in) in
   let non_unique :=
     map fst (filter (fun xc => (1 <? snd xc)%nat) (combine ielems nisots)) in
   elems_in <- comprehension (fun elem => spl elem 2) (map fst (elements self)) ;;
   let elems := map fst (np_unique_str elems_in) in
   Ok (isots, ielems, elems, non_unique))%py.

(** Lines 602-612. *)
Definition get_isotopes (self : Catalog E) : result (list string) :=
  (r <- Catalog_unravel self ;; Ok (fst (fst (fst r))))%py.

Definition get_elements (self : Catalog E) : result (list string) :=
  (r <- Catalog_unravel self ;; Ok (snd (fst r)))%py.

Definition get_elements_from_isotopes (self : Catalog E) (non_unique : bool)
  : result (list string) :=
  if negb non_unique
  then (r <- Catalog_unravel self ;; Ok (snd (fst (fst r))))%py
  else (r <- Catalog_unravel self ;; Ok (snd r))%py.

(** [ready_to_mix] (lines 620-625). *)
Definition ready_to_mix (self : Catalog E) : result (list string) :=
  (outp <- get_isotopes self ;;
   elems <- get_elements self ;;
   Ok (outp ++ elems ++ get_compounds self))%py.

End CatalogNames.

(** *** [Data]: the peaks of an entity (lines 786-822) *)

(** An instance of [Data] once [__init__] has run: the fields the engine
    reads, the dictionary [peaks] and the list [errors]. *)
Record DataObject (T : Type) : Type := {
  data : Data T;
  peaks : list (Z * Peak T);
  errors : list (Peak T)
}.

Section DataMethods.

Context {T : Type} {NT : Number T} {AS : ArgSort}.

(** [peakattr.has], of [spectra_InitSettings]. *)
Variable peakattr_has : string -> bool.

(** [_seterrors] (lines 786-787). *)
Definition Data_seterrors (self : DataObject T) : DataObject T :=
  {| data := data self;
     peaks := peaks self;
     errors := map snd (filter (fun ip => is_sentinel (xlims (snd ip)))
                               (peaks self)) |}.

(** [get_from_peaks(attr)] (lines 804-805) for an attribute name [attr]
    that [getattr] resolves to the field [field]: the values in the order
    of the sorted keys, or [None] when [peakattr] does not have the name. *)
Definition get_from_peaks {V} (self : DataObject T) (attr : string)
           (field : Peak T -> V) : option (list V) :=
  if peakattr_has attr
  then Some (flat_map (fun i => match dict_get (peaks self) i with
                                | Some p => [field p]
                                | None => []
                                end)
                      (py_sorted Z.leb (map fst (peaks self))))
  else None.

(** [delete] (lines 817-822), given what [DeletePeaks(self)] returned: the
    list of the chosen keys, or [None] after an exception.  [i in None]
    raises [TypeError]; with no peaks the test is never evaluated.  The time
    stamp [date_edited] is left out. *)
Definition Data_delete (deleting : option (list Z)) (self : DataObject T)
  : result (DataObject T) :=
  match deleting with
  | Some [] => Ok self
  | Some l =>
      Ok (Data_seterrors
            {| data := data self;
               peaks := sorting (filter (fun ip => negb (existsb (Z.eqb (fst ip)) l))
                                        (peaks self));
               errors := errors self |})
  | None =>
      match peaks self with
      | [] => Ok (Data_seterrors {| data := data self;
                                    peaks := sorting [];
                                    errors := errors self |})
      | _ :: _ => Raise TypeError
      end
  end.

(** *** [RankNearest] (lines 369-379) *)

(** [x != x]. *)
Definition is_nan (x : T) : bool := negb (x == x)%num.

(** [np.min] of a 1-d array: a NaN if there is one, else the least element;
    [ValueError] on an empty array. *)
Fixpoint np_min_from (cur : T) (l : list T) : T :=
  match l with
  | [] => cur
  | x :: r =>
      np_min_from (if is_nan cur then cur
                   else if is_nan x then x
                   else if (x < cur)%num then x else cur) r
  end.

Definition np_min (l : list T) : result T :=
  match l with
  | [] => Raise ValueError
  | x :: r => Ok (np_min_from x r)
  end.

(** [np.argwhere(cond)[0,0]]: the first index at which [cond] holds. *)
Fixpoint first_where (cond : T -> bool) (l : list T) (k : Z) : result Z :=
  match l with
  | [] => Raise IndexError
  | x :: r => if cond x then Ok k else first_where cond r (k + 1)
  end.

(** Lines 371-377: one row [[isot, closest_dist, nisot]] for each entity
    that has peaks.  [None - xx] raises [TypeError]. *)
Fixpoint nearest_rows (items : list (string * DataObject T)) (xx : T)
  : result (list (DataObject T * T * Z)) :=
  match items with
  | [] => Ok []
  | (isotname, isot) :: rest =>
      match get_from_peaks isot "center_tof" (@center_tof T) with
      | None => Raise TypeError
      | Some arr =>
          let dist := map (fun c => nabs (c - xx)%num) arr in
          if (List.length dist =? 0)%nat then nearest_rows rest xx
          else
            (closest_dist <- np_min dist ;;
             nisot <- first_where (fun d => d == closest_dist)%num dist 0 ;;
             rows <- nearest_rows rest xx ;;
             Ok ((isot, closest_dist, nisot) :: rows))%py
      end
  end.

(** Lines 369-379.  The rows come back in the order of their distances. *)
Definition RankNearest (Dict : sdict (DataObject T)) (xx : T)
  : result (list (DataObject T * T * Z)) :=
  (closest_peak <- nearest_rows Dict xx ;;
   Ok match closest_peak with
      | [] => []
      | d :: _ =>
          map (fun i => nth i closest_peak d)
              (argsort sort_leb (map (fun row => snd (fst row)) closest_peak))
      end)%py.

End DataMethods.

(** *** [AskPeak] (lines 400-410) *)

Section Console.

(** [str.isnumeric] and [int] on a string. *)
Variable str_isnumeric : string -> bool.
Variable py_int : string -> result Z.

(** [AskPeak(firstno)] when [input] returns the line [p]. *)
Definition AskPeak (p : string) (firstno : Z) : result Z :=
  if existsb (String.eqb p) ["q"; "quit"; ""]%string then Ok (-2)%Z
  else if negb (str_isnumeric p) then Ok (-1)%Z
  else
    (ind <- py_int p ;;
     if negb ((0 <=? ind)%Z && (ind <? firstno)%Z) then Ok (-1)%Z
     else py_int p)%py.

End Console.

(** [isnumeric] and [int] on ASCII text: a non-empty string of digits. *)
Definition digit_of (c : Ascii.ascii) : option Z :=
  let n := Z.of_N (Ascii.N_of_ascii c) in
  if (48 <=? n)%Z && (n <=? 57)%Z then Some (n - 48)%Z else None.

Fixpoint digits_value (s : string) (acc : Z) : option Z :=
  match s with
  | EmptyString => Some acc
  | String c r =>
      match digit_of c with
      | Some d => digits_value r (10 * acc + d)%Z
      | None => None
      end
  end.

Definition isnumeric_ascii (s : string) : bool :=
  match s with
  | EmptyString => false
  | _ => match digits_value s 0 with Some _ => true | None => false end
  end.

Definition int_ascii (s : string) : result Z :=
  match s with
  | EmptyString => Raise ValueError
  | _ => match digits_value s 0 with Some n => Ok n | None => Raise ValueError end
  end.

(** *** Vocabulary of the further properties *)

(** A Peak without what [sorting] writes on it: [num] and the six ranks are
    set to 0. *)
Definition unranked {T} (p : Peak T) : Peak T := set_ranks [] 0 p.

(** What [computepeak] has put on the Peak of candidate [i]; [sx] holds the
    bounds set by the user, if any. *)
Definition assembled {T} (self : Data T) (i : Z) (sx : option (T * T))
           (pk : Peak T) : Prop :=
  center_ pk = i /\ p_fullname pk = fullname self /\
  match sx with
  | Some b => user_edited pk = true /\ xlims pk = b /\
              peakreason pk = (3, 3)%Z
  | None => user_edited pk = false
  end.

(** The entries added to the sink under the function name [f]. *)
Definition logged_by (f : string) (added : sink) : list entry :=
  filter (fun en => String.eqb (e_function en) f) added.

(** Two spectra on one grid, as rows [(x, y1, y2)], and the spectrum
    [(x, f x y1 y2)] made of them. *)
Definition spectrum_of (f : Q -> Q -> Q -> Q) (rows : list (Q * Q * Q))
  : array2 Q :=
  map (fun r => (fst (fst r), f (fst (fst r)) (snd (fst r)) (snd r))) rows.

(** A spectrum with the line [a*x + b] added to it. *)
Definition add_line (a b : Q) (arr : array2 Q) : array2 Q :=
  map (fun p => (fst p, snd p + (a * fst p + b))) arr.

(** A functional on the [y]-values of a grid that respects sums and
    multiples. *)
Definition linear_in_y {I} (S : (I -> Q) -> Q) : Prop :=
  (forall g1 g2, S (fun w => g1 w + g2 w) == S g1 + S g2) /\
  (forall c g, S (fun w => c * g w) == c * S g).

(** A sequence of [append] calls. *)
Fixpoint Summer_appends {T} {NT : Number T} (self : Summer T)
         (ops : list (string * T)) : option (Summer T) :=
  match ops with
  | [] => Some self
  | (key, amount) :: rest =>
      match Summer_append self key amount with
      | Some self' => Summer_appends self' rest
      | None => None
      end
  end.

(** The amounts appended under [key], in order. *)
Definition amounts_of {T} (key : string) (ops : list (string * T)) : list T :=
  map snd (filter (fun o => String.eqb (fst o) key) ops).

(** Every volume of the catalog stands for a dictionary. *)
Definition catalog_ok {E} (self : Catalog E) : Prop :=
  dict_ok (isotopes self) /\ dict_ok (elements self) /\
  dict_ok (compounds self) /\ dict_ok (samples self).

(** [getattr(self, volume)] for the names in [volumes]. *)
Definition volume_of {E} (self : Catalog E) (volume : string) : sdict E :=
  if String.eqb volume "isotopes" then isotopes self
  else if String.eqb volume "elements" then elements self
  else if String.eqb volume "compounds" then compounds self
  else if String.eqb volume "samples" then samples self
  else [].

(** The first of the entries that [lookups] finds. *)
Fixpoint first_some {A} (lookups : list (option A)) : option A :=
  match lookups with
  | [] => None
  | Some a :: _ => Some a
  | None :: r => first_some r
  end.

(** The entity stored under [k], when its mode is [m]. *)
Definition get_in_mode {E} (mode_of : E -> string) (m : string) (d : sdict E)
           (k : string) : option E :=
  match sdict_get d k with
  | Some e => if String.eqb (mode_of e) m then Some e else None
  | None => None
  end.

(** The number of fields, separated by '-', in what precedes the first '_'
    of a name. *)
Definition name_fields (a : string) : nat :=
  List.length (str_split hyphen (hd EmptyString (str_split underscore a))).

(** The name [a], cut to its first [n] fields, is [x] when read back from a
    numpy array. *)
Definition cut_is (n : nat) (x a : string) : bool :=
  match spl a n with
  | Ok y => String.eqb (np_str y) x
  | Raise _ => false
  end.

(** A row [(isot, d, n)] of [RankNearest] names the peak of [isot] nearest
    to [xx]: with the peaks taken by increasing key, [d] is the distance of
    peak [n] from [xx], no peak is nearer, and no earlier peak is as near. *)
Definition nearest_peak_row (peakattr_has : string -> bool) (xx : Q)
           (row : DataObject Q * Q * Z) : Prop :=
  let '(isot, d, n) := row in
  exists cs,
    get_from_peaks peakattr_has isot "center_tof" (@center_tof Q) = Some cs /\
    (0 <= n < Z.of_nat (List.length cs))%Z /\
    d == Qabs (nth (Z.to_nat n) cs 0 - xx) /\
    (forall c, In c cs -> d <= Qabs (c - xx)) /\
    (forall j, (j < Z.to_nat n)%nat -> ~ Qabs (nth j cs 0 - xx) == d).

(** *** Further examples *)

(** An entity of mode "n-tot" under the name of an isotope, and a catalog
    that holds both. *)
Definition example_sample : Data Q :=
  {| fullname := "Ta-181"; mode := "n-tot";
     spectrum := flat_xy; spectrum_tof := flat_xy;
     der := repeat 0 11; sder := repeat 0 11;
     ma := [(5, 2)]; mai := [5%Z] |}.

Definition example_catalog : Catalog (Data Q) :=
  {| isotopes := [("Ta-181"%string, one_peak); ("flat"%string, flat)];
     elements := [];
     compounds := [("three"%string, three_candidates)];
     samples := [("Ta-181"%string, example_sample)] |}.

(** The isotopes 73-Ta-181, 74-W-182 (under two names) and 74-W-184. *)
Definition names_catalog : Catalog unit :=
  {| isotopes := [("73-Ta-181_n-g"%string, tt); ("74-W-182_n-g"%string, tt);
                  ("74-W-182_n-tot"%string, tt); ("74-W-184_n-g"%string, tt)];
     elements := [("74-W_n-g"%string, tt)];
     compounds := [("WC"%string, tt)];
     samples := [] |}.

(** A Peak at the time of flight [tof]; everything else as in an unbounded
    candidate of rank [pos]. *)
Definition peak_at (name : string) (pos : Z) (tof : Q) : Peak Q :=
  {| p_fullname := name; num := pos; center_ := pos; center := 0;
     icenter := 0; center_tof := tof;
     integral := 0; integral_ := pos; integral_tof := 0;
     width := -1; width_ := pos; height := -1; height_ := pos;
     fwhm := 0; fwhm_ := pos;
     ahh := 0; ahh_ := pos; ahw := 0; ahw_ := pos;
     xlims := (0, 0); ilims := [0%Z; 0%Z]; outerslope := (0, 0);
     peakreason := (0%Z, 0%Z); yvals := None; coords := (0, 0);
     coords_tof := (0, 0); prange := RInt 0;
     user_edited := false; user_defined := false |}.

(** Three entities: peaks at 40 and 10, no peak, a peak at 14. *)
Definition two_peaks : DataObject Q :=
  {| data := one_peak;
     peaks := [(0%Z, peak_at "Ta-181" 0 40); (1%Z, peak_at "Ta-181" 1 10)];
     errors := [] |}.

Definition no_peaks : DataObject Q :=
  {| data := three_candidates; peaks := []; errors := [] |}.

Definition a_peak : DataObject Q :=
  {| data := flat; peaks := [(0%Z, peak_at "flat" 0 14)]; errors := [] |}.

Definition example_dict : sdict (DataObject Q) :=
  [("Ta-181"%string, two_peaks); ("three"%string, no_peaks);
   ("flat"%string, a_peak)].

(** * Properties *)

Unset Implicit Arguments.

(** ** Indexing *)

Lemma norm_index_nat (len k : nat) :
  (k < len)%nat -> norm_index len (Z.of_nat k) = Some k.
Proof.
  intros Hk. unfold norm_index.
  replace (0 <=? Z.of_nat k)%Z with true by (symmetry; apply Z.leb_le; lia).
  replace (Z.of_nat k <? Z.of_nat len)%Z with true
    by (symmetry; apply Z.ltb_lt; lia).
  cbn. now rewrite Nat2Z.id.
Qed.

Lemma getitem_nat {A} (l : list A) (k : nat) (d : A) :
  (k < List.length l)%nat -> getitem l (Z.of_nat k) = Ok (nth k l d).
Proof.
  intros Hk. unfold getitem. rewrite norm_index_nat by exact Hk.
  destruct (nth_error l k) eqn:E.
  - now rewrite (nth_error_nth _ _ d E).
  - apply nth_error_None in E. lia.
Qed.

Lemma getitem_last {A} (l : list A) (d : A) :
  l <> [] -> getitem l (-1) = Ok (nth (List.length l - 1) l d).
Proof.
  intros Hl. unfold getitem, norm_index.
  assert (0 < List.length l)%nat by (destruct l; [congruence | cbn; lia]).
  cbv zeta.
  destruct (Z.leb_spec 0 (-1)); [lia|]. cbn [andb].
  destruct (Z.leb_spec (- Z.of_nat (List.length l)) (-1)); [|lia].
  destruct (Z.ltb_spec (-1) 0); [|lia]. cbn [andb].
  replace (Z.to_nat (-1 + Z.of_nat (List.length l))) with (List.length l - 1)%nat
    by lia.
  destruct (nth_error l (List.length l - 1)) eqn:E.
  - now rewrite (nth_error_nth _ _ d E).
  - apply nth_error_None in E. lia.
Qed.

Lemma getitem_Ok_inv {A} (l : list A) (i : Z) (a : A) :
  getitem l i = Ok a -> exists k, nth_error l k = Some a.
Proof.
  unfold getitem. destruct (norm_index (List.length l) i) as [k|]; [|discriminate].
  destruct (nth_error l k) eqn:E; [|discriminate].
  intros [= <-]. now exists k.
Qed.

(** ** The search radius ([propsisot], lines 273-285) *)

Lemma py_min_RInt3 (a b c : Z) :
  py_min (RInt a) [RInt b; RInt c] = RInt (Z.min a (Z.min b c)).
Proof.
  unfold py_min; cbn.
  destruct (Z.ltb_spec b a); cbn;
    [destruct (Z.ltb_spec c b) | destruct (Z.ltb_spec c a)]; f_equal; lia.
Qed.

Lemma py_min_RInt4 (a b c d : Z) :
  py_min (RInt a) [RInt b; RInt c; RInt d]
  = RInt (Z.min a (Z.min b (Z.min c d))).
Proof.
  unfold py_min; cbn.
  destruct (Z.ltb_spec b a); cbn;
    [destruct (Z.ltb_spec c b) | destruct (Z.ltb_spec c a)]; cbn;
    match goal with
    | |- context [(d <? ?x)%Z] => destruct (Z.ltb_spec d x)
    end; f_equal; lia.
Qed.

Lemma py_min_val (a : radius) (l : list radius) :
  radius_val (py_min a l) = fold_left Z.min (map radius_val l) (radius_val a).
Proof.
  unfold py_min. revert a. induction l as [|x l IH]; intros a; cbn; [reflexivity|].
  rewrite IH. f_equal.
  destruct (Z.ltb_spec (radius_val x) (radius_val a)); lia.
Qed.

(** C1 (as amended): for an interior candidate [k] of at least three, the
    search radius is the minimum of [prangemax], the distance between its two
    neighbours [mai[k+1] - mai[k-1]] (the whole spacing, not half of it), the
    number of samples to its left and the number of samples to its right. *)
Theorem search_radius_interior {T} (self : Data T) (params : Params T) (k : nat) :
  (0 < k)%nat -> (k + 1 < List.length (mai self))%nat ->
  search_radius self params (Z.of_nat k)
  = Ok (RInt (Z.min (prangemax params)
             (Z.min (nth (k + 1) (mai self) 0 - nth (k - 1) (mai self) 0)
             (Z.min (nth k (mai self) 0)
                    (Z.of_nat (List.length (spectrum self))
                     - nth k (mai self) 0 - 1)))))%Z.
Proof.
  intros Hk Hk1. unfold search_radius.
  rewrite (getitem_nat _ _ 0%Z) by lia. cbn [bind].
  replace (1 <? Z.of_nat (List.length (mai self)))%Z with true
    by (symmetry; apply Z.ltb_lt; lia).
  replace (Z.of_nat k =? 0)%Z with false by (symmetry; apply Z.eqb_neq; lia).
  replace (Z.of_nat k =? Z.of_nat (List.length (mai self)) - 1)%Z with false
    by (symmetry; apply Z.eqb_neq; lia).
  replace (Z.of_nat k + 1)%Z with (Z.of_nat (k + 1)) by lia.
  replace (Z.of_nat k - 1)%Z with (Z.of_nat (k - 1)) by lia.
  rewrite (getitem_nat _ _ 0%Z) by lia.
  rewrite (getitem_nat _ _ 0%Z) by lia. cbn [bind].
  now rewrite py_min_RInt4.
Qed.

(** The middle one of the candidates 10, 20, 35 in 100 samples gets radius
    [min(100, 35-10, 20, 79) = 20]. *)
Lemma search_radius_interior_witness :
  search_radius three_candidates params_q 1 = Ok (RInt 20).
Proof.
  exact (search_radius_interior three_candidates params_q 1%nat
           ltac:(lia) ltac:(cbn; lia)).
Defined.

(** C1 (as stated) fails: half the neighbour spacing would give
    [min(100, (35-10)/2, 20, 79) = 12], the code computes 20. *)
Lemma search_radius_not_half_spacing :
  Z.min 100 (Z.min ((35 - 10) / 2) (Z.min 20 (100 - 20 - 1))) = 12%Z /\
  search_radius three_candidates params_q 1 <> Ok (RInt 12).
Proof.
  split; [reflexivity|]. vm_compute. discriminate.
Qed.

(** ** The stable argsort satisfies numpy's contract *)

Section StableArgsort.

Context {K : Type} (leb : K -> K -> bool).

Let R (p q : nat * K) : Prop := leb (snd p) (snd q) = true.

Lemma insert_key_perm (x : nat * K) (l : list (nat * K)) :
  Permutation (insert_key leb x l) (x :: l).
Proof.
  induction l as [|y l IH]; cbn; [reflexivity|].
  destruct (leb (snd x) (snd y)); [reflexivity|].
  rewrite IH. apply perm_swap.
Qed.

Lemma isort_keys_perm (l : list (nat * K)) :
  Permutation (isort_keys leb l) l.
Proof.
  induction l as [|x l IH]; cbn; [reflexivity|].
  rewrite insert_key_perm. now constructor.
Qed.

Lemma map_fst_combine_seq (keys : list K) (s : nat) :
  map fst (combine (seq s (List.length keys)) keys) = seq s (List.length keys).
Proof.
  revert s. induction keys as [|k keys IH]; intros s; cbn; [reflexivity|].
  now rewrite IH.
Qed.

Lemma stable_argsort_perm (keys : list K) :
  Permutation (stable_argsort leb keys) (seq 0 (List.length keys)).
Proof.
  unfold stable_argsort.
  rewrite <- (map_fst_combine_seq keys 0) at 2.
  apply Permutation_map, isort_keys_perm.
Qed.

Hypothesis leb_total : forall a b, leb a b = true \/ leb b a = true.
Hypothesis leb_trans :
  forall a b c, leb a b = true -> leb b c = true -> leb a c = true.

Lemma insert_key_sorted (x : nat * K) (l : list (nat * K)) :
  StronglySorted R l -> StronglySorted R (insert_key leb x l).
Proof.
  induction 1 as [|y l Hl IH Hy]; cbn.
  - repeat constructor.
  - destruct (leb (snd x) (snd y)) eqn:E.
    + constructor; [now constructor|].
      constructor; [exact E|].
      eapply Forall_impl; [|exact Hy].
      intros z Hz. unfold R in *. eauto.
    + constructor; [exact IH|].
      eapply Permutation_Forall; [symmetry; apply insert_key_perm|].
      constructor; [|exact Hy].
      unfold R. destruct (leb_total (snd x) (snd y)); congruence.
Qed.

Lemma isort_keys_sorted (l : list (nat * K)) :
  StronglySorted R (isort_keys leb l).
Proof.
  induction l as [|x l IH]; cbn; [constructor|].
  now apply insert_key_sorted.
Qed.

Lemma combine_seq_lookup (keys : list K) (s i : nat) (k : K) :
  In (i, k) (combine (seq s (List.length keys)) keys) ->
  (s <= i)%nat /\ nth_error keys (i - s) = Some k.
Proof.
  revert s. induction keys as [|k0 keys IH]; intros s; cbn; [tauto|].
  intros [[= <- <-]|Hin].
  - split; [lia|]. now rewrite Nat.sub_diag.
  - apply IH in Hin as [Hle Hn]. split; [lia|].
    replace (i - s)%nat with (S (i - S s)) by lia. exact Hn.
Qed.

Lemma sorted_pairs_key_le (keys : list K) (l : list (nat * K)) :
  Forall (fun p => nth_error keys (fst p) = Some (snd p)) l ->
  StronglySorted R l ->
  StronglySorted (key_le leb keys) (map fst l).
Proof.
  intros Hall. induction 1 as [|y l Hl IH Hy]; cbn; [constructor|].
  inversion Hall as [|? ? Hy0 Hall']; subst.
  constructor; [now apply IH|].
  apply Forall_map. rewrite Forall_forall in *.
  intros z Hz a b Ha Hb.
  specialize (Hy z Hz). specialize (Hall' z Hz). unfold R in Hy.
  congruence.
Qed.

Lemma stable_argsort_sorted (keys : list K) :
  StronglySorted (key_le leb keys) (stable_argsort leb keys).
Proof.
  unfold stable_argsort. apply sorted_pairs_key_le.
  - eapply Permutation_Forall; [symmetry; apply isort_keys_perm|].
    apply Forall_forall. intros [i k] Hin.
    apply combine_seq_lookup in Hin as [_ Hn].
    now rewrite Nat.sub_0_r in Hn.
  - apply isort_keys_sorted.
Qed.

End StableArgsort.

#[export] Instance stable_ArgSort : ArgSort := {|
  argsort := @stable_argsort;
  argsort_perm := @stable_argsort_perm;
  argsort_sorted := fun K leb keys Htot Htr =>
                      @stable_argsort_sorted K leb Htot Htr keys
|}.

(** ** A single candidate ([propsisot], lines 282-291) *)

Lemma search_radius_single {T} (self : Data T) (params : Params T) (m : Z) :
  mai self = [m] ->
  search_radius self params 0
  = Ok (py_min (RInt (m - 1))
               [RArr (Z.of_nat (List.length (spectrum self)) - m - 1);
                RInt (prangemax params)]).
Proof.
  intros Hm. unfold search_radius. rewrite Hm. reflexivity.
Qed.

(** C10 (as amended): with exactly one candidate [m] the radius expression
    raises nothing.  Subtracting an element of the index array from the shape
    tuple broadcasts to a one-element array, and the radius is Python's [min]
    of [mai[0]-1], that array and [prangemax].  The assembler is then called
    for the candidate: its Peak, if it returns one, is the only entry of the
    mapping; the mapping is empty, with a ['propsisot'] entry in the sink,
    only when the assembler itself raises. *)
Theorem propsisot_single_candidate {T} {NT : Number T} {AS : ArgSort}
        (B : Basics T) (self : Data T) (params : Params T)
        (setx : list (Z * (T * T))) (err : sink) (m : Z) :
  mai self = [m] ->
  let r := py_min (RInt (m - 1))
                  [RArr (Z.of_nat (List.length (spectrum self)) - m - 1);
                   RInt (prangemax params)] in
  search_radius self params 0 = Ok r /\
  radius_val r
  = Z.min (m - 1)
          (Z.min (Z.of_nat (List.length (spectrum self)) - m - 1)
                 (prangemax params)) /\
  propsisot B self params setx err
  = match computepeak B self 0 r params (dict_get setx 0) err with
    | (Ok pk, err') => (sorting [(0%Z, pk)], err')
    | (Raise e, err') => ([], err_add e "propsisot" (fullname self) 0 err')
    end.
Proof.
  intros Hm r. split; [exact (search_radius_single self params m Hm)|].
  split.
  - subst r. rewrite py_min_val. cbn. lia.
  - unfold propsisot. rewrite Hm. cbn [List.length Z.of_nat].
    change (range 0 (Z.pos (Pos.of_succ_nat 0)) 1) with [0%Z].
    cbn [candidates]. unfold candidate, mbind, lift.
    rewrite (search_radius_single self params m Hm). fold r.
    destruct (computepeak B self 0 r params (dict_get setx 0) err) as [[pk|e] err'];
      reflexivity.
Qed.

(** The 12-sample spectrum with its one candidate at index 5: the radius is
    [min(4, [6], 100) = 4] and the mapping holds the candidate's Peak. *)
Lemma propsisot_single_candidate_witness :
  search_radius one_peak params_q 0 = Ok (RInt 4) /\
  radius_val (RInt 4) = 4%Z /\
  propsisot (AS := stable_ArgSort) basics_q one_peak params_q [] []
  = match computepeak basics_q one_peak 0 (RInt 4) params_q None [] with
    | (Ok pk, err') => (sorting [(0%Z, pk)], err')
    | (Raise e, err') => ([], err_add e "propsisot" "Ta-181" 0 err')
    end.
Proof.
  exact (propsisot_single_candidate basics_q one_peak params_q [] [] 5
           eq_refl).
Defined.

(** C10 (as stated) fails: for the spectrum with one candidate no [TypeError]
    is raised, nothing is written to the sink and the returned mapping has
    the key 0. *)
Lemma single_candidate_gets_a_peak :
  search_radius one_peak params_q 0 = Ok (RInt 4) /\
  map fst (fst (propsisot (AS := stable_ArgSort)
                          basics_q one_peak params_q [] [])) = [0%Z] /\
  snd (propsisot (AS := stable_ArgSort) basics_q one_peak params_q [] []) = [].
Proof.
  vm_compute. repeat split.
Qed.

(** ** The Peak Assembler ([computepeak]) *)

Section Assembler.

Context {T : Type} {NT : Number T}.
Variable B : Basics T.

Lemma peak_info_sentinel (self : Data T) (peakpos : Z) (prange : radius)
      (c : T) (coords coords_tof : T * T) (icenter : Z) (ct : T)
      (bnd : Bounds T) (ue : bool) (info : Peak T) :
  peak_info B self peakpos prange c coords coords_tof icenter ct bnd ue
  = Ok info ->
  is_sentinel (xlims info) = true ->
  width info = of_Z (-1) /\ height info = of_Z (-1) /\
  fwhm info = of_Z 0 /\ integral info = of_Z 0 /\ integral_tof info = of_Z 0.
Proof.
  unfold peak_info.
  destruct (is_sentinel (b_xlims bnd)) eqn:E; cbn [negb bind].
  - intros [= <-] _. cbn. unfold zero. repeat split.
  - intros H Hs. exfalso.
    repeat match type of H with
           | bind ?x _ = _ => destruct x; cbn [bind] in H; [|discriminate H]
           end.
    injection H as <-. cbn in Hs. congruence.
Qed.

(** The tuple [info] is bound exactly when lines 154-211 raised nothing. *)
Lemma computepeak_Ok (self : Data T) (peakpos : Z) (prange : radius)
      (params : Params T) (setx : option (T * T)) (err err' : sink)
      (pk : Peak T) :
  computepeak B self peakpos prange params setx err = (Ok pk, err') ->
  computepeak_info B self peakpos prange params setx err = (Ok pk, err') /\
  Peak_init B pk = Ok pk.
Proof.
  unfold computepeak.
  destruct (computepeak_info B self peakpos prange params setx err)
    as [[info|e] err1].
  - unfold try_except, return_Peak, lift, Peak_init.
    destruct (negb (info_length =? peakattr_size B)%nat); [discriminate|].
    now intros [= <- <-].
  - unfold return_Peak, raise. discriminate.
Qed.

(** An exception raised before [info] is bound is logged with index [-1];
    the handler's [return Peak(info)] then raises [UnboundLocalError]. *)
Lemma computepeak_exception_escapes (self : Data T) (peakpos : Z)
      (prange : radius) (params : Params T) (setx : option (T * T))
      (err err1 : sink) (e : exn) :
  computepeak_info B self peakpos prange params setx err = (Raise e, err1) ->
  computepeak B self peakpos prange params setx err
  = (Raise UnboundLocalError,
     err_add e "computepeak" (fullname self) (-1) err1).
Proof.
  intros H. unfold computepeak. now rewrite H.
Qed.

(** C3: a Peak that [computepeak] returns with boundary pair [(0., 0.)] has
    width -1, height -1, fwhm 0 and integral 0 in both domains. *)
Theorem computepeak_sentinel_consistent (self : Data T) (peakpos : Z)
        (prange : radius) (params : Params T) (setx : option (T * T))
        (err err' : sink) (pk : Peak T) :
  computepeak B self peakpos prange params setx err = (Ok pk, err') ->
  is_sentinel (xlims pk) = true ->
  width pk = of_Z (-1) /\ height pk = of_Z (-1) /\
  fwhm pk = of_Z 0 /\ integral pk = of_Z 0 /\ integral_tof pk = of_Z 0.
Proof.
  intros H Hs. apply computepeak_Ok in H as [H _].
  unfold computepeak_info, mbind, lift, ret in H.
  repeat match type of H with
         | context [match ?x with _ => _ end] =>
             destruct x eqn:?; try discriminate H
         end.
  injection H as H _.
  eapply peak_info_sentinel; eassumption.
Qed.

End Assembler.

(** On the flat spectrum no boundary is found, and the Peak holds the
    sentinels. *)
Lemma computepeak_sentinel_consistent_witness :
  exists pk err',
    computepeak basics_q flat 0 (RInt 4) params_q None [] = (Ok pk, err') /\
    is_sentinel (xlims pk) = true /\
    width pk = of_Z (-1) /\ height pk = of_Z (-1) /\
    fwhm pk = of_Z 0 /\ integral pk = of_Z 0 /\ integral_tof pk = of_Z 0.
Proof.
  destruct (computepeak basics_q flat 0 (RInt 4) params_q None [])
    as [[pk|e] err'] eqn:E; [|vm_compute in E; discriminate E].
  exists pk, err'.
  assert (Hs : is_sentinel (xlims pk) = true).
  { vm_compute in E. injection E as <- _. reflexivity. }
  split; [reflexivity|]. split; [exact Hs|].
  exact (computepeak_sentinel_consistent basics_q flat 0 (RInt 4) params_q
           None [] err' pk E Hs).
Defined.

(** C4 fails on the code: asking for candidate 3 of a spectrum that has one
    makes line 154 raise [IndexError]; the handler logs it and then raises
    [UnboundLocalError] instead of returning a Peak. *)
Lemma computepeak_raises_instead_of_sentinel :
  computepeak basics_q one_peak 3 (RInt 4) params_q None []
  = (Raise UnboundLocalError,
     [Entry IndexError "computepeak" "Ta-181" (-1)]).
Proof.
  vm_compute. reflexivity.
Qed.

(** ** The Boundary Detector ([definepeak]) *)

Section Detector.

Context {T : Type} {NT : Number T}.

Variables (self : Data T) (params : Params T) (prange sign : Z) (os : T).

Lemma scan_arm (i : Z) (rest : list Z) (a b : T) :
  getitem (sder self) (i + sign) = Ok a -> getitem (sder self) i = Ok b ->
  arming sign a b = true -> (b == os)%num = false ->
  scan self params prange sign os (i :: rest) None
  = scan self params prange sign os (i :: rest) (Some b).
Proof.
  intros Ha Hb Harm Hos. cbn [scan]. rewrite Ha, Hb. cbn [bind].
  unfold arming in Harm. rewrite Harm, Hos. reflexivity.
Qed.

Lemma scan_skip_unarmed (pre rest : list Z) :
  Forall (no_arm self sign) pre ->
  scan self params prange sign os (pre ++ rest) None
  = scan self params prange sign os rest None.
Proof.
  induction 1 as [|k pre (a & b & Ha & Hb & Harm) _ IH]; [reflexivity|].
  cbn [app scan]. rewrite Ha, Hb. cbn [bind].
  unfold arming in Harm. rewrite Harm. cbn [bind]. exact IH.
Qed.

Lemma scan_non_standing (pre post : list Z) (i : Z) :
  Forall (no_arm self sign) pre -> arms_on_outer_slope self sign os i ->
  scan self params prange sign os (pre ++ i :: post) None
  = Raise (Exception_ "Non-standing slope" prange).
Proof.
  intros Hpre (a & b & Ha & Hb & Harm & Hos).
  rewrite scan_skip_unarmed by exact Hpre.
  cbn [scan]. rewrite Ha, Hb. cbn [bind].
  unfold arming in Harm. rewrite Harm, Hos. reflexivity.
Qed.

Lemma scan_skip_armed (dm : T) (pre rest : list Z) :
  Forall (no_stop self params sign os dm) pre ->
  scan self params prange sign os (pre ++ rest) (Some dm)
  = scan self params prange sign os rest (Some dm).
Proof.
  induction 1 as [|k pre (a & b & d & Ha & Hb & Hd & Hdec & Hsgn) _ IH];
    [reflexivity|].
  cbn [app scan]. rewrite Ha, Hb. cbn [bind]. rewrite Hd. cbn [bind].
  rewrite Hdec, Hsgn. exact IH.
Qed.

(** C7 (as amended): once the lock is armed with [dermax] (which happens on
    the arming sample itself, whose stop tests run in the same step), the scan
    stops with reason 1 at the first sample whose unsmoothed derivative [d]
    passes the decay test [abs((d - outerslope)/(dermax - outerslope)) <=
    slopedrop], whatever the sign test says there; it stops with reason 2 at
    a sample only if the decay test fails there and the sign test holds. *)
Theorem scan_decay_stop_first (dm : T) (pre post : list Z) (i : Z)
        (a b d x : T) :
  Forall (no_stop self params sign os dm) pre ->
  getitem (sder self) (i + sign) = Ok a -> getitem (sder self) i = Ok b ->
  getitem (der self) i = Ok d -> getitem (row0 (spectrum self)) i = Ok x ->
  (arming sign a b = true -> (b == os)%num = false ->
   scan self params prange sign os (i :: post) None
   = scan self params prange sign os (i :: post) (Some b)) /\
  (decay_stop params os dm d = true ->
   scan self params prange sign os (pre ++ i :: post) (Some dm)
   = Ok (Some (1%Z, i, x))) /\
  (decay_stop params os dm d = false -> sign_stop a b = true ->
   scan self params prange sign os (pre ++ i :: post) (Some dm)
   = Ok (Some (2%Z, i, x))).
Proof.
  intros Hpre Ha Hb Hd Hx. split; [|split].
  - intros Harm Hos. now apply scan_arm with (a := a).
  - intros Hdec. rewrite scan_skip_armed by exact Hpre.
    cbn [scan]. rewrite Ha, Hb. cbn [bind]. rewrite Hd. cbn [bind].
    rewrite Hdec, Hx. reflexivity.
  - intros Hdec Hsgn. rewrite scan_skip_armed by exact Hpre.
    cbn [scan]. rewrite Ha, Hb. cbn [bind]. rewrite Hd. cbn [bind].
    rewrite Hdec, Hsgn, Hx. reflexivity.
Qed.

End Detector.

(** Over the rationals the decay test reads: the distance that is left to the
    outer slope is at most the fraction [slopedrop] of the distance at
    arming. *)
Lemma decay_stop_Q (params : Params Q) (os dm d : Q) :
  ~ dm == os ->
  decay_stop params os dm d = true <->
  Qabs (d - os) <= slopedrop params * Qabs (dm - os).
Proof.
  intros Hne. unfold decay_stop. cbn [nleb nabs ndiv nsub Q_Number].
  rewrite Qle_bool_iff.
  assert (Hpos : 0 < Qabs (dm - os)).
  { destruct (Qle_lt_or_eq _ _ (Qabs_nonneg (dm - os))) as [H|H]; [exact H|].
    exfalso. apply Hne.
    assert (Hle : Qabs (dm - os) <= 0) by (rewrite <- H; apply Qle_refl).
    apply Qabs_Qle_condition in Hle as [H1 H2]. lra. }
  unfold Qdiv. rewrite Qabs_Qmult, Qabs_Qinv.
  split; intros H.
  - apply (proj2 (Qmult_le_r _ _ _ Hpos)) in H.
    setoid_replace (Qabs (d - os) * / Qabs (dm - os) * Qabs (dm - os))
      with (Qabs (d - os)) in H by (field; lra).
    exact H.
  - change (Qabs (d - os) / Qabs (dm - os) <= slopedrop params).
    apply Qle_shift_div_r; [exact Hpos|exact H].
Qed.

(** The right-hand scan of the 12-sample peak, armed at index 6 on the
    derivative -8: samples 6 and 7 pass no test, sample 8 passes the decay
    test ([|-1| / |-8| <= 1/4]) and is the boundary, with reason 1. *)
Lemma scan_decay_stop_first_witness :
  scan one_peak params_q 5 1 0 [6; 7; 8; 9; 10]%Z (Some (inject_Z (-8)))
  = Ok (Some (1%Z, 8%Z, inject_Z 8)).
Proof.
  refine (proj1 (proj2 (scan_decay_stop_first one_peak params_q 5 1 0
                          (inject_Z (-8)) [6; 7]%Z [9; 10]%Z 8
                          (inject_Z 0) (inject_Z (-1)) (inject_Z (-1))
                          (inject_Z 8) _ _ _ _ _)) _).
  - repeat constructor.
    + exists (inject_Z (-4)), (inject_Z (-8)), (inject_Z (-8)).
      repeat split.
    + exists (inject_Z (-1)), (inject_Z (-4)), (inject_Z (-4)).
      repeat split.
  - reflexivity.
  - reflexivity.
  - reflexivity.
  - reflexivity.
  - reflexivity.
Defined.

(** C7 (as stated) fails.  Scanning right from the centre 5, the lock is
    armed at sample 6 on [dermax = -8] (the outer slope is 0, [slopedrop] is
    1/4).  At sample 7 the unsmoothed derivative is -4: it has moved half of
    the way from [dermax] to the outer slope, more than the fraction
    [slopedrop], and it is the first armed sample to have done so; yet the
    decay stop does not fire there, the scan goes on and stops at sample 8. *)
Lemma decay_stop_is_not_the_moved_fraction :
  no_arm one_peak 1 5 /\
  getitem (sder one_peak) 6 = Ok (inject_Z (-8)) /\
  getitem (sder one_peak) 7 = Ok (inject_Z (-4)) /\
  arming 1 (inject_Z (-4)) (inject_Z (-8)) = true /\
  getitem (der one_peak) 6 = Ok (inject_Z (-8)) /\
  getitem (der one_peak) 7 = Ok (inject_Z (-4)) /\
  Qle_bool (slopedrop params_q)
           (moved_fraction 0 (inject_Z (-8)) (inject_Z (-8))) = false /\
  Qle_bool (slopedrop params_q)
           (moved_fraction 0 (inject_Z (-8)) (inject_Z (-4))) = true /\
  decay_stop params_q 0 (inject_Z (-8)) (inject_Z (-4)) = false /\
  scan one_peak params_q 5 1 0 (range 5 (5 + 1 * (5 + 1)) 1) None
  = Ok (Some (1%Z, 8%Z, inject_Z 8)).
Proof.
  split.
  - exists (inject_Z (-8)), (inject_Z (-3)). repeat split.
  - vm_compute. repeat split.
Qed.

(** Whatever the [try] block of [definepeak] raises is recorded under
    ['definepeak'], the entity name and the candidate index, and the
    all-zero result is returned. *)
Lemma definepeak_caught {T} {NT : Number T} (B : Basics T) (self : Data T)
      (npeak : Z) (prange : radius) (params : Params T) (err : sink)
      (e : exn) :
  definepeak_try B self npeak prange params = Raise e ->
  definepeak B self npeak prange params err
  = (Ok sentinel_bounds, err ++ [Entry e "definepeak" (fullname self) npeak]).
Proof.
  intros H. unfold definepeak, try_except, lift. now rewrite H.
Qed.

(** C8: when a scan runs through its [prange+1] samples without a stop (so
    that fewer than two boundaries exist), or the two boundary x-values are
    equal, or a lock closes on a derivative equal to the outer slope,
    [definepeak] returns [((0.,0.), (0,0), (0.,0.), (0,0))] and the sink
    receives one entry tagged ['definepeak'], the entity name and the
    candidate index. *)
Theorem definepeak_failure {T} {NT : Number T} (B : Basics T) (self : Data T)
        (npeak p : Z) (params : Params T) (err : sink)
        (centre : Z) (os bw : T) :
  getitem (mai self) npeak = Ok centre ->
  outer_slope B (slice (sder self) (centre - p) (centre + p + 1)) params
  = Ok (os, bw) ->
  (exists l r,
     scan self params p (-1) os
          (range centre (centre + (-1) * (p + 1)) (-1)) None = Ok l /\
     scan self params p 1 os
          (range centre (centre + 1 * (p + 1)) 1) None = Ok r /\
     (l = None \/ r = None))
  \/ (exists r0 i0 x0 r1 i1 x1,
        scans self params centre p os = Ok [(r0, i0, x0); (r1, i1, x1)] /\
        (x0 == x1)%num = true)
  \/ (exists pre i post,
        range centre (centre + (-1) * (p + 1)) (-1) = pre ++ i :: post /\
        Forall (no_arm self (-1)) pre /\ arms_on_outer_slope self (-1) os i)
  \/ (exists l pre i post,
        scan self params p (-1) os
             (range centre (centre + (-1) * (p + 1)) (-1)) None = Ok l /\
        range centre (centre + 1 * (p + 1)) 1 = pre ++ i :: post /\
        Forall (no_arm self 1) pre /\ arms_on_outer_slope self 1 os i) ->
  exists e,
    definepeak B self npeak (RInt p) params err
    = (Ok sentinel_bounds,
       err ++ [Entry e "definepeak" (fullname self) npeak]).
Proof.
  intros Hc Hos Hcase.
  assert (Htry : definepeak_try B self npeak (RInt p) params
                 = bind (scans self params centre p os)
                        (fun outp => bounds_of p os bw outp)).
  { unfold definepeak_try. rewrite Hc. cbn [bind]. rewrite Hos.
    reflexivity. }
  destruct Hcase as [(l & r & Hl & Hr & Hnone)
                    |[(r0 & i0 & x0 & r1 & i1 & x1 & Hs & Hx)
                    |[(pre & i & post & Hrange & Hpre & Harm)
                     |(l & pre & i & post & Hl & Hrange & Hpre & Harm)]]].
  - exists (Exception_ "Unable to Define Peak" p).
    apply definepeak_caught. rewrite Htry. unfold scans.
    rewrite Hl, Hr. cbn [bind].
    destruct Hnone as [-> | ->].
    + destruct r as [[[? ?] ?]|]; reflexivity.
    + destruct l as [[[? ?] ?]|]; reflexivity.
  - exists (Exception_ "Zero-width peak" p).
    apply definepeak_caught. rewrite Htry, Hs. cbn [bind bounds_of].
    now rewrite Hx.
  - exists (Exception_ "Non-standing slope" p).
    apply definepeak_caught. rewrite Htry. unfold scans.
    rewrite Hrange, (scan_non_standing self params p (-1) os pre post i Hpre Harm).
    reflexivity.
  - exists (Exception_ "Non-standing slope" p).
    apply definepeak_caught. rewrite Htry. unfold scans.
    rewrite Hl. cbn [bind].
    rewrite Hrange, (scan_non_standing self params p 1 os pre post i Hpre Harm).
    reflexivity.
Qed.

(** On the flat spectrum both scans run to the end of their range. *)
Lemma definepeak_failure_witness :
  exists e,
    definepeak basics_q flat 0 (RInt 4) params_q []
    = (Ok sentinel_bounds, [] ++ [Entry e "definepeak" "flat" 0]).
Proof.
  refine (definepeak_failure basics_q flat 0 4 params_q [] 5 0 1 _ _ _).
  - reflexivity.
  - vm_compute. reflexivity.
  - left. exists None, None. repeat split. now left.
Defined.

(** ** The Extrema Locator ([maxima], [minima]) *)

(** [minima] never reads its argument [smoothing]. *)
Lemma minima_ignores_smoothing {T} {NT : Number T} (B : Basics T)
      (arr : array2 T) (xbounds : option (T * T)) (ybounds : option T)
      (s s' : Z) :
  minima B arr xbounds ybounds s = minima B arr xbounds ybounds s'.
Proof. reflexivity. Qed.

(** C9 fails on the code: [maxima] with [smoothing=1] is [maxima] of the
    smoothed array, but [minima] with [smoothing=1] returns the minima of the
    raw array (indices 1, 3, 5), not those of the smoothed one (2, 4). *)
Lemma minima_skips_smoothing :
  maxima basics_q noisy_xy None None 1
  = bind (Smooth_q noisy_xy 1) (fun a => maxima basics_q a None None 0) /\
  minima basics_q noisy_xy None None 1 = minima basics_q noisy_xy None None 0 /\
  bind (minima basics_q noisy_xy None None 1) (fun r => Ok (snd r))
  = Ok [1; 3; 5]%Z /\
  bind (Smooth_q noisy_xy 1)
       (fun a => bind (minima basics_q a None None 0) (fun r => Ok (snd r)))
  = Ok [2; 4]%Z.
Proof.
  vm_compute. repeat split.
Qed.

(** ** The Integrator ([Integrate]) *)

(** Unfolds the operations of [Number] at the rationals. *)
Ltac qnum := cbn [of_Z half nadd nsub nmul ndiv nneg nabs neqb nltb nleb Q_Number] in *.

Section IntegrateQ.

Variables a b : Q.

#[export] Instance simpson_term_Proper :
  Proper (Qeq ==> Qeq ==> Qeq ==> Qeq ==> Qeq ==> Qeq) (@simpson_term Q _).
Proof.
  intros y0 y0' E0 y1 y1' E1 y2 y2' E2 h0 h0' F0 h1 h1' F1.
  unfold simpson_term. qnum. now rewrite E0, E1, E2, F0, F1.
Qed.

Lemma simpson_term_linear (x0 x1 x2 : Q) :
  x0 < x1 -> x1 < x2 ->
  simpson_term (a * x0 + b) (a * x1 + b) (a * x2 + b) (x1 - x0) (x2 - x1)
  == antiderivative a b x2 - antiderivative a b x0.
Proof.
  intros H0 H1. unfold simpson_term, antiderivative, zero. qnum.
  change (inject_Z 6) with 6. change (inject_Z 2) with 2. change (inject_Z 1) with 1.
  field. repeat split; lra.
Qed.

End IntegrateQ.

Lemma slice_nat {A} (l : list A) (s c : nat) :
  (s <= c)%nat -> (c <= List.length l)%nat ->
  slice l (Z.of_nat s) (Z.of_nat c) = firstn (c - s) (skipn s l).
Proof.
  intros Hs Hc. unfold slice, clamp.
  destruct (Z.ltb_spec (Z.of_nat s) 0); [lia|].
  destruct (Z.ltb_spec (Z.of_nat c) 0); [lia|].
  rewrite !Z.min_l by lia.
  rewrite Nat2Z.id. f_equal. lia.
Qed.

Lemma nth_skipn_add {A} (l : list A) (s k : nat) (d : A) :
  nth k (skipn s l) d = nth (s + k) l d.
Proof.
  revert l. induction s as [|s IH]; intros l; [reflexivity|].
  destruct l as [|x l]; cbn; [now destruct k|]. apply IH.
Qed.

Lemma every2_firstn {A} (m : nat) (L : list A) (d : A) :
  (2 * m - 1 <= List.length L)%nat ->
  every2 (firstn (2 * m - 1) L) = map (fun j => nth (2 * j) L d) (seq 0 m).
Proof.
  revert L. induction m as [|m IH]; intros L HL; [reflexivity|].
  destruct m as [|m].
  - destruct L as [|e0 L]; [cbn in HL; lia|]. reflexivity.
  - destruct L as [|e0 [|e1 L]]; cbn [List.length] in HL; try lia.
    replace (2 * S (S m) - 1)%nat with (S (S (2 * S m - 1))) by lia.
    cbn [firstn every2]. rewrite (IH L) by lia.
    change (seq 0 (S (S m))) with (0%nat :: seq 1 (S m)).
    rewrite <- (seq_shift (S m) 0), map_cons, map_map.
    f_equal. apply map_ext. intros j.
    replace (2 * S j)%nat with (S (S (2 * j))) by lia. reflexivity.
Qed.

Lemma slice2_nth {A} (l : list A) (s m : nat) (d : A) :
  (1 <= m)%nat -> (s + 2 * m - 1 <= List.length l)%nat ->
  slice2 l (Z.of_nat s) (Z.of_nat (s + 2 * m - 1))
  = map (fun j => nth (s + 2 * j) l d) (seq 0 m).
Proof.
  intros Hm Hl. unfold slice2. rewrite slice_nat by lia.
  replace (s + 2 * m - 1 - s)%nat with (2 * m - 1)%nat by lia.
  rewrite (every2_firstn m _ d) by (rewrite length_skipn; lia).
  apply map_ext. intros j. apply nth_skipn_add.
Qed.

Lemma simpson_terms_map {T} {NT : Number T} {I} (f0 f1 f2 g0 g1 : I -> T) (s : list I) :
  simpson_terms (map f0 s) (map f1 s) (map f2 s) (map g0 s) (map g1 s)
  = map (fun j => simpson_term (f0 j) (f1 j) (f2 j) (g0 j) (g1 j)) s.
Proof.
  induction s as [|j s IH]; cbn; [reflexivity|]. now rewrite IH.
Qed.

Lemma length_np_diff {T} {NT : Number T} (x : list T) :
  List.length (np_diff x) = (List.length x - 1)%nat.
Proof.
  induction x as [|a [|b x] IH]; cbn in *; try reflexivity.
  rewrite IH. lia.
Qed.

Lemma nth_np_diff {T} {NT : Number T} (x : list T) (i : nat) (d : T) :
  (i + 1 < List.length x)%nat ->
  nth i (np_diff x) d = (nth (i + 1) x d - nth i x d)%num.
Proof.
  revert i. induction x as [|a [|b x] IH]; intros i Hi; cbn in Hi; try lia.
  destruct i as [|i]; [reflexivity|].
  change (np_diff (a :: b :: x)) with ((b - a)%num :: np_diff (b :: x)).
  cbn [nth Nat.add]. apply IH. cbn. lia.
Qed.

Lemma fold_left_Qplus (r : list Q) (q : Q) : fold_left Qplus r q == q + qsum r.
Proof.
  revert q. induction r as [|x r IH]; intros q; cbn [fold_left].
  - unfold qsum; cbn [fold_right]. ring.
  - rewrite IH. unfold qsum; cbn [fold_right]. ring.
Qed.

Lemma np_sum_qsum (l : list Q) : np_sum l == qsum l.
Proof.
  destruct l as [|x l]; [reflexivity|].
  unfold np_sum. change (fold_left nadd l x) with (fold_left Qplus l x).
  rewrite fold_left_Qplus. reflexivity.
Qed.

Lemma qsum_map_ext {I} (f g : I -> Q) (l : list I) :
  (forall j, In j l -> f j == g j) -> qsum (map f l) == qsum (map g l).
Proof.
  induction l as [|j l IH]; intros H; [reflexivity|].
  cbn [map]. unfold qsum; cbn [fold_right]. fold (qsum (map f l)) (qsum (map g l)).
  rewrite (H j) by now left. rewrite IH; [reflexivity|].
  intros; apply H; now right.
Qed.

Lemma qsum_telescope (G : nat -> Q) (k m : nat) :
  qsum (map (fun j => G (S j) - G j) (seq k m)) == G (k + m)%nat - G k.
Proof.
  revert k. induction m as [|m IH]; intros k.
  - cbn [seq map]. unfold qsum; cbn [fold_right]. rewrite Nat.add_0_r. ring.
  - cbn [seq map]. unfold qsum; cbn [fold_right].
    fold (qsum (map (fun j => G (S j) - G j) (seq (S k) m))).
    rewrite IH. replace (S k + m)%nat with (k + S m)%nat by lia. ring.
Qed.

Section Linear.

Variables a b : Q.
Variables xs ys : list Q.
Hypothesis Hlen : List.length xs = List.length ys.
Hypothesis Hlin :
  forall k, (k < List.length xs)%nat -> nth k ys 0 == a * nth k xs 0 + b.
Hypothesis Hinc :
  forall k, (k + 1 < List.length xs)%nat -> nth k xs 0 < nth (k + 1) xs 0.

Let F := antiderivative a b.
Let X (k : nat) : Q := nth k xs 0.

Lemma basic_simps_linear (s m : nat) :
  (1 <= m)%nat -> (s + 2 * m + 1 <= List.length xs)%nat ->
  basic_simps ys (Z.of_nat s) (Z.of_nat (s + 2 * m) - 1) xs
  == F (X (s + 2 * m)) - F (X s).
Proof.
  intros Hm Hn. unfold basic_simps.
  replace (Z.of_nat (s + 2 * m) - 1)%Z with (Z.of_nat (s + 2 * m - 1)) by lia.
  replace (Z.of_nat s + 1)%Z with (Z.of_nat (s + 1)) by lia.
  replace (Z.of_nat s + 2)%Z with (Z.of_nat (s + 2)) by lia.
  replace (Z.of_nat (s + 2 * m - 1) + 1)%Z
    with (Z.of_nat (s + 1 + 2 * m - 1)) by lia.
  replace (Z.of_nat (s + 2 * m - 1) + 2)%Z
    with (Z.of_nat (s + 2 + 2 * m - 1)) by lia.
  rewrite !(fun l s' => @slice2_nth Q l s' m 0 Hm)
    by (rewrite ?length_np_diff; lia).
  rewrite simpson_terms_map, np_sum_qsum.
  rewrite (qsum_map_ext _ (fun j => F (X (s + 2 * S j)) - F (X (s + 2 * j)))).
  - rewrite (qsum_telescope (fun j => F (X (s + 2 * j))) 0 m).
    rewrite Nat.mul_0_r, Nat.add_0_r. reflexivity.
  - intros j Hj. apply in_seq in Hj.
    rewrite !nth_np_diff by lia. qnum.
    replace (s + 2 * j + 1)%nat with (s + 1 + 2 * j)%nat by lia.
    replace (s + 1 + 2 * j + 1)%nat with (s + 2 + 2 * j)%nat by lia.
    replace (s + 2 * S j)%nat with (s + 2 + 2 * j)%nat by lia.
    etransitivity.
    + apply simpson_term_Proper;
        [apply Hlin; lia | apply Hlin; lia | apply Hlin; lia
        | reflexivity | reflexivity].
    + apply simpson_term_linear.
      * specialize (Hinc (s + 2 * j)%nat).
        replace (s + 2 * j + 1)%nat with (s + 1 + 2 * j)%nat in Hinc by lia.
        apply Hinc. lia.
      * specialize (Hinc (s + 1 + 2 * j)%nat).
        replace (s + 1 + 2 * j + 1)%nat with (s + 2 + 2 * j)%nat in Hinc by lia.
        apply Hinc. lia.
Qed.


Lemma getitem_neg {A} (l : list A) (j : nat) (d : A) :
  (1 <= j <= List.length l)%nat ->
  getitem l (- Z.of_nat j) = Ok (nth (List.length l - j) l d).
Proof.
  intros Hj. unfold getitem, norm_index. cbv zeta.
  destruct (Z.leb_spec 0 (- Z.of_nat j)); [lia|]. cbn [andb].
  destruct (Z.leb_spec (- Z.of_nat (List.length l)) (- Z.of_nat j)); [|lia].
  destruct (Z.ltb_spec (- Z.of_nat j) 0); [|lia]. cbn [andb].
  replace (Z.to_nat (- Z.of_nat j + Z.of_nat (List.length l)))
    with (List.length l - j)%nat by lia.
  destruct (nth_error l (List.length l - j)) eqn:E.
  - now rewrite (nth_error_nth _ _ d E).
  - apply nth_error_None in E. lia.
Qed.

Lemma trapezoid_linear (x0 x1 y0 y1 : Q) :
  y0 == a * x0 + b -> y1 == a * x1 + b ->
  (1 # 2) * (x1 - x0) * (y1 + y0) == F x1 - F x0.
Proof.
  intros -> ->. unfold F, antiderivative. field.
Qed.

Lemma simps_linear :
  (2 <= List.length xs)%nat ->
  exists r, simps ys xs = Ok r /\
            r == F (X (List.length xs - 1)) - F (X 0).
Proof.
  intros Hn. unfold simps.
  rewrite Hlen, Nat.eqb_refl. cbn [negb].
  rewrite <- Hlen.
  destruct (Nat.Even_or_Odd (List.length xs)) as [[m Hm]|[m Hm]].
  - (* even number of samples *)
    replace (Z.of_nat (List.length xs) mod 2 =? 0)%Z with true
      by (symmetry; apply Z.eqb_eq; rewrite Hm, Nat2Z.inj_mul;
          rewrite Z.mul_comm; apply Z.mod_mul; lia).
    rewrite (getitem_neg xs 1 0 ltac:(lia) : getitem xs (-1) = _).
    rewrite (getitem_neg xs 2 0 ltac:(lia) : getitem xs (-2) = _).
    rewrite (getitem_neg ys 1 0 ltac:(lia) : getitem ys (-1) = _).
    rewrite (getitem_neg ys 2 0 ltac:(lia) : getitem ys (-2) = _).
    rewrite (getitem_nat xs 1 0 ltac:(lia) : getitem xs 1 = _).
    rewrite (getitem_nat xs 0 0 ltac:(lia) : getitem xs 0 = _).
    rewrite (getitem_nat ys 1 0 ltac:(lia) : getitem ys 1 = _).
    rewrite (getitem_nat ys 0 0 ltac:(lia) : getitem ys 0 = _).
    cbn [bind]. eexists; split; [reflexivity|].
    rewrite <- Hlen. qnum. unfold zero. qnum.
    change (inject_Z 0) with 0. change (inject_Z 2) with 2.
    pose proof (Hlin (List.length xs - 1)%nat ltac:(lia)) as Ya.
    pose proof (Hlin (List.length xs - 2)%nat ltac:(lia)) as Yb.
    pose proof (Hlin 1%nat ltac:(lia)) as Y1.
    pose proof (Hlin 0%nat ltac:(lia)) as Y0.
    rewrite Ya, Yb, Y1, Y0. clear Ya Yb Y1 Y0.
    destruct (Nat.eq_dec m 1) as [->|Hm1].
    + (* two samples: both Simpson sums are empty *)
      destruct xs as [|x0 [|x1 [|? ?]]]; cbn in Hm; try lia.
      destruct ys as [|y0 [|y1 [|? ?]]]; cbn in Hlen; try lia.
      unfold F, X, antiderivative. cbn [List.length Nat.sub nth].
      change (basic_simps [y0; y1] 0 (Z.of_nat 2 - 3) [x0; x1]) with 0.
      change (basic_simps [y0; y1] 1 (Z.of_nat 2 - 2) [x0; x1]) with 0.
      field.
    + assert (H1 := basic_simps_linear 0 (m - 1) ltac:(lia) ltac:(lia)).
      assert (H2 := basic_simps_linear 1 (m - 1) ltac:(lia) ltac:(lia)).
      replace (Z.of_nat (List.length xs) - 3)%Z
        with (Z.of_nat (0 + 2 * (m - 1)) - 1)%Z by lia.
      replace (Z.of_nat (List.length xs) - 2)%Z
        with (Z.of_nat (1 + 2 * (m - 1)) - 1)%Z by lia.
      change (Z.of_nat 0) with 0%Z in H1. change (Z.of_nat 1) with 1%Z in H2.
      rewrite H1, H2.
      replace (0 + 2 * (m - 1))%nat with (List.length xs - 2)%nat by lia.
      replace (1 + 2 * (m - 1))%nat with (List.length xs - 1)%nat by lia.
      unfold F, X, antiderivative. field.
  - (* odd number of samples *)
    replace (Z.of_nat (List.length xs) mod 2 =? 0)%Z with false.
    2:{ symmetry. apply Z.eqb_neq. rewrite Hm.
        rewrite Nat2Z.inj_add, Nat2Z.inj_mul, Z.add_comm, Z.mul_comm.
        rewrite Z.mod_add by lia. discriminate. }
    eexists; split; [reflexivity|].
    replace (Z.of_nat (List.length xs) - 2)%Z
      with (Z.of_nat (0 + 2 * m) - 1)%Z by lia.
    rewrite (basic_simps_linear 0 m ltac:(lia) ltac:(lia)
             : basic_simps ys 0 _ xs == _).
    replace (0 + 2 * m)%nat with (List.length xs - 1)%nat by lia.
    reflexivity.
Qed.

End Linear.

Lemma nth_firstn_lt {A} (l : list A) (n k : nat) (d : A) :
  (k < n)%nat -> nth k (firstn n l) d = nth k l d.
Proof.
  revert l k. induction n as [|n IH]; intros l k Hk; [lia|].
  destruct l as [|x l]; [reflexivity|].
  destruct k as [|k]; [reflexivity|]. cbn. apply IH. lia.
Qed.

Lemma nth_window {A} (l : list A) (i0 n k : nat) (d : A) :
  (k < n)%nat -> nth k (firstn n (skipn i0 l)) d = nth (i0 + k) l d.
Proof.
  intros Hk. rewrite nth_firstn_lt by exact Hk. apply nth_skipn_add.
Qed.

Lemma length_window {A} (l : list A) (i0 n : nat) :
  (i0 + n <= List.length l)%nat ->
  List.length (firstn n (skipn i0 l)) = n.
Proof.
  intros H. rewrite length_firstn, length_skipn. lia.
Qed.

(** C2 (as amended): in exact arithmetic, for boundaries [i0 < i1] inside a
    spectrum whose [x] increases strictly between them and whose [y] is
    [a*x + b] on all samples between them, [Integrate] returns 0. *)
Theorem Integrate_linear_exact (arr : array2 Q) (i0 i1 : nat) (a b : Q) :
  (i0 < i1)%nat -> (i1 < List.length arr)%nat ->
  (forall k, (i0 <= k <= i1)%nat ->
             snd (nth k arr (0, 0)) == a * fst (nth k arr (0, 0)) + b) ->
  (forall k, (i0 <= k < i1)%nat ->
             fst (nth k arr (0, 0)) < fst (nth (S k) arr (0, 0))) ->
  exists r, Integrate arr [Z.of_nat i0; Z.of_nat i1] = Ok r /\ r == 0.
Proof.
  intros H01 H1 Hlin Hinc.
  assert (Hx : forall k, nth k (row0 arr) 0 = fst (nth k arr (0, 0)))
    by (intros k; exact (map_nth fst arr (0, 0) k)).
  assert (Hy : forall k, nth k (row1 arr) 0 = snd (nth k arr (0, 0)))
    by (intros k; exact (map_nth snd arr (0, 0) k)).
  assert (Hl0 : List.length (row0 arr) = List.length arr) by apply length_map.
  assert (Hl1 : List.length (row1 arr) = List.length arr) by apply length_map.
  unfold Integrate.
  change (getitem [Z.of_nat i0; Z.of_nat i1] 0) with (Ok (Z.of_nat i0)).
  change (getitem [Z.of_nat i0; Z.of_nat i1] 1) with (Ok (Z.of_nat i1)).
  cbn [bind].
  replace (Z.of_nat i1 + 1)%Z with (Z.of_nat (i1 + 1)) by lia.
  rewrite (slice_nat (row0 arr) i0 (i1 + 1)) by lia.
  rewrite (slice_nat (row1 arr) i0 (i1 + 1)) by lia.
  set (n := (i1 + 1 - i0)%nat).
  assert (Hn : n = (i1 + 1 - i0)%nat) by reflexivity. clearbody n.
  set (xs := firstn n (skipn i0 (row0 arr))).
  set (ys := firstn n (skipn i0 (row1 arr))).
  assert (Lx : List.length xs = n) by (apply length_window; lia).
  assert (Ly : List.length ys = n) by (apply length_window; lia).
  destruct (simps_linear a b xs ys) as (r0 & Hr0 & Er0).
  - congruence.
  - intros k Hk. unfold xs, ys. rewrite !nth_window by lia.
    rewrite Hx, Hy. apply Hlin. lia.
  - intros k Hk. unfold xs. rewrite !nth_window by lia.
    rewrite !Hx. replace (i0 + (k + 1))%nat with (S (i0 + k)) by lia.
    apply Hinc. lia.
  - lia.
  - rewrite Hr0. cbn [bind].
    rewrite !(getitem_nat (row0 arr) _ 0) by lia.
    rewrite !(getitem_nat (row1 arr) _ 0) by lia.
    cbn [bind]. eexists; split; [reflexivity|].
    rewrite Er0, Lx. unfold xs. rewrite !nth_window by lia.
    rewrite !Hx, !Hy. qnum.
    replace (i0 + (n - 1))%nat with i1 by lia. rewrite Nat.add_0_r.
    rewrite (Hlin i1) by lia. rewrite (Hlin i0) by lia.
    unfold antiderivative. field.
Qed.

Lemma Integrate_linear_exact_witness :
  exists r, Integrate line_q [0; 3]%Z = Ok r /\ r == 0.
Proof.
  apply (Integrate_linear_exact line_q 0 3 2 0).
  - lia.
  - cbn. lia.
  - intros k Hk. destruct k as [|[|[|[|k]]]]; try lia; vm_compute; reflexivity.
  - intros k Hk. destruct k as [|[|[|k]]]; try lia; vm_compute; reflexivity.
Defined.

(** In binary64 the spec's example integrates to exactly 0 as well. *)
Lemma Integrate_line_f64 :
  Integrate line_f64 [0; 3]%Z = Ok 0%float.
Proof. vm_compute. reflexivity. Qed.

(** C2 (as stated) fails: in binary64, Simpson's weights for the unevenly
    spaced, exactly linear samples [(0,0), (2,2), (5,5)] give
    12.500000000000002, the trapezoid gives 12.5, and [Integrate] returns
    [2^-49], not 0. *)
Lemma Integrate_linear_not_exact_in_binary64 :
  Integrate uneven_f64 [0; 2]%Z = Ok 0x1p-49%float /\
  PrimFloat.eqb 0x1p-49 0 = false.
Proof. vm_compute. split; reflexivity. Qed.

(** ** Permutations of [0 .. N-1] *)

Lemma map_nth_seq {A} (l : list A) (d : A) :
  map (fun i => nth i l d) (seq 0 (List.length l)) = l.
Proof.
  induction l as [|x l IH]; [reflexivity|].
  cbn [List.length seq map nth]. f_equal.
  rewrite <- seq_shift, map_map. exact IH.
Qed.

Lemma map_nth_seq_comp {A} (f : nat -> A) (s : list nat) :
  map (fun i => f (nth i s 0%nat)) (seq 0 (List.length s)) = map f s.
Proof.
  rewrite <- (map_nth_seq s 0%nat) at 2. now rewrite map_map.
Qed.

Lemma perm_seq_lt (s : list nat) (N : nat) :
  Permutation s (seq 0 N) -> Forall (fun i => (i < N)%nat) s.
Proof.
  intros H. apply Forall_forall. intros i Hi.
  eapply Permutation_in in Hi; [|exact H]. apply in_seq in Hi. lia.
Qed.

Lemma perm_seq_NoDup (s : list nat) (N : nat) :
  Permutation s (seq 0 N) -> NoDup s.
Proof.
  intros H. eapply Permutation_NoDup; [symmetry; exact H|apply seq_NoDup].
Qed.

Lemma perm_seq_length (s : list nat) (N : nat) :
  Permutation s (seq 0 N) -> List.length s = N.
Proof.
  intros H. apply Permutation_length in H. now rewrite length_seq in H.
Qed.

Lemma perm_seq_nth_lt (s : list nat) (N i : nat) :
  Permutation s (seq 0 N) -> (i < N)%nat -> (nth i s 0 < N)%nat.
Proof.
  intros H Hi. pose proof (perm_seq_lt s N H) as Hall.
  rewrite Forall_forall in Hall. apply Hall, nth_In.
  now rewrite (perm_seq_length s N H).
Qed.

(** Looking a permutation of [0 .. N-1] up in another one gives a third. *)
Lemma perm_seq_compose (s r : list nat) (N : nat) :
  Permutation s (seq 0 N) -> Permutation r (seq 0 N) ->
  Permutation (map (fun i => nth i s 0%nat) r) (seq 0 N).
Proof.
  intros Hs Hr. etransitivity; [apply Permutation_map, Hr|].
  rewrite <- (perm_seq_length s N Hs), map_nth_seq.
  now rewrite (perm_seq_length s N Hs).
Qed.

(** ** Sorted lists *)

Lemma StronglySorted_perm_unique {A} (R : A -> A -> Prop) (l1 l2 : list A) :
  (forall x y, In x l1 -> In y l1 -> R x y -> R y x -> x = y) ->
  StronglySorted R l1 -> StronglySorted R l2 -> Permutation l1 l2 ->
  l1 = l2.
Proof.
  revert l2. induction l1 as [|a l1 IH]; intros l2 Hanti H1 H2 Hp.
  - now apply Permutation_nil in Hp.
  - destruct l2 as [|b l2];
      [apply Permutation_sym, Permutation_nil in Hp; discriminate|].
    apply StronglySorted_inv in H1 as [H1 Ha].
    apply StronglySorted_inv in H2 as [H2 Hb].
    rewrite Forall_forall in Ha, Hb.
    assert (a = b) as <-.
    { assert (Hin_a : In a (b :: l2))
        by (eapply Permutation_in; [exact Hp|now left]).
      assert (Hin_b : In b (a :: l1))
        by (eapply Permutation_in; [symmetry; exact Hp|now left]).
      destruct Hin_a as [E|Hin_a]; [now symmetry|].
      destruct Hin_b as [E|Hin_b]; [exact E|].
      apply Hanti; [now left|now right|now apply Ha|now apply Hb]. }
    f_equal. apply IH.
    + intros x y Hx Hy. apply Hanti; now right.
    + exact H1.
    + exact H2.
    + now apply Permutation_cons_inv in Hp.
Qed.

Lemma StronglySorted_map_In {A B} (R : A -> A -> Prop) (R' : B -> B -> Prop)
      (f : A -> B) (l : list A) :
  (forall x y, In x l -> In y l -> R x y -> R' (f x) (f y)) ->
  StronglySorted R l -> StronglySorted R' (map f l).
Proof.
  intros Himp H. induction H as [|x l Hl IH Hx]; cbn; [constructor|].
  constructor.
  - apply IH. intros; apply Himp; auto; now right.
  - apply Forall_map. rewrite Forall_forall in *. intros y Hy.
    apply Himp; [now left|now right|now apply Hx].
Qed.

Lemma StronglySorted_seq (s n : nat) : StronglySorted le (seq s n).
Proof.
  revert s. induction n as [|n IH]; intros s; cbn; constructor; [apply IH|].
  apply Forall_forall. intros i Hi. apply in_seq in Hi. lia.
Qed.


(** ** Ranking ([sorting]) *)

Lemma Nat_leb_total (a b : nat) : (a <=? b)%nat = true \/ (b <=? a)%nat = true.
Proof. rewrite !Nat.leb_le. lia. Qed.

Lemma Nat_leb_trans (a b c : nat) :
  (a <=? b)%nat = true -> (b <=? c)%nat = true -> (a <=? c)%nat = true.
Proof. rewrite !Nat.leb_le. lia. Qed.

Lemma Qle_bool_total (a b : Q) : Qle_bool a b = true \/ Qle_bool b a = true.
Proof.
  rewrite !Qle_bool_iff. destruct (Qlt_le_dec a b) as [H|H]; [left|right]; lra.
Qed.

Lemma Qle_bool_trans (a b c : Q) :
  Qle_bool a b = true -> Qle_bool b c = true -> Qle_bool a c = true.
Proof. rewrite !Qle_bool_iff. intros; lra. Qed.

Lemma key_le_nth {K} (leb : K -> K -> bool) (keys : list K) (d : K) (i j : nat) :
  (i < List.length keys)%nat -> (j < List.length keys)%nat ->
  key_le leb keys i j <-> leb (nth i keys d) (nth j keys d) = true.
Proof.
  intros Hi Hj. unfold key_le. split.
  - intros H. apply H; now apply nth_error_nth'.
  - intros H a b Ha Hb.
    now rewrite <- (nth_error_nth _ _ d Ha), <- (nth_error_nth _ _ d Hb).
Qed.

Section Ranking.

Context {AS : ArgSort}.

(** Sorting a permutation of [0 .. N-1] yields its inverse. *)
Lemma argsort_inverse (p : list nat) (N t : nat) :
  Permutation p (seq 0 N) -> (t < N)%nat ->
  nth (nth t (argsort Nat.leb p) 0%nat) p 0%nat = t.
Proof.
  intros Hp Ht.
  pose proof (perm_seq_length p N Hp) as Lp.
  pose proof (argsort_perm Nat.leb p) as Hr. rewrite Lp in Hr.
  set (r := argsort Nat.leb p) in *.
  assert (Hs : map (fun i => nth i p 0%nat) r = seq 0 N).
  { apply (StronglySorted_perm_unique le).
    - intros; lia.
    - apply (StronglySorted_map_In (key_le Nat.leb p)).
      + intros x y Hx Hy Hxy.
        apply (key_le_nth Nat.leb p 0%nat) in Hxy.
        * now apply Nat.leb_le.
        * rewrite Lp. eapply Permutation_in in Hx; [|exact Hr].
          apply in_seq in Hx. lia.
        * rewrite Lp. eapply Permutation_in in Hy; [|exact Hr].
          apply in_seq in Hy. lia.
      + apply argsort_sorted; [exact Nat_leb_total|exact Nat_leb_trans].
    - apply StronglySorted_seq.
    - now apply perm_seq_compose. }
  assert (E : nth t (map (fun i => nth i p 0%nat) r) (nth 0 p 0%nat) = t).
  { rewrite (nth_indep _ _ 0%nat) by (rewrite Hs, length_seq; lia).
    rewrite Hs, seq_nth; lia. }
  now rewrite (map_nth (fun i => nth i p 0%nat)) in E.
Qed.

Lemma argsort_inverse' (p : list nat) (N t : nat) :
  Permutation p (seq 0 N) -> (t < N)%nat ->
  nth (nth t p 0%nat) (argsort Nat.leb p) 0%nat = t.
Proof.
  intros Hp Ht.
  pose proof (perm_seq_length p N Hp) as Lp.
  pose proof (argsort_perm Nat.leb p) as Hr. rewrite Lp in Hr.
  pose proof (perm_seq_nth_lt p N t Hp Ht) as Hpt.
  pose proof (perm_seq_nth_lt _ N _ Hr Hpt) as Hrt.
  apply (proj1 (NoDup_nth p 0%nat) (perm_seq_NoDup p N Hp)); try lia.
  now apply (argsort_inverse p N).
Qed.

End Ranking.

Section RankingT.

Context {T : Type} {NT : Number T} {AS : ArgSort}.

Lemma nth_argsort_rows (k : nat) (peaks : list (Peak T)) :
  (k < 6)%nat ->
  nth k (argsort_rows (negated (metric_array peaks))) [] = sort_row k peaks.
Proof.
  intros Hk. do 6 (destruct k as [|k]; [reflexivity|]). lia.
Qed.

Lemma nth_rank_rows (k : nat) (peaks : list (Peak T)) :
  (k < 6)%nat ->
  nth k (rank_rows (negated (metric_array peaks))) [] = rank_row k peaks.
Proof.
  intros Hk. do 6 (destruct k as [|k]; [reflexivity|]). lia.
Qed.

Lemma sort_row_perm (k : nat) (peaks : list (Peak T)) :
  Permutation (sort_row k peaks) (seq 0 (List.length peaks)).
Proof.
  unfold sort_row.
  rewrite <- (length_map (metric k) peaks), <- (length_map nneg).
  apply argsort_perm.
Qed.

Lemma rank_row_perm (k : nat) (peaks : list (Peak T)) :
  Permutation (rank_row k peaks) (seq 0 (List.length peaks)).
Proof.
  unfold rank_row.
  rewrite <- (perm_seq_length _ _ (sort_row_perm k peaks)).
  apply argsort_perm.
Qed.

Lemma rank_field_set_ranks (k el : nat) (rk : list (list nat)) (p : Peak T) :
  (k < 6)%nat ->
  rank_field k (set_ranks rk el p) = Z.of_nat (nth el (nth k rk []) 0%nat).
Proof.
  intros Hk. do 6 (destruct k as [|k]; [reflexivity|]). lia.
Qed.

Lemma metric_set_ranks (k el : nat) (rk : list (list nat)) (p : Peak T) :
  metric k (set_ranks rk el p) = metric k p.
Proof.
  do 6 (destruct k as [|k]; [reflexivity|]). destruct k; reflexivity.
Qed.

Lemma set_ranks_again (rk rk' : list (list nat)) (el el' : nat) (p : Peak T) :
  (forall k, (k < 6)%nat ->
             nth el (nth k rk []) 0%nat = nth el' (nth k rk' []) 0%nat) ->
  set_ranks rk el (set_ranks rk' el' p) = set_ranks rk' el' p.
Proof.
  intros H. unfold set_ranks. cbn.
  rewrite (H 0%nat), (H 1%nat), (H 2%nat), (H 3%nat), (H 4%nat), (H 5%nat)
    by lia.
  reflexivity.
Qed.

Lemma nth_map_combine_seq {A B} (g : nat -> A -> B) (l : list A) (s i : nat)
      (d : B) (d' : A) :
  (i < List.length l)%nat ->
  nth i (map (fun ep => g (fst ep) (snd ep))
             (combine (seq s (List.length l)) l)) d
  = g (s + i)%nat (nth i l d').
Proof.
  revert s i. induction l as [|x l IH]; intros s i Hi; cbn in Hi; [lia|].
  destruct i as [|i]; cbn.
  - now rewrite Nat.add_0_r.
  - rewrite IH by lia. f_equal. lia.
Qed.

Lemma length_ranked (peaks : list (Peak T)) :
  List.length (ranked peaks) = List.length peaks.
Proof.
  unfold ranked. rewrite length_map, length_combine, length_seq. lia.
Qed.

Lemma nth_ranked (peaks : list (Peak T)) (i : nat) (d d' : Peak T) :
  (i < List.length peaks)%nat ->
  nth i (ranked peaks) d
  = set_ranks (rank_rows (negated (metric_array peaks))) i (nth i peaks d').
Proof.
  intros Hi. unfold ranked.
  now rewrite (nth_map_combine_seq
                 (set_ranks (rank_rows (negated (metric_array peaks))))
                 peaks 0 i d d' Hi).
Qed.


Lemma sorting_spec (inp : list (Z * Peak T)) (d : Peak T) :
  sorting inp
  = map (fun i => (Z.of_nat i,
                   nth (nth i (sort_row 0 (map snd inp)) 0%nat)
                       (ranked (map snd inp)) d))
        (seq 0 (List.length inp)).
Proof.
  unfold sorting.
  pose proof (length_ranked (map snd inp)) as L. rewrite length_map in L.
  destruct (ranked (map snd inp)) as [|d0 rest] eqn:E.
  - cbn in L. rewrite <- L. reflexivity.
  - rewrite length_map. apply map_ext_in. intros i Hi. apply in_seq in Hi.
    f_equal. unfold integral_sorting. rewrite nth_argsort_rows by lia.
    apply nth_indep. rewrite L, <- (length_map snd inp).
    apply (perm_seq_nth_lt _ _ _ (sort_row_perm 0 (map snd inp))).
    rewrite length_map. lia.
Qed.

Lemma map_snd_sorting (inp : list (Z * Peak T)) (d : Peak T) :
  map snd (sorting inp)
  = map (fun j => nth j (ranked (map snd inp)) d) (sort_row 0 (map snd inp)).
Proof.
  rewrite (sorting_spec inp d), map_map. cbn [snd].
  rewrite <- (length_map snd inp).
  rewrite <- (perm_seq_length _ _ (sort_row_perm 0 (map snd inp))).
  apply (map_nth_seq_comp (fun j => nth j (ranked (map snd inp)) d)).
Qed.

Lemma map_fst_sorting (inp : list (Z * Peak T)) :
  map fst (sorting inp) = map Z.of_nat (seq 0 (List.length inp)).
Proof.
  destruct inp as [|[z p] inp]; [reflexivity|].
  rewrite (sorting_spec _ p), map_map. reflexivity.
Qed.

Lemma sorting_perm_ranked (inp : list (Z * Peak T)) :
  Permutation (map snd (sorting inp)) (ranked (map snd inp)).
Proof.
  destruct inp as [|[z p] inp]; [reflexivity|].
  rewrite (map_snd_sorting _ p).
  etransitivity; [apply Permutation_map, sort_row_perm|].
  rewrite <- length_ranked. now rewrite map_nth_seq.
Qed.


End RankingT.

Lemma no_ties_metric (peaks : list (Peak Q)) (k : nat) :
  no_ties peaks -> (k < 6)%nat -> distinct_on (metric k) peaks.
Proof.
  intros (H0 & H1 & H2 & H3 & H4 & H5) Hk.
  do 6 (destruct k as [|k]; [assumption|]). lia.
Qed.

Lemma map_nth_inj (s l1 l2 : list nat) :
  NoDup s ->
  Forall (fun i => (i < List.length s)%nat) l1 ->
  Forall (fun i => (i < List.length s)%nat) l2 ->
  map (fun i => nth i s 0%nat) l1 = map (fun i => nth i s 0%nat) l2 ->
  l1 = l2.
Proof.
  intros Hs H1. revert l2. induction H1 as [|x l1 Hx H1 IH]; intros l2 H2 E.
  - destruct l2; [reflexivity|discriminate].
  - destruct H2 as [|y l2 Hy H2]; [discriminate|].
    injection E as Exy E. f_equal.
    + now apply (proj1 (NoDup_nth s 0%nat) Hs).
    + now apply IH.
Qed.

Lemma pair_list_ext {A B} (l1 l2 : list (A * B)) :
  map fst l1 = map fst l2 -> map snd l1 = map snd l2 -> l1 = l2.
Proof.
  revert l2. induction l1 as [|[a b] l1 IH]; intros [|[a' b'] l2] Hf Hs;
    try discriminate; [reflexivity|].
  cbn in Hf, Hs. injection Hf as -> Hf. injection Hs as -> Hs.
  f_equal. now apply IH.
Qed.

Section RankingQ.

Context {AS : ArgSort}.

Lemma nth_snd_sorting (inp : list (Z * Peak Q)) (i : nat) (d : Peak Q) :
  (i < List.length inp)%nat ->
  nth i (map snd (sorting inp)) d
  = set_ranks (rank_rows (negated (metric_array (map snd inp))))
              (nth i (sort_row 0 (map snd inp)) 0%nat)
              (nth (nth i (sort_row 0 (map snd inp)) 0%nat) (map snd inp) d).
Proof.
  intros Hi.
  pose proof (sort_row_perm 0 (map snd inp)) as Hs.
  rewrite length_map in Hs.
  rewrite (map_snd_sorting inp d).
  rewrite (nth_indep _ d (nth 0%nat (ranked (map snd inp)) d)).
  2:{ rewrite length_map, (perm_seq_length _ _ Hs). exact Hi. }
  rewrite (map_nth (fun j => nth j (ranked (map snd inp)) d)).
  apply nth_ranked. rewrite length_map.
  now apply (perm_seq_nth_lt _ _ _ Hs).
Qed.





Lemma length_sorting (inp : list (Z * Peak Q)) :
  List.length (map snd (sorting inp)) = List.length inp.
Proof.
  rewrite length_map, <- (length_map fst), map_fst_sorting.
  now rewrite length_map, length_seq.
Qed.



Section Idempotent.

Variable inp : list (Z * Peak Q).
Variable d : Peak Q.
Hypothesis Hties : no_ties (map snd inp).

Let P := map snd inp.
Let N := List.length inp.
Let P2 := map snd (sorting inp).
Let sigma := sort_row 0 P.

Lemma idem_LP : List.length P = N.
Proof. apply length_map. Qed.

Lemma idem_sigma : Permutation sigma (seq 0 N).
Proof. unfold sigma. rewrite <- idem_LP. apply sort_row_perm. Qed.

Lemma idem_metric (k i : nat) :
  (i < N)%nat ->
  metric k (nth i P2 d) = metric k (nth (nth i sigma 0%nat) P d).
Proof.
  intros Hi. unfold P2. rewrite nth_snd_sorting by exact Hi.
  apply metric_set_ranks.
Qed.

Lemma idem_key (k i : nat) (peaks : list (Peak Q)) :
  nth i (map nneg (map (metric k) peaks)) (nneg (metric k d))
  = nneg (metric k (nth i peaks d)).
Proof.
  rewrite map_map. exact (map_nth (fun p => nneg (metric k p)) peaks d i).
Qed.

Lemma idem_sort_rows (k : nat) :
  (k < 6)%nat ->
  map (fun i => nth i sigma 0%nat) (sort_row k P2) = sort_row k P.
Proof.
  intros Hk.
  assert (LP2 : List.length P2 = N) by apply length_sorting.
  pose proof (sort_row_perm k P2) as H2. rewrite LP2 in H2.
  pose proof (sort_row_perm k P) as H1. rewrite idem_LP in H1.
  set (K := map nneg (map (metric k) P)).
  set (K2 := map nneg (map (metric k) P2)).
  assert (LK : List.length K = N)
    by (unfold K; rewrite 2!length_map; exact idem_LP).
  assert (LK2 : List.length K2 = N)
    by (unfold K2; rewrite 2!length_map; exact LP2).
  apply (StronglySorted_perm_unique (key_le sort_leb K)).
  - intros x y Hx Hy Hxy Hyx.
    assert (Bx : (x < N)%nat).
    { eapply Permutation_in in Hx; [|apply (perm_seq_compose _ _ N idem_sigma H2)].
      apply in_seq in Hx. lia. }
    assert (By : (y < N)%nat).
    { eapply Permutation_in in Hy; [|apply (perm_seq_compose _ _ N idem_sigma H2)].
      apply in_seq in Hy. lia. }
    apply (key_le_nth sort_leb K (nneg (metric k d))) in Hxy; try lia.
    apply (key_le_nth sort_leb K (nneg (metric k d))) in Hyx; try lia.
    unfold K in Hxy, Hyx. rewrite !idem_key in Hxy, Hyx.
    cbn [sort_leb nneg Q_Number] in Hxy, Hyx.
    apply Qle_bool_iff in Hxy, Hyx.
    apply (no_ties_metric _ k Hties Hk x y (nth x P d) (nth y P d)).
    + apply nth_error_nth'. rewrite idem_LP. exact Bx.
    + apply nth_error_nth'. rewrite idem_LP. exact By.
    + lra.
  - apply (StronglySorted_map_In (key_le sort_leb K2)).
    + intros x y Hx Hy Hxy.
      assert (Bx : (x < N)%nat).
      { eapply Permutation_in in Hx; [|exact H2]. apply in_seq in Hx. lia. }
      assert (By : (y < N)%nat).
      { eapply Permutation_in in Hy; [|exact H2]. apply in_seq in Hy. lia. }
      apply (key_le_nth sort_leb K2 (nneg (metric k d))) in Hxy; try lia.
      apply (key_le_nth sort_leb K (nneg (metric k d)));
        try (rewrite LK; now apply (perm_seq_nth_lt _ _ _ idem_sigma)).
      unfold K2 in Hxy. unfold K. rewrite !idem_key in *.
      now rewrite !idem_metric in Hxy by assumption.
    + apply argsort_sorted; [exact Qle_bool_total|exact Qle_bool_trans].
  - apply argsort_sorted; [exact Qle_bool_total|exact Qle_bool_trans].
  - etransitivity; [apply (perm_seq_compose _ _ N idem_sigma H2)|].
    now symmetry.
Qed.

Lemma idem_LP2 : List.length P2 = N.
Proof. apply length_sorting. Qed.

(** The second pass finds for entry [el] the rank its peak already has. *)
Lemma idem_rank_rows (k el : nat) :
  (k < 6)%nat -> (el < N)%nat ->
  nth el (rank_row k P2) 0%nat = nth (nth el sigma 0%nat) (rank_row k P) 0%nat.
Proof.
  intros Hk Hel.
  pose proof (sort_row_perm k P2) as H2. rewrite idem_LP2 in H2.
  pose proof (sort_row_perm k P) as H1. rewrite idem_LP in H1.
  pose proof (rank_row_perm k P2) as R2. rewrite idem_LP2 in R2.
  set (t := nth el (rank_row k P2) 0%nat).
  assert (Ht : (t < N)%nat) by now apply (perm_seq_nth_lt _ _ _ R2).
  assert (E2 : nth t (sort_row k P2) 0%nat = el)
    by now apply (argsort_inverse _ N).
  assert (E1 : nth t (sort_row k P) 0%nat = nth el sigma 0%nat).
  { rewrite <- (idem_sort_rows k Hk).
    rewrite (nth_indep _ 0%nat (nth 0%nat sigma 0%nat))
      by (rewrite length_map, (perm_seq_length _ _ H2); exact Ht).
    rewrite (map_nth (fun i => nth i sigma 0%nat)). now rewrite E2. }
  rewrite <- E1. unfold rank_row. symmetry.
  now apply (argsort_inverse' _ N).
Qed.

(** The output is already in the order of its integrals. *)
Lemma idem_sorted_already : sort_row 0 P2 = seq 0 N.
Proof.
  pose proof (sort_row_perm 0 P2) as H2. rewrite idem_LP2 in H2.
  pose proof (perm_seq_length _ _ idem_sigma) as Ls.
  apply (map_nth_inj sigma).
  - exact (perm_seq_NoDup _ _ idem_sigma).
  - rewrite Ls. exact (perm_seq_lt _ _ H2).
  - rewrite Ls. apply Forall_forall. intros i Hi. apply in_seq in Hi. lia.
  - rewrite (idem_sort_rows 0 ltac:(lia)). fold sigma.
    rewrite <- Ls. now rewrite map_nth_seq.
Qed.

Lemma idem_ranked : ranked P2 = P2.
Proof.
  apply (nth_ext _ _ d d).
  - now rewrite length_ranked.
  - intros i Hi. rewrite length_ranked, idem_LP2 in Hi.
    rewrite (nth_ranked P2 i d d) by (rewrite idem_LP2; exact Hi).
    unfold P2 at 2 3. rewrite nth_snd_sorting by exact Hi.
    apply set_ranks_again. intros k Hk.
    rewrite !nth_rank_rows by exact Hk.
    now apply idem_rank_rows.
Qed.

Lemma idem_sorting : sorting (sorting inp) = sorting inp.
Proof.
  apply pair_list_ext.
  - rewrite !map_fst_sorting. f_equal. f_equal.
    rewrite <- (length_map snd (sorting inp)). exact idem_LP2.
  - rewrite (map_snd_sorting (sorting inp) d). fold P2.
    rewrite idem_ranked, idem_sorted_already.
    rewrite <- idem_LP2. apply map_nth_seq.
Qed.

End Idempotent.

(** C6 (as amended): when no two peaks of the mapping have the same value of
    any of the six ranked attributes, ranking the output of the Ranking
    Engine again returns it unchanged: same keys, same peaks, same ranks. *)
Theorem sorting_idempotent_without_ties (inp : list (Z * Peak Q)) :
  no_ties (map snd inp) -> sorting (sorting inp) = sorting inp.
Proof.
  intros H. destruct inp as [|[z d] rest] eqn:E; [reflexivity|].
  rewrite <- E in *. now apply idem_sorting.
Qed.

End RankingQ.

Lemma untied_peaks_no_ties : no_ties (map snd untied_peaks).
Proof.
  repeat split; intros i j p q Hi Hj E;
    destruct i as [|[|i]]; destruct j as [|[|j]]; cbn in Hi, Hj;
    try reflexivity; try discriminate;
    try (destruct i; discriminate); try (destruct j; discriminate);
    injection Hi as <-; injection Hj as <-; vm_compute in E; discriminate.
Qed.

Lemma sorting_idempotent_without_ties_witness :
  sorting (AS := stable_ArgSort) (sorting untied_peaks) = sorting untied_peaks.
Proof.
  exact (sorting_idempotent_without_ties untied_peaks untied_peaks_no_ties).
Defined.

(** C6 (as stated) fails: the first pass gives the unbounded candidate fwhm
    rank 0 and the bounded one fwhm rank 1 (a tie, broken by position) and
    puts the bounded one first; the second pass, run on that output, swaps
    the two fwhm ranks. *)
Lemma sorting_not_idempotent_with_ties :
  map (fun kp => (fst kp, center_ (snd kp), fwhm_ (snd kp)))
      (sorting (AS := stable_ArgSort) tied_peaks)
  = [(0, 1, 1); (1, 0, 0)]%Z /\
  map (fun kp => (fst kp, center_ (snd kp), fwhm_ (snd kp)))
      (sorting (AS := stable_ArgSort) (sorting tied_peaks))
  = [(0, 1, 0); (1, 0, 1)]%Z /\
  sorting (AS := stable_ArgSort) (sorting tied_peaks) <> sorting tied_peaks.
Proof.
  assert (H1 : map (fun kp => (fst kp, center_ (snd kp), fwhm_ (snd kp)))
                   (sorting (AS := stable_ArgSort) tied_peaks)
               = [(0, 1, 1); (1, 0, 0)]%Z) by (vm_compute; reflexivity).
  assert (H2 : map (fun kp => (fst kp, center_ (snd kp), fwhm_ (snd kp)))
                   (sorting (AS := stable_ArgSort) (sorting tied_peaks))
               = [(0, 1, 0); (1, 0, 1)]%Z) by (vm_compute; reflexivity).
  split; [exact H1|split; [exact H2|]].
  intros E. rewrite E, H1 in H2. discriminate H2.
Qed.

(** ** Ties under any argsort *)

Section AnyArgsort.

Context {AS : ArgSort}.

Lemma perm_seq_pair (s : list nat) :
  Permutation s (seq 0 2) -> s = [0; 1]%nat \/ s = [1; 0]%nat.
Proof.
  intros H.
  pose proof (perm_seq_length _ _ H) as L.
  pose proof (perm_seq_NoDup _ _ H) as D.
  pose proof (perm_seq_lt _ _ H) as B.
  destruct s as [|a [|b [|c s]]]; try discriminate L.
  inversion B as [|? ? Ha B']; subst. inversion B' as [|? ? Hb _]; subst.
  inversion D as [|? ? Hn _]; subst. cbn in Hn, Ha, Hb.
  destruct a as [|[|a]]; destruct b as [|[|b]]; try lia; auto;
    exfalso; apply Hn; now left.
Qed.

(** On two keys that are not tied the contract leaves one answer. *)
Lemma argsort_pair {K} (leb : K -> K -> bool) (k0 k1 : K) :
  (forall a b, leb a b = true \/ leb b a = true) ->
  (forall a b c, leb a b = true -> leb b c = true -> leb a c = true) ->
  (leb k1 k0 = false -> argsort leb [k0; k1] = [0; 1]%nat) /\
  (leb k0 k1 = false -> argsort leb [k0; k1] = [1; 0]%nat).
Proof.
  intros Htot Htr.
  pose proof (argsort_sorted leb [k0; k1] Htot Htr) as S.
  destruct (perm_seq_pair _ (argsort_perm leb [k0; k1])) as [E|E];
    rewrite E in *; split; intros F; try reflexivity; exfalso;
    inversion S as [|? ? _ Hall]; subst;
    inversion Hall as [|? ? Hle _]; subst.
  - specialize (Hle k0 k1 eq_refl eq_refl). congruence.
  - specialize (Hle k1 k0 eq_refl eq_refl). congruence.
Qed.

Lemma tied_first_order : sort_row 0 (map snd tied_peaks) = [1; 0]%nat.
Proof.
  unfold sort_row. cbn [map snd tied_peaks].
  apply (argsort_pair Qle_bool _ _ Qle_bool_total Qle_bool_trans).
  reflexivity.
Qed.

Lemma tied_first_pass :
  map snd (sorting tied_peaks)
  = [set_ranks (rank_rows (negated (metric_array (map snd tied_peaks)))) 1
               (peak_of "W-182" 1 10 7 4 0);
     set_ranks (rank_rows (negated (metric_array (map snd tied_peaks)))) 0
               (peak_of "W-182" 0 0 (-1) (-1) 0)].
Proof.
  rewrite (map_snd_sorting tied_peaks (peak_of "W-182" 0 0 (-1) (-1) 0)).
  rewrite tied_first_order. reflexivity.
Qed.

Lemma tied_second_order :
  sort_row 0 (map snd (sorting tied_peaks)) = [0; 1]%nat.
Proof.
  rewrite tied_first_pass. unfold sort_row. cbn [map].
  apply (argsort_pair Qle_bool _ _ Qle_bool_total Qle_bool_trans).
  reflexivity.
Qed.

Lemma tied_fwhm_rows :
  rank_row 3 (map snd (sorting tied_peaks)) = rank_row 3 (map snd tied_peaks).
Proof. rewrite tied_first_pass. reflexivity. Qed.

(** Whatever order the argsort gives to equal keys, the second pass swaps the
    fwhm ranks of the two tied peaks: the ranks are positions in an array
    whose order the first pass has changed. *)
Lemma sorting_ties_any_argsort :
  sorting (sorting tied_peaks) <> sorting tied_peaks.
Proof.
  intros E.
  pose (d := peak_of "W-182" 0 0 (-1) (-1) 0).
  assert (E0 : rank_field 3 (nth 0 (map snd (sorting (sorting tied_peaks))) d)
               = rank_field 3 (nth 0 (map snd (sorting tied_peaks)) d))
    by now rewrite E.
  rewrite (nth_snd_sorting (sorting tied_peaks)) in E0
    by (rewrite <- (length_map snd (sorting tied_peaks)), length_sorting;
        cbn; lia).
  rewrite (nth_snd_sorting tied_peaks 0 d) in E0 by (cbn; lia).
  rewrite !rank_field_set_ranks, !nth_rank_rows in E0 by lia.
  rewrite tied_first_order, tied_second_order, tied_fwhm_rows in E0.
  cbn [nth] in E0.
  destruct (perm_seq_pair _ (rank_row_perm 3 (map snd tied_peaks))) as [R|R];
    rewrite R in E0; discriminate E0.
Qed.

End AnyArgsort.

(** * Further properties of [spectra_Objects.py] *)

(** ** The window of the Boundary Detector *)

Lemma In_range_down (c p i : Z) :
  In i (range c (c + (-1) * (p + 1)) (-1)) -> (c - p <= i <= c)%Z.
Proof.
  unfold range. cbn [Z.ltb Z.compare Z.opp].
  replace (c - (c + -1 * (p + 1)) - -1 - 1)%Z with (p + 1)%Z by lia.
  rewrite Z.div_1_r. intros H. apply in_map_iff in H as (k & <- & Hk).
  apply in_seq in Hk. lia.
Qed.

Lemma In_range_up (c p i : Z) :
  In i (range c (c + 1 * (p + 1)) 1) -> (c <= i <= c + p)%Z.
Proof.
  unfold range. cbn [Z.ltb Z.compare].
  replace (c + 1 * (p + 1) - c + 1 - 1)%Z with (p + 1)%Z by lia.
  rewrite Z.div_1_r. intros H. apply in_map_iff in H as (k & <- & Hk).
  apply in_seq in Hk. lia.
Qed.

(** A scan that stops does so at one of the samples it was given, with
    reason 1 or 2, and reports the x-value of that sample. *)
Lemma scan_stops_inside {T} {NT : Number T} (self : Data T) (params : Params T)
      (prange sign : Z) (os : T) (idxs : list Z) (dm : option T)
      (r i : Z) (x : T) :
  scan self params prange sign os idxs dm = Ok (Some (r, i, x)) ->
  In i idxs /\ (r = 1 \/ r = 2)%Z /\ getitem (row0 (spectrum self)) i = Ok x.
Proof.
  revert dm. induction idxs as [|j rest IH]; intros dm H; [discriminate H|].
  cbn [scan] in H.
  destruct (getitem (sder self) (j + sign)) as [sn|]; [|discriminate H].
  destruct (getitem (sder self) j) as [sh|]; [|discriminate H].
  cbn [bind] in H.
  match type of H with
  | bind ?d _ = _ => destruct d as [[dm'|]|] eqn:Ed
  end; cbn [bind] in H; [| |discriminate H].
  - destruct (getitem (der self) j) as [d|]; [|discriminate H].
    cbn [bind] in H.
    destruct (decay_stop params os dm' d).
    + destruct (getitem (row0 (spectrum self)) j) as [xj|] eqn:Ex;
        [|discriminate H].
      injection H as <- <- <-. split; [now left|]. split; [now left|exact Ex].
    + destruct (sign_stop sn sh).
      * destruct (getitem (row0 (spectrum self)) j) as [xj|] eqn:Ex;
          [|discriminate H].
        injection H as <- <- <-. split; [now left|]. split; [now right|exact Ex].
      * apply IH in H as (Hin & Hr & Hx). split; [now right|]. now split.
  - apply IH in H as (Hin & Hr & Hx). split; [now right|]. now split.
Qed.

Lemma sink_grows_ne (err : sink) (en : entry) : err ++ [en] <> err.
Proof.
  intros H. apply (f_equal (@List.length entry)) in H.
  rewrite length_app in H. cbn in H. lia.
Qed.

(** What the [try] block of [definepeak] returns when it raises nothing. *)
Lemma definepeak_try_window {T} {NT : Number T} (B : Basics T) (self : Data T)
      (npeak : Z) (prange : radius) (params : Params T) (b : Bounds T) :
  definepeak_try B self npeak prange params = Ok b ->
  exists c p i0 i1 x0 x1,
    prange = RInt p /\ getitem (mai self) npeak = Ok c /\
    b_ilims b = [i0; i1] /\ b_xlims b = (x0, x1) /\
    (c - p <= i0 <= c)%Z /\ (c <= i1 <= c + p)%Z /\
    getitem (row0 (spectrum self)) i0 = Ok x0 /\
    getitem (row0 (spectrum self)) i1 = Ok x1 /\
    (x0 == x1)%num = false /\
    In (fst (b_peakreason b)) [1; 2]%Z /\ In (snd (b_peakreason b)) [1; 2]%Z.
Proof.
  unfold definepeak_try. intros H.
  destruct (getitem (mai self) npeak) as [c|] eqn:Ec; [|discriminate H].
  cbn [bind] in H.
  destruct prange as [p|p]; [|discriminate H]. cbn [bind] in H.
  destruct (outer_slope B _ params) as [[os bw]|]; [|discriminate H].
  cbn [bind] in H. unfold scans in H.
  destruct (scan self params p (-1) os _ None) as [l|] eqn:El;
    [|discriminate H].
  cbn [bind] in H.
  destruct (scan self params p 1 os _ None) as [r|] eqn:Er;
    [|discriminate H].
  cbn [bind] in H.
  destruct l as [[[r0 i0] x0]|]; destruct r as [[[r1 i1] x1]|];
    cbn [app bounds_of] in H; try discriminate H.
  destruct (x0 == x1)%num eqn:Ex; [discriminate H|].
  injection H as <-. cbn.
  apply scan_stops_inside in El as (Hin0 & Hr0 & Hx0).
  apply scan_stops_inside in Er as (Hin1 & Hr1 & Hx1).
  apply In_range_down in Hin0. apply In_range_up in Hin1.
  exists c, p, i0, i1, x0, x1.
  split; [reflexivity|]. split; [reflexivity|]. split; [reflexivity|].
  split; [reflexivity|]. split; [lia|]. split; [lia|].
  split; [exact Hx0|]. split; [exact Hx1|]. split; [exact Ex|].
  split; [destruct Hr0 as [-> | ->]; cbn; auto|].
  destruct Hr1 as [-> | ->]; cbn; auto.
Qed.

(** X1: when [definepeak] writes nothing to the sink, the index bounds it
    returns lie in the search window and bracket the centre:
    [centre - prange <= i0 <= centre <= i1 <= centre + prange]; the x-bounds
    are the x-values of the spectrum at these indices and differ from one
    another, and each reason is 1 or 2. *)
Theorem definepeak_window {T} {NT : Number T} (B : Basics T) (self : Data T)
        (npeak : Z) (prange : radius) (params : Params T) (err : sink)
        (b : Bounds T) :
  definepeak B self npeak prange params err = (Ok b, err) ->
  exists c p i0 i1 x0 x1,
    prange = RInt p /\ getitem (mai self) npeak = Ok c /\
    b_ilims b = [i0; i1] /\ b_xlims b = (x0, x1) /\
    (c - p <= i0 <= c)%Z /\ (c <= i1 <= c + p)%Z /\
    getitem (row0 (spectrum self)) i0 = Ok x0 /\
    getitem (row0 (spectrum self)) i1 = Ok x1 /\
    (x0 == x1)%num = false /\
    In (fst (b_peakreason b)) [1; 2]%Z /\ In (snd (b_peakreason b)) [1; 2]%Z.
Proof.
  unfold definepeak, try_except, lift. intros H.
  destruct (definepeak_try B self npeak prange params) as [b'|e] eqn:E.
  - injection H as <-. now apply definepeak_try_window in E.
  - injection H as _ H. unfold err_add in H. now apply sink_grows_ne in H.
Qed.

(** The 12-sample peak, centre 5, radius 4: the bounds are the samples 1
    and 8. *)
Lemma definepeak_window_witness :
  exists c p i0 i1 x0 x1,
    RInt 4 = RInt p /\ getitem (mai one_peak) 0 = Ok c /\
    [1; 8]%Z = [i0; i1] /\ (inject_Z 1, inject_Z 8) = (x0, x1) /\
    (c - p <= i0 <= c)%Z /\ (c <= i1 <= c + p)%Z /\
    getitem (row0 (spectrum one_peak)) i0 = Ok x0 /\
    getitem (row0 (spectrum one_peak)) i1 = Ok x1 /\
    (x0 == x1)%num = false /\
    In 1%Z [1; 2]%Z /\ In 1%Z [1; 2]%Z.
Proof.
  exact (definepeak_window basics_q one_peak 0 (RInt 4) params_q []
           {| b_xlims := (inject_Z 1, inject_Z 8); b_ilims := [1; 8]%Z;
              b_outerslope := (0, 2); b_peakreason := (1%Z, 1%Z) |}
           eq_refl).
Defined.

(** X2: in exact arithmetic the all-zero result of [definepeak] is never a
    real boundary pair: the returned x-bounds are [(0., 0.)] exactly when an
    entry was added to the sink, and then the whole result is the all-zero
    one; otherwise the sink is untouched. *)
Theorem definepeak_sentinel_iff_logged (B : Basics Q) (self : Data Q)
        (npeak : Z) (prange : radius) (params : Params Q) (err : sink) :
  exists b err',
    definepeak B self npeak prange params err = (Ok b, err') /\
    ((is_sentinel (b_xlims b) = false /\ err' = err) \/
     (is_sentinel (b_xlims b) = true /\ b = sentinel_bounds /\
      exists e, err' = err ++ [Entry e "definepeak" (fullname self) npeak])).
Proof.
  unfold definepeak, try_except, lift.
  destruct (definepeak_try B self npeak prange params) as [b|e] eqn:E.
  - exists b, err. split; [reflexivity|]. left. split; [|reflexivity].
    apply definepeak_try_window in E
      as (c & p & i0 & i1 & x0 & x1 & _ & _ & _ & Hx & _ & _ & _ & _ & Hne & _).
    rewrite Hx. unfold is_sentinel. cbn [fst snd]. qnum.
    destruct (Qeq_bool x0 zero) eqn:E0; [|reflexivity].
    destruct (Qeq_bool x1 zero) eqn:E1; [|reflexivity].
    apply Qeq_bool_iff in E0, E1.
    assert (H : Qeq_bool x0 x1 = true)
      by (apply Qeq_bool_iff; rewrite E0, E1; reflexivity).
    congruence.
  - exists sentinel_bounds, (err_add e "definepeak" (fullname self) npeak err).
    split; [reflexivity|]. right. split; [reflexivity|]. split; [reflexivity|].
    now exists e.
Qed.

(** ** The search radius stays inside the spectrum *)

Lemma search_radius_bounds {T} (self : Data T) (params : Params T) (i : nat) :
  (i < List.length (mai self))%nat ->
  exists r,
    search_radius self params (Z.of_nat i) = Ok r /\
    (radius_val r <= prangemax params)%Z /\
    (0 <= nth i (mai self) 0%Z - radius_val r)%Z /\
    (nth i (mai self) 0%Z + radius_val r
     <= Z.of_nat (List.length (spectrum self)) - 1)%Z.
Proof.
  intros Hi. unfold search_radius.
  rewrite (getitem_nat _ _ 0%Z) by exact Hi. cbn [bind].
  destruct (Z.ltb_spec 1 (Z.of_nat (List.length (mai self)))) as [H1|H1].
  - destruct (Z.eqb_spec (Z.of_nat i) 0) as [H0|H0].
    { eexists. split; [reflexivity|]. rewrite py_min_val. cbn. lia. }
    destruct (Z.eqb_spec (Z.of_nat i) (Z.of_nat (List.length (mai self)) - 1))
      as [Hl|Hl].
    { eexists. split; [reflexivity|]. rewrite py_min_val. cbn. lia. }
    replace (Z.of_nat i + 1)%Z with (Z.of_nat (i + 1)) by lia.
    replace (Z.of_nat i - 1)%Z with (Z.of_nat (i - 1)) by lia.
    rewrite (getitem_nat _ _ 0%Z) by lia.
    rewrite (getitem_nat _ _ 0%Z) by lia. cbn [bind].
    eexists. split; [reflexivity|]. rewrite py_min_val. cbn. lia.
  - destruct (mai self) as [|m [|m' rest]] eqn:Em; cbn in Hi, H1; try lia.
    assert (i = 0)%nat as -> by lia. cbn -[py_min].
    eexists. split; [reflexivity|]. rewrite py_min_val. cbn. lia.
Qed.

(** X3: for every candidate of [propsisot] the radius is computed without
    an exception, is at most [prangemax], and the window
    [mai[i] - prange .. mai[i] + prange] lies between the first and the last
    sample of the spectrum. *)
Theorem search_radius_inside {T} (self : Data T) (params : Params T) (i : nat) :
  (i < List.length (mai self))%nat ->
  exists r,
    search_radius self params (Z.of_nat i) = Ok r /\
    (radius_val r <= prangemax params)%Z /\
    (0 <= nth i (mai self) 0%Z - radius_val r)%Z /\
    (nth i (mai self) 0%Z + radius_val r
     <= Z.of_nat (List.length (spectrum self)) - 1)%Z.
Proof. exact (search_radius_bounds self params i). Qed.

(** The middle one of the candidates 10, 20, 35 in 100 samples: radius 20,
    window 0 .. 40. *)
Lemma search_radius_inside_witness :
  exists r,
    search_radius three_candidates params_q (Z.of_nat 1) = Ok r /\
    (radius_val r <= prangemax params_q)%Z /\
    (0 <= nth 1 (mai three_candidates) 0%Z - radius_val r)%Z /\
    (nth 1 (mai three_candidates) 0%Z + radius_val r
     <= Z.of_nat (List.length (spectrum three_candidates)) - 1)%Z.
Proof.
  apply (search_radius_inside three_candidates params_q 1). cbn. lia.
Defined.

(** ** What [sorting] keeps *)

Section Relabel.

Context {T : Type} {NT : Number T} {AS : ArgSort}.

Lemma unranked_set_ranks (rk : list (list nat)) (el : nat) (p : Peak T) :
  unranked (set_ranks rk el p) = unranked p.
Proof. reflexivity. Qed.

Lemma map_snd_combine_seq {A} (l : list A) (s : nat) :
  map snd (combine (seq s (List.length l)) l) = l.
Proof.
  revert s. induction l as [|x l IH]; intros s; cbn; [reflexivity|].
  now rewrite IH.
Qed.

Lemma unranked_ranked (peaks : list (Peak T)) :
  map unranked (ranked peaks) = map unranked peaks.
Proof.
  unfold ranked. rewrite map_map.
  rewrite (map_ext _ (fun ep => unranked (snd ep)))
    by (intros ep; apply unranked_set_ranks).
  rewrite <- (map_map snd unranked). now rewrite map_snd_combine_seq.
Qed.

Lemma length_sorting_any (inp : list (Z * Peak T)) :
  List.length (sorting inp) = List.length inp.
Proof.
  rewrite <- (length_map fst (sorting inp)), map_fst_sorting.
  now rewrite length_map, length_seq.
Qed.

(** The peaks of the output are those of the input, whatever their ranks. *)
Lemma sorting_perm_unranked (inp : list (Z * Peak T)) :
  Permutation (map unranked (map snd (sorting inp)))
              (map unranked (map snd inp)).
Proof.
  rewrite <- (unranked_ranked (map snd inp)).
  apply Permutation_map, sorting_perm_ranked.
Qed.

(** The entry at position [i] of the output has key, [num] and [integral_]
    equal to [i]. *)
Lemma sorting_entry (inp : list (Z * Peak T)) (i : nat) (k : Z) (p : Peak T) :
  nth_error (sorting inp) i = Some (k, p) ->
  k = Z.of_nat i /\ num p = Z.of_nat i /\ integral_ p = Z.of_nat i /\
  exists j q, nth_error (map snd inp) j = Some q /\
              unranked p = unranked q.
Proof.
  intros H.
  assert (Hi : (i < List.length inp)%nat).
  { rewrite <- (length_map fst inp).
    replace (List.length (map fst inp)) with (List.length (sorting inp)).
    - apply nth_error_Some. congruence.
    - rewrite <- (length_map fst (sorting inp)), map_fst_sorting.
      now rewrite !length_map, length_seq. }
  rewrite (sorting_spec inp p) in H.
  rewrite nth_error_map in H.
  rewrite (nth_error_nth' (seq 0 (List.length inp)) 0%nat) in H
    by (rewrite length_seq; exact Hi).
  rewrite seq_nth in H by exact Hi. cbn in H. injection H as <- H.
  set (P := map snd inp) in *.
  assert (LP : List.length P = List.length inp) by apply length_map.
  pose proof (sort_row_perm 0 P) as Hs. rewrite LP in Hs.
  set (j := nth i (sort_row 0 P) 0%nat) in *.
  assert (Hj : (j < List.length P)%nat)
    by (rewrite LP; now apply (perm_seq_nth_lt _ _ _ Hs)).
  rewrite (nth_ranked P j p p Hj) in H.
  assert (Er : nth j (rank_row 0 P) 0%nat = i).
  { unfold rank_row, j. now apply (argsort_inverse' _ (List.length inp)). }
  split; [reflexivity|].
  split; [|split].
  - rewrite <- H. cbn [num set_ranks].
    rewrite (nth_rank_rows 0 P) by lia. now rewrite Er.
  - rewrite <- H. cbn [integral_ set_ranks].
    rewrite (nth_rank_rows 0 P) by lia. now rewrite Er.
  - exists j, (nth j P p). split; [now apply nth_error_nth'|].
    rewrite <- H at 1. apply unranked_set_ranks.
Qed.

(** X4: [sorting] returns the peaks it was given: apart from the rank
    attributes and [num], the peaks of the output are a rearrangement of
    those of the input; the entry at position [i] has the key [i], and its
    [num] and [integral_] are [i] too. *)
Theorem sorting_relabels (inp : list (Z * Peak T)) :
  Permutation (map unranked (map snd (sorting inp)))
              (map unranked (map snd inp)) /\
  forall i k p,
    nth_error (sorting inp) i = Some (k, p) ->
    k = Z.of_nat i /\ num p = Z.of_nat i /\ integral_ p = Z.of_nat i.
Proof.
  split; [apply sorting_perm_unranked|].
  intros i k p H. apply sorting_entry in H as (H1 & H2 & H3 & _). auto.
Qed.

End Relabel.

(** ** The Batch Orchestrator accounts for every candidate *)

Section Orchestrator.

Context {T : Type} {NT : Number T} {AS : ArgSort}.
Variable B : Basics T.
Variables (self : Data T) (params : Params T) (setx : list (Z * (T * T))).

(** An entry written below [propsisot]: by [definepeak] or [computepeak],
    for this entity. *)
Let inner (en : entry) : Prop :=
  e_entity en = fullname self /\ String.eqb (e_function en) "propsisot" = false.

Lemma definepeak_sink (npeak : Z) (prange : radius) (err err' : sink)
      (r : result (Bounds T)) :
  definepeak B self npeak prange params err = (r, err') ->
  exists l, err' = err ++ l /\ Forall inner l.
Proof.
  unfold definepeak, try_except, lift.
  destruct (definepeak_try B self npeak prange params).
  - intros [= _ <-]. exists []. split; [now rewrite app_nil_r|constructor].
  - intros [= _ <-]. eexists. split; [reflexivity|].
    constructor; [|constructor]. split; reflexivity.
Qed.

Lemma computepeak_info_sink (peakpos : Z) (prange : radius)
      (sx : option (T * T)) (err err' : sink) (r : result (Peak T)) :
  computepeak_info B self peakpos prange params sx err = (r, err') ->
  exists l, err' = err ++ l /\ Forall inner l.
Proof.
  unfold computepeak_info, mbind, lift, ret. intros H.
  assert (Hnil : exists l, err = err ++ l /\ Forall inner l)
    by (exists []; split; [now rewrite app_nil_r|constructor]).
  repeat match type of H with
         | context [match getitem ?l ?i with _ => _ end] =>
             destruct (getitem l i);
             [|injection H as _ <-; exact Hnil]
         | context [match E2t ?b ?x ?m with _ => _ end] =>
             destruct (E2t b x m);
             [|injection H as _ <-; exact Hnil]
         end.
  destruct sx as [sx|].
  - destruct (GetIndex B _ _ None); [|injection H as _ <-; exact Hnil].
    injection H as _ <-. exact Hnil.
  - destruct (definepeak B self peakpos prange params err) as [[b|e] err1] eqn:E;
      apply definepeak_sink in E; injection H as _ <-; exact E.
Qed.

Lemma computepeak_sink (peakpos : Z) (prange : radius)
      (sx : option (T * T)) (err err' : sink) (r : result (Peak T)) :
  computepeak B self peakpos prange params sx err = (r, err') ->
  exists l, err' = err ++ l /\ Forall inner l.
Proof.
  unfold computepeak.
  destruct (computepeak_info B self peakpos prange params sx err)
    as [[info|e] err1] eqn:E;
    apply computepeak_info_sink in E as (l & -> & Hl).
  - unfold try_except, return_Peak, lift.
    destruct (Peak_init B info).
    + intros [= _ <-]. now exists l.
    + intros [= _ <-]. exists (l ++ [Entry e "computepeak" (fullname self) (-1)]).
      split; [unfold err_add; now rewrite app_assoc|].
      apply Forall_app. split; [exact Hl|].
      constructor; [|constructor]. split; reflexivity.
  - unfold return_Peak, raise. intros [= _ <-].
    exists (l ++ [Entry e "computepeak" (fullname self) (-1)]).
    split; [unfold err_add; now rewrite app_assoc|].
    apply Forall_app. split; [exact Hl|].
    constructor; [|constructor]. split; reflexivity.
Qed.

Lemma peak_info_assembled (peakpos : Z) (prange : radius)
      (c : T) (coords coords_tof : T * T) (icenter : Z) (ct : T)
      (bnd : Bounds T) (ue : bool) (info : Peak T) :
  peak_info B self peakpos prange c coords coords_tof icenter ct bnd ue
  = Ok info ->
  center_ info = peakpos /\ p_fullname info = fullname self /\
  user_edited info = ue /\ xlims info = b_xlims bnd /\
  peakreason info = b_peakreason bnd.
Proof.
  unfold peak_info. intros H.
  repeat match type of H with
         | bind ?x _ = _ => destruct x; cbn [bind] in H; [|discriminate H]
         end.
  injection H as <-. repeat split.
Qed.

Lemma computepeak_assembled (peakpos : Z) (prange : radius)
      (sx : option (T * T)) (err err' : sink) (pk : Peak T) :
  computepeak B self peakpos prange params sx err = (Ok pk, err') ->
  assembled self peakpos sx pk.
Proof.
  intros H. apply computepeak_Ok in H as [H _].
  unfold computepeak_info, mbind, lift, ret in H.
  repeat match type of H with
         | context [match getitem ?l ?i with _ => _ end] =>
             destruct (getitem l i); [|discriminate H]
         | context [match E2t ?b ?x ?m with _ => _ end] =>
             destruct (E2t b x m); [|discriminate H]
         end.
  destruct sx as [sx|].
  - destruct (GetIndex B _ _ None); [|discriminate H].
    injection H as H _.
    apply peak_info_assembled in H as (H1 & H2 & H3 & H4 & H5).
    repeat split; assumption.
  - destruct (definepeak B self peakpos prange params err) as [[b|e] err1];
      [|discriminate H].
    injection H as H _.
    apply peak_info_assembled in H as (H1 & H2 & H3 & H4 & H5).
    repeat split; assumption.
Qed.

Lemma candidate_sink (i : Z) (err err' : sink) (r : result (Peak T)) :
  candidate B self params setx i err = (r, err') ->
  exists l, err' = err ++ l /\ Forall inner l.
Proof.
  unfold candidate, mbind, lift.
  destruct (search_radius self params i).
  - apply computepeak_sink.
  - intros [= _ <-]. exists []. split; [now rewrite app_nil_r|constructor].
Qed.

Lemma candidate_assembled (i : Z) (err err' : sink) (pk : Peak T) :
  candidate B self params setx i err = (Ok pk, err') ->
  assembled self i (dict_get setx i) pk.
Proof.
  unfold candidate, mbind, lift.
  destruct (search_radius self params i); [|discriminate].
  apply computepeak_assembled.
Qed.

Lemma logged_by_inner (l : sink) :
  Forall inner l -> logged_by "propsisot" l = [].
Proof.
  induction 1 as [|en l [_ Hf] _ IH]; [reflexivity|].
  unfold logged_by in *. cbn [filter]. now rewrite Hf.
Qed.

Lemma inner_entity (l : sink) :
  Forall inner l -> Forall (fun en => e_entity en = fullname self) l.
Proof. apply Forall_impl. now intros en [H _]. Qed.

(** The loop of [propsisot]: every candidate adds either an entry to the
    mapping or a ['propsisot'] entry to the sink. *)
Lemma candidates_spec (idxs : list Z) (peaks_pos : list (Z * Peak T))
      (err : sink) :
  exists new added,
    candidates B self params setx idxs peaks_pos err
    = (peaks_pos ++ new, err ++ added) /\
    Forall (fun en => e_entity en = fullname self) added /\
    (List.length new + List.length (logged_by "propsisot" added)
     = List.length idxs)%nat /\
    incl (map fst new) idxs /\
    (NoDup idxs -> NoDup (map fst new)) /\
    Forall (fun ip => assembled self (fst ip) (dict_get setx (fst ip)) (snd ip))
           new.
Proof.
  revert peaks_pos err. induction idxs as [|i rest IH]; intros pp err.
  - exists [], []. cbn. rewrite !app_nil_r.
    repeat split; try constructor. intros x [].
  - cbn [candidates].
    destruct (candidate B self params setx i err) as [[pk|e] err1] eqn:E.
    + pose proof (candidate_assembled _ _ _ _ E) as Hpk.
      apply candidate_sink in E as (l & -> & Hl).
      destruct (IH (pp ++ [(i, pk)]) (err ++ l))
        as (new & added & -> & Hent & Hlen & Hincl & Hnd & Hall).
      exists ((i, pk) :: new), (l ++ added).
      split; [now rewrite <- !app_assoc|].
      split; [apply Forall_app; split; [now apply inner_entity|exact Hent]|].
      split.
      { unfold logged_by in *. rewrite filter_app, length_app.
        fold (logged_by "propsisot" l). rewrite (logged_by_inner l Hl).
        cbn [List.length]. lia. }
      split.
      { intros x [<-|Hx]; [now left|right; now apply Hincl]. }
      split.
      { intros Hd. inversion Hd as [|? ? Hni Hd']; subst.
        cbn [map fst]. constructor; [|now apply Hnd].
        intros Hin. apply Hni. now apply Hincl. }
      constructor; [exact Hpk|exact Hall].
    + apply candidate_sink in E as (l & -> & Hl).
      destruct (IH pp (err_add e "propsisot" (fullname self) i (err ++ l)))
        as (new & added & -> & Hent & Hlen & Hincl & Hnd & Hall).
      exists new, (l ++ Entry e "propsisot" (fullname self) i :: added).
      split.
      { unfold err_add. rewrite <- !app_assoc. reflexivity. }
      split.
      { apply Forall_app. split; [now apply inner_entity|].
        constructor; [reflexivity|exact Hent]. }
      split.
      { unfold logged_by in *. rewrite filter_app, length_app.
        fold (logged_by "propsisot" l). rewrite (logged_by_inner l Hl).
        cbn [filter e_function String.eqb Ascii.eqb Bool.eqb List.length].
        cbn [List.length] in *. lia. }
      split.
      { intros x Hx. right. now apply Hincl. }
      split.
      { intros Hd. inversion Hd; subst. now apply Hnd. }
      exact Hall.
Qed.

Lemma range_0 (n : nat) : range 0 (Z.of_nat n) 1 = map Z.of_nat (seq 0 n).
Proof.
  unfold range. cbn [Z.ltb Z.compare].
  replace (Z.of_nat n - 0 + 1 - 1)%Z with (Z.of_nat n) by lia.
  rewrite Z.div_1_r, Nat2Z.id. apply map_ext. intros k. lia.
Qed.

(** X5: [propsisot] raises nothing and only appends to the sink; every
    entry it appends names the entity; and every candidate is accounted for:
    the number of peaks returned plus the number of appended entries tagged
    ['propsisot'] is the number of candidates. *)
Theorem propsisot_accounts (err : sink) :
  exists added,
    snd (propsisot B self params setx err) = err ++ added /\
    Forall (fun en => e_entity en = fullname self) added /\
    (List.length (fst (propsisot B self params setx err))
     + List.length (logged_by "propsisot" added)
     = List.length (mai self))%nat.
Proof.
  unfold propsisot.
  destruct (candidates_spec (range 0 (Z.of_nat (List.length (mai self))) 1) [] err)
    as (new & added & -> & Hent & Hlen & _).
  exists added. cbn [fst snd app].
  split; [reflexivity|]. split; [exact Hent|].
  rewrite length_sorting_any.
  rewrite Hlen, range_0. now rewrite length_map, length_seq.
Qed.

Lemma NoDup_map_of_nat (l : list nat) : NoDup l -> NoDup (map Z.of_nat l).
Proof.
  induction 1 as [|x l Hx _ IH]; cbn; constructor; [|exact IH].
  intros Hin. apply in_map_iff in Hin as (y & Hy & Hin).
  apply Nat2Z.inj in Hy. now subst.
Qed.

Lemma assembled_unranked (i : Z) (sx : option (T * T)) (p q : Peak T) :
  unranked p = unranked q -> assembled self i sx q -> assembled self i sx p.
Proof.
  intros E (H1 & H2 & H3).
  pose proof (f_equal (@center_ T) E) as E1.
  pose proof (f_equal (@p_fullname T) E) as E2.
  pose proof (f_equal (@user_edited T) E) as E3.
  pose proof (f_equal (@xlims T) E) as E4.
  pose proof (f_equal (@peakreason T) E) as E5.
  cbn in E1, E2, E3, E4, E5.
  split; [congruence|]. split; [congruence|].
  destruct sx as [b|].
  - destruct H3 as (H3 & H4 & H5). repeat split; congruence.
  - congruence.
Qed.

(** X6: the mapping [propsisot] returns is keyed 0, 1, ...; its peaks come
    from distinct candidates; each carries the index of its candidate, the
    name of the entity and equal [num] and [integral_]; and a peak is marked
    as edited by the user, with the user's bounds and the reasons (3, 3),
    exactly when [setx] has an entry for its candidate. *)
Theorem propsisot_output (err : sink) :
  let out := fst (propsisot B self params setx err) in
  map fst out = map Z.of_nat (seq 0 (List.length out)) /\
  NoDup (map (@center_ T) (map snd out)) /\
  Forall (fun p =>
            (0 <= center_ p < Z.of_nat (List.length (mai self)))%Z /\
            assembled self (center_ p) (dict_get setx (center_ p)) p /\
            num p = integral_ p)
         (map snd out).
Proof.
  unfold propsisot.
  destruct (candidates_spec (range 0 (Z.of_nat (List.length (mai self))) 1) [] err)
    as (new & added & -> & _ & _ & Hincl & Hnd & Hall).
  cbn [fst snd app]. rewrite range_0 in Hincl, Hnd.
  assert (Hkeys : map (@center_ T) (map snd new) = map fst new).
  { clear -Hall. induction Hall as [|ip l (H & _) _ IH]; [reflexivity|].
    cbn [map]. now rewrite H, IH. }
  split; [|split].
  - rewrite map_fst_sorting. now rewrite length_sorting_any.
  - eapply Permutation_NoDup.
    + symmetry.
      pose proof (Permutation_map (@center_ T) (sorting_perm_unranked new)) as Hp.
      rewrite !(map_map unranked) in Hp. exact Hp.
    + change (NoDup (map (@center_ T) (map snd new))).
      rewrite Hkeys. apply Hnd, NoDup_map_of_nat, seq_NoDup.
  - apply Forall_forall. intros p Hp.
    apply in_map_iff in Hp as ([k p'] & Ep & Hin). cbn in Ep. subst p'.
    apply In_nth_error in Hin as (i & Hi).
    apply sorting_entry in Hi as (_ & Hnum & Hint & j & q & Hq & Eu).
    rewrite nth_error_map in Hq.
    destruct (nth_error new j) as [[kq q']|] eqn:Ej; [|discriminate Hq].
    cbn in Hq. injection Hq as ->.
    pose proof (nth_error_In _ _ Ej) as Hinq.
    rewrite Forall_forall in Hall. pose proof (Hall _ Hinq) as Hq. cbn in Hq.
    assert (Ec : center_ p = kq).
    { pose proof (f_equal (@center_ T) Eu) as E1. cbn in E1.
      destruct Hq as (Hq & _). congruence. }
    split; [|split].
    + rewrite Ec.
      assert (Hk : In kq (map Z.of_nat (seq 0 (List.length (mai self)))))
        by (apply Hincl; apply in_map_iff; now exists (kq, q)).
      apply in_map_iff in Hk as (n & <- & Hn). apply in_seq in Hn. lia.
    + rewrite Ec. now apply (assembled_unranked _ _ p q).
    + congruence.
Qed.

End Orchestrator.

(** ** Edge cases of the Integrator *)

Lemma slice_reversed {A} (l : list A) (e0 e1 : nat) :
  (e1 < e0)%nat -> slice l (Z.of_nat e0) (Z.of_nat e1 + 1) = [].
Proof.
  intros H. unfold slice, clamp.
  destruct (Z.ltb_spec (Z.of_nat e0) 0); [lia|].
  destruct (Z.ltb_spec (Z.of_nat e1 + 1) 0); [lia|].
  replace (Z.to_nat (Z.min (Z.of_nat e1 + 1) (Z.of_nat (List.length l))
                     - Z.min (Z.of_nat e0) (Z.of_nat (List.length l))))
    with 0%nat by lia.
  reflexivity.
Qed.

(** X7: boundaries given in the wrong order are not integrated backwards:
    the window is empty and the exception of [simps] on an empty array,
    [IndexError], comes out of [Integrate]. *)
Theorem Integrate_reversed {T} {NT : Number T} (array : array2 T)
        (e0 e1 : nat) :
  (e1 < e0)%nat ->
  Integrate array [Z.of_nat e0; Z.of_nat e1] = Raise IndexError.
Proof.
  intros H. unfold Integrate.
  change (getitem [Z.of_nat e0; Z.of_nat e1] 0) with (Ok (Z.of_nat e0)).
  change (getitem [Z.of_nat e0; Z.of_nat e1] 1) with (Ok (Z.of_nat e1)).
  cbn [bind]. rewrite !slice_reversed by exact H. reflexivity.
Qed.

Lemma Integrate_reversed_witness :
  Integrate line_q [Z.of_nat 3; Z.of_nat 1] = Raise IndexError.
Proof.
  apply (Integrate_reversed line_q 3 1). lia.
Defined.

Lemma window_one {A} (l : list A) (i : nat) (d : A) :
  (i < List.length l)%nat -> firstn 1 (skipn i l) = [nth i l d].
Proof.
  revert i. induction l as [|x l IH]; intros i Hi; cbn in Hi; [lia|].
  destruct i as [|i]; [reflexivity|]. cbn [skipn nth]. apply IH. lia.
Qed.

Lemma window_two {A} (l : list A) (i : nat) (d : A) :
  (i + 1 < List.length l)%nat ->
  firstn 2 (skipn i l) = [nth i l d; nth (i + 1) l d].
Proof.
  revert i. induction l as [|x l IH]; intros i Hi; cbn in Hi; [lia|].
  destruct i as [|i].
  - destruct l as [|y l]; [cbn in Hi; lia|]. reflexivity.
  - cbn [skipn nth Nat.add]. apply IH. lia.
Qed.

(** X8: in exact arithmetic a window of one sample, or of two neighbouring
    samples, integrates to 0 whatever the data: what [simps] returns there
    is the trapezoid that [Integrate] subtracts. *)
Theorem Integrate_narrow (arr : array2 Q) (i0 i1 : nat) :
  (i0 <= i1 <= i0 + 1)%nat -> (i1 < List.length arr)%nat ->
  exists r, Integrate arr [Z.of_nat i0; Z.of_nat i1] = Ok r /\ r == 0.
Proof.
  intros H01 H1.
  assert (Hl0 : List.length (row0 arr) = List.length arr) by apply length_map.
  assert (Hl1 : List.length (row1 arr) = List.length arr) by apply length_map.
  unfold Integrate.
  change (getitem [Z.of_nat i0; Z.of_nat i1] 0) with (Ok (Z.of_nat i0)).
  change (getitem [Z.of_nat i0; Z.of_nat i1] 1) with (Ok (Z.of_nat i1)).
  cbn [bind].
  replace (Z.of_nat i1 + 1)%Z with (Z.of_nat (i1 + 1)) by lia.
  rewrite (slice_nat (row0 arr) i0 (i1 + 1)) by lia.
  rewrite (slice_nat (row1 arr) i0 (i1 + 1)) by lia.
  rewrite !(getitem_nat (row0 arr) _ 0) by lia.
  rewrite !(getitem_nat (row1 arr) _ 0) by lia.
  assert (E : i1 = i0 \/ i1 = (i0 + 1)%nat) by lia.
  destruct E as [-> | ->].
  - replace (i0 + 1 - i0)%nat with 1%nat by lia.
    rewrite (window_one (row0 arr) i0 0), (window_one (row1 arr) i0 0) by lia.
    set (x := nth i0 (row0 arr) 0). set (y := nth i0 (row1 arr) 0).
    eexists. split; [reflexivity|].
    change (basic_simps [y] 0 (Z.of_nat (List.length [y]) - 2) [x]) with 0.
    qnum. ring.
  - replace (i0 + 1 + 1 - i0)%nat with 2%nat by lia.
    rewrite (window_two (row0 arr) i0 0), (window_two (row1 arr) i0 0) by lia.
    set (x0 := nth i0 (row0 arr) 0). set (y0 := nth i0 (row1 arr) 0).
    set (x1 := nth (i0 + 1) (row0 arr) 0). set (y1 := nth (i0 + 1) (row1 arr) 0).
    eexists. split; [reflexivity|].
    change (basic_simps [y0; y1] 0 (Z.of_nat (List.length [y0; y1]) - 3) [x0; x1])
      with 0.
    change (basic_simps [y0; y1] 1 (Z.of_nat (List.length [y0; y1]) - 2) [x0; x1])
      with 0.
    qnum. unfold zero. qnum.
    change (inject_Z 0) with 0. change (inject_Z 2) with 2. field.
Qed.

(** Samples 1 and 2 of the 12-sample peak. *)
Lemma Integrate_narrow_witness :
  exists r, Integrate peak_xy [Z.of_nat 1; Z.of_nat 2] = Ok r /\ r == 0.
Proof.
  apply (Integrate_narrow peak_xy 1 2); cbn; lia.
Defined.

(** ** The Integrator is linear in [y] *)

Lemma slice_map {A C} (g : A -> C) (l : list A) (a b : Z) :
  slice (map g l) a b = map g (slice l a b).
Proof.
  unfold slice. rewrite length_map. now rewrite skipn_map, firstn_map.
Qed.

Lemma every2_map {A C} (g : A -> C) (l : list A) :
  every2 (map g l) = map g (every2 l).
Proof.
  enough (H : forall n l, (List.length l <= n)%nat ->
                          every2 (map g l) = map g (every2 l))
    by (apply (H (List.length l)); lia).
  clear l. induction n as [|n IH]; intros l Hl.
  - destruct l; [reflexivity|cbn in Hl; lia].
  - destruct l as [|a [|b l]]; try reflexivity.
    cbn [map every2]. f_equal. apply IH. cbn in Hl. lia.
Qed.

Lemma slice2_map {A C} (g : A -> C) (l : list A) (a b : Z) :
  slice2 (map g l) a b = map g (slice2 l a b).
Proof. unfold slice2. now rewrite slice_map, every2_map. Qed.

Lemma getitem_map {A C} (g : A -> C) (l : list A) (i : Z) :
  getitem (map g l) i
  = match getitem l i with Ok a => Ok (g a) | Raise e => Raise e end.
Proof.
  unfold getitem. rewrite length_map.
  destruct (norm_index (List.length l) i) as [k|]; [|reflexivity].
  rewrite nth_error_map. now destruct (nth_error l k).
Qed.

Lemma simpson_term_add (a1 b1 d1 a2 b2 d2 u v : Q) :
  simpson_term (a1 + a2) (b1 + b2) (d1 + d2) u v
  == simpson_term a1 b1 d1 u v + simpson_term a2 b2 d2 u v.
Proof. unfold simpson_term. qnum. unfold Qdiv. ring. Qed.

Lemma simpson_term_scale (c a b d u v : Q) :
  simpson_term (c * a) (c * b) (c * d) u v == c * simpson_term a b d u v.
Proof. unfold simpson_term. qnum. unfold Qdiv. ring. Qed.

Section LinearInY.

Context {I : Type}.

Lemma qsum_simpson_add (g1 g2 : I -> Q) (W0 W1 W2 : list I) (H0 H1 : list Q) :
  qsum (simpson_terms (map (fun w => g1 w + g2 w) W0)
                      (map (fun w => g1 w + g2 w) W1)
                      (map (fun w => g1 w + g2 w) W2) H0 H1)
  == qsum (simpson_terms (map g1 W0) (map g1 W1) (map g1 W2) H0 H1)
     + qsum (simpson_terms (map g2 W0) (map g2 W1) (map g2 W2) H0 H1).
Proof.
  revert W1 W2 H0 H1.
  induction W0 as [|w0 W0 IH]; intros [|w1 W1] [|w2 W2] [|u H0] [|v H1];
    cbn [map simpson_terms]; unfold qsum; cbn [fold_right]; try ring.
  fold (qsum (simpson_terms (map (fun w => g1 w + g2 w) W0)
                            (map (fun w => g1 w + g2 w) W1)
                            (map (fun w => g1 w + g2 w) W2) H0 H1)).
  rewrite IH, simpson_term_add. unfold qsum. ring.
Qed.

Lemma qsum_simpson_scale (c : Q) (g : I -> Q) (W0 W1 W2 : list I)
      (H0 H1 : list Q) :
  qsum (simpson_terms (map (fun w => c * g w) W0)
                      (map (fun w => c * g w) W1)
                      (map (fun w => c * g w) W2) H0 H1)
  == c * qsum (simpson_terms (map g W0) (map g W1) (map g W2) H0 H1).
Proof.
  revert W1 W2 H0 H1.
  induction W0 as [|w0 W0 IH]; intros [|w1 W1] [|w2 W2] [|u H0] [|v H1];
    cbn [map simpson_terms]; unfold qsum; cbn [fold_right]; try ring.
  fold (qsum (simpson_terms (map (fun w => c * g w) W0)
                            (map (fun w => c * g w) W1)
                            (map (fun w => c * g w) W2) H0 H1)).
  rewrite IH, simpson_term_scale. unfold qsum. ring.
Qed.

Lemma basic_simps_linear_in_y (W : list I) (s t : Z) (X : list Q) :
  linear_in_y (fun g => basic_simps (map g W) s t X).
Proof.
  split.
  - intros g1 g2. unfold basic_simps. rewrite !slice2_map, !np_sum_qsum.
    apply qsum_simpson_add.
  - intros c g. unfold basic_simps. rewrite !slice2_map, !np_sum_qsum.
    apply qsum_simpson_scale.
Qed.

(** [simps] either raises the same exception for all [y]-values on a grid,
    or returns a value that is linear in them. *)
Lemma simps_shape (W : list I) (X : list Q) :
  (exists e, forall g, simps (map g W) X = Raise e) \/
  (exists S, (forall g, simps (map g W) X = Ok (S g)) /\ linear_in_y S).
Proof.
  unfold simps.
  destruct (negb (List.length X =? List.length W)%nat) eqn:EL.
  { left. exists ValueError. intros g. now rewrite length_map, EL. }
  destruct (Z.of_nat (List.length W) mod 2 =? 0)%Z eqn:EN.
  2:{ right.
      exists (fun g => basic_simps (map g W) 0 (Z.of_nat (List.length W) - 2) X).
      split; [|apply basic_simps_linear_in_y].
      intros g. now rewrite length_map, EL, EN. }
  destruct (getitem X (-1)) as [xl|e] eqn:E1.
  2:{ left. exists e. intros g. now rewrite length_map, EL, EN. }
  destruct (getitem X (-2)) as [xl'|e] eqn:E2.
  2:{ left. exists e. intros g. now rewrite length_map, EL, EN. }
  destruct (getitem W (-1)) as [wl|e] eqn:E3.
  2:{ left. exists e. intros g. rewrite length_map, EL, EN. cbn [bind].
      now rewrite getitem_map, E3. }
  destruct (getitem W (-2)) as [wl'|e] eqn:E4.
  2:{ left. exists e. intros g. rewrite length_map, EL, EN. cbn [bind].
      now rewrite !getitem_map, E3, E4. }
  destruct (getitem X 1) as [x1|e] eqn:E5.
  2:{ left. exists e. intros g. rewrite length_map, EL, EN. cbn [bind].
      now rewrite !getitem_map, E3, E4. }
  destruct (getitem X 0) as [x0|e] eqn:E6.
  2:{ left. exists e. intros g. rewrite length_map, EL, EN. cbn [bind].
      now rewrite !getitem_map, E3, E4. }
  destruct (getitem W 1) as [w1|e] eqn:E7.
  2:{ left. exists e. intros g. rewrite length_map, EL, EN. cbn [bind].
      now rewrite !getitem_map, E3, E4, E7. }
  destruct (getitem W 0) as [w0|e] eqn:E8.
  2:{ left. exists e. intros g. rewrite length_map, EL, EN. cbn [bind].
      now rewrite !getitem_map, E3, E4, E7, E8. }
  right.
  exists (fun g =>
            (basic_simps (map g W) 0 (Z.of_nat (List.length W) - 3) X
             + basic_simps (map g W) 1 (Z.of_nat (List.length W) - 2) X) / 2
            + (0 + (1 # 2) * (xl - xl') * (g wl + g wl')
               + (1 # 2) * (x1 - x0) * (g w1 + g w0)) / 2).
  split.
  - intros g. rewrite length_map, EL, EN. cbn [bind].
    rewrite !getitem_map, E3, E4, E7, E8. reflexivity.
  - destruct (basic_simps_linear_in_y W 0 (Z.of_nat (List.length W) - 3) X)
      as [A0 S0].
    destruct (basic_simps_linear_in_y W 1 (Z.of_nat (List.length W) - 2) X)
      as [A1 S1].
    split.
    + intros g1 g2. cbv beta in A0, A1 |- *. rewrite A0, A1. field.
    + intros c g. cbv beta in S0, S1 |- *. rewrite S0, S1. field.
Qed.

End LinearInY.

Lemma row0_spectrum_of (f : Q -> Q -> Q -> Q) (rows : list (Q * Q * Q)) :
  row0 (spectrum_of f rows) = map (fun r => fst (fst r)) rows.
Proof. unfold row0, spectrum_of. now rewrite map_map. Qed.

Lemma row1_spectrum_of (f : Q -> Q -> Q -> Q) (rows : list (Q * Q * Q)) :
  row1 (spectrum_of f rows)
  = map (fun r => f (fst (fst r)) (snd (fst r)) (snd r)) rows.
Proof. unfold row1, spectrum_of. now rewrite map_map. Qed.

(** [Integrate] on a grid: the same exception for all [y]-values, or a
    value that is linear in them. *)
Lemma Integrate_shape {I} (x : I -> Q) (rows : list I) (iedges : list Z) :
  (exists e, forall g,
      Integrate (map (fun r => (x r, g r)) rows) iedges = Raise e) \/
  (exists S, (forall g,
                 Integrate (map (fun r => (x r, g r)) rows) iedges = Ok (S g)) /\
             linear_in_y S).
Proof.
  assert (R0 : forall g, row0 (map (fun r => (x r, g r)) rows) = map x rows)
    by (intros g; unfold row0; now rewrite map_map).
  assert (R1 : forall g : I -> Q,
             row1 (map (fun r => (x r, g r)) rows) = map g rows)
    by (intros g; unfold row1; now rewrite map_map).
  unfold Integrate.
  destruct (getitem iedges 0) as [e0|e]; [|left; now exists e].
  destruct (getitem iedges 1) as [e1|e]; [|left; now exists e].
  cbn [bind].
  destruct (simps_shape (slice rows e0 (e1 + 1)) (slice (map x rows) e0 (e1 + 1)))
    as [(e & He)|(S & HS & [SA SS])].
  { left. exists e. intros g. now rewrite R0, R1, slice_map, He. }
  destruct (getitem (map x rows) e1) as [xr|e] eqn:E1.
  2:{ left. exists e. intros g. rewrite R0, R1, slice_map, HS. cbn [bind].
      now rewrite E1. }
  destruct (getitem (map x rows) e0) as [xl|e] eqn:E2.
  2:{ left. exists e. intros g. rewrite R0, R1, slice_map, HS. cbn [bind].
      now rewrite E1, E2. }
  destruct (getitem rows e1) as [rr|e] eqn:E3.
  2:{ left. exists e. intros g. rewrite R0, R1, slice_map, HS. cbn [bind].
      now rewrite E1, E2, getitem_map, E3. }
  destruct (getitem rows e0) as [rl|e] eqn:E4.
  2:{ left. exists e. intros g. rewrite R0, R1, slice_map, HS. cbn [bind].
      now rewrite E1, E2, !getitem_map, E3, E4. }
  right. exists (fun g => S g - (1 # 2) * (xr - xl) * (g rr + g rl)).
  split.
  - intros g. rewrite R0, R1, slice_map, HS. cbn [bind].
    rewrite E1, E2, !getitem_map, E3, E4. reflexivity.
  - split.
    + intros g1 g2. cbv beta. rewrite SA. ring.
    + intros c g. cbv beta. rewrite SS. ring.
Qed.

(** X9: [Integrate] is linear in the [y]-values.  For two spectra on the
    same grid and their combination [c1*y1 + c2*y2], either the three calls
    raise the same exception, or the integral of the combination is the same
    combination of the two integrals (in exact arithmetic). *)
Theorem Integrate_linear_in_y (c1 c2 : Q) (rows : list (Q * Q * Q))
        (iedges : list Z) :
  match Integrate (spectrum_of (fun _ y1 _ => y1) rows) iedges,
        Integrate (spectrum_of (fun _ _ y2 => y2) rows) iedges,
        Integrate (spectrum_of (fun _ y1 y2 => c1 * y1 + c2 * y2) rows) iedges
  with
  | Ok r1, Ok r2, Ok r => r == c1 * r1 + c2 * r2
  | Raise e1, Raise e2, Raise e => e1 = e /\ e2 = e
  | _, _, _ => False
  end.
Proof.
  destruct (Integrate_shape (fun r : Q * Q * Q => fst (fst r)) rows iedges)
    as [(e & He)|(S & HS & [SA SS])].
  - unfold spectrum_of.
    rewrite (He (fun r => snd (fst r))), (He (fun r => snd r)),
      (He (fun r => c1 * snd (fst r) + c2 * snd r)).
    now split.
  - unfold spectrum_of.
    rewrite (HS (fun r => snd (fst r))), (HS (fun r => snd r)),
      (HS (fun r => c1 * snd (fst r) + c2 * snd r)).
    rewrite (SA (fun r => c1 * snd (fst r)) (fun r => c2 * snd r)).
    now rewrite !SS.
Qed.

(** ** The Integrator does not see a linear background *)

Lemma map_pair_eta {A C} (l : list (A * C)) :
  map (fun p => (fst p, snd p)) l = l.
Proof.
  induction l as [|[u v] l IH]; [reflexivity|]. cbn. now rewrite IH.
Qed.

(** The line [a*x + b] sampled on the grid of a spectrum integrates to 0. *)
Lemma Integrate_line_part (arr : array2 Q) (i0 i1 : nat) (a b : Q) :
  (i0 < i1)%nat -> (i1 < List.length arr)%nat ->
  (forall k, (i0 <= k < i1)%nat ->
             fst (nth k arr (0, 0)) < fst (nth (S k) arr (0, 0))) ->
  exists r,
    Integrate (map (fun p => (fst p, a * fst p + b)) arr)
              [Z.of_nat i0; Z.of_nat i1] = Ok r /\ r == 0.
Proof.
  intros H01 H1 Hinc.
  set (line := map (fun p : Q * Q => (fst p, a * fst p + b)) arr).
  assert (Hx : forall k, nth k (row0 line) 0 = fst (nth k arr (0, 0))).
  { intros k. unfold row0, line. rewrite map_map. cbn [fst].
    exact (map_nth fst arr (0, 0) k). }
  assert (Hy : forall k, (k < List.length arr)%nat ->
                         nth k (row1 line) 0 = a * fst (nth k arr (0, 0)) + b).
  { intros k Hk. unfold row1, line. rewrite map_map. cbn [snd].
    rewrite (nth_indep _ 0 (a * fst (0, 0) + b))
      by (now rewrite length_map).
    exact (map_nth (fun p => a * fst p + b) arr (0, 0) k). }
  assert (Hl0 : List.length (row0 line) = List.length arr)
    by (unfold row0, line; now rewrite !length_map).
  assert (Hl1 : List.length (row1 line) = List.length arr)
    by (unfold row1, line; now rewrite !length_map).
  unfold Integrate.
  change (getitem [Z.of_nat i0; Z.of_nat i1] 0) with (Ok (Z.of_nat i0)).
  change (getitem [Z.of_nat i0; Z.of_nat i1] 1) with (Ok (Z.of_nat i1)).
  cbn [bind].
  replace (Z.of_nat i1 + 1)%Z with (Z.of_nat (i1 + 1)) by lia.
  rewrite (slice_nat (row0 line) i0 (i1 + 1)) by lia.
  rewrite (slice_nat (row1 line) i0 (i1 + 1)) by lia.
  set (n := (i1 + 1 - i0)%nat).
  assert (Hn : n = (i1 + 1 - i0)%nat) by reflexivity. clearbody n.
  set (xs := firstn n (skipn i0 (row0 line))).
  set (ys := firstn n (skipn i0 (row1 line))).
  assert (Lx : List.length xs = n) by (apply length_window; lia).
  assert (Ly : List.length ys = n) by (apply length_window; lia).
  destruct (simps_linear a b xs ys) as (r0 & Hr0 & Er0).
  - congruence.
  - intros k Hk. unfold xs, ys. rewrite !nth_window by lia.
    rewrite Hx, Hy by lia. reflexivity.
  - intros k Hk. unfold xs. rewrite !nth_window by lia.
    rewrite !Hx. replace (i0 + (k + 1))%nat with (S (i0 + k)) by lia.
    apply Hinc. lia.
  - lia.
  - rewrite Hr0. cbn [bind].
    rewrite !(getitem_nat (row0 line) _ 0) by lia.
    rewrite !(getitem_nat (row1 line) _ 0) by lia.
    cbn [bind]. eexists; split; [reflexivity|].
    rewrite Er0, Lx. unfold xs. rewrite !nth_window by lia.
    rewrite !Hx, !Hy by lia. qnum.
    replace (i0 + (n - 1))%nat with i1 by lia. rewrite Nat.add_0_r.
    unfold antiderivative. field.
Qed.

(** X10: in exact arithmetic, adding a line [a*x + b] to the spectrum does
    not change what [Integrate] returns between two boundaries [i0 < i1]
    across which [x] increases strictly: the trapezoid that is subtracted
    removes any linear background under the peak. *)
Theorem Integrate_baseline (arr : array2 Q) (i0 i1 : nat) (a b : Q) :
  (i0 < i1)%nat -> (i1 < List.length arr)%nat ->
  (forall k, (i0 <= k < i1)%nat ->
             fst (nth k arr (0, 0)) < fst (nth (S k) arr (0, 0))) ->
  exists r r',
    Integrate arr [Z.of_nat i0; Z.of_nat i1] = Ok r /\
    Integrate (add_line a b arr) [Z.of_nat i0; Z.of_nat i1] = Ok r' /\
    r' == r.
Proof.
  intros H01 H1 Hinc.
  destruct (Integrate_line_part arr i0 i1 a b H01 H1 Hinc) as (r0 & Hr0 & E0).
  destruct (Integrate_shape (fun p : Q * Q => fst p) arr
                            [Z.of_nat i0; Z.of_nat i1])
    as [(e & He)|(S & HS & [SA _])].
  - rewrite (He (fun p => a * fst p + b)) in Hr0. discriminate Hr0.
  - exists (S snd), (S (fun p => snd p + (a * fst p + b))).
    split; [|split].
    + rewrite <- (HS snd). now rewrite map_pair_eta.
    + exact (HS (fun p => snd p + (a * fst p + b))).
    + rewrite (SA snd (fun p => a * fst p + b)).
      rewrite (HS (fun p => a * fst p + b)) in Hr0. injection Hr0 as ->.
      rewrite E0. ring.
Qed.

(** The 12-sample peak between the samples 1 and 8, with the line
    [3*x + 7] added. *)
Lemma Integrate_baseline_witness :
  exists r r',
    Integrate peak_xy [Z.of_nat 1; Z.of_nat 8] = Ok r /\
    Integrate (add_line 3 7 peak_xy) [Z.of_nat 1; Z.of_nat 8] = Ok r' /\
    r' == r.
Proof.
  apply (Integrate_baseline peak_xy 1 8 3 7).
  - lia.
  - cbn. lia.
  - intros k Hk.
    do 8 (destruct k as [|k]; [try lia; vm_compute; reflexivity|]). lia.
Defined.

(** ** Dictionaries *)

Lemma sdict_get_set_same {V} (d : sdict V) (k : string) (v : V) :
  sdict_get (sdict_set d k v) k = Some v.
Proof.
  induction d as [|[k' v'] d IH]; cbn.
  - now rewrite String.eqb_refl.
  - destruct (String.eqb k' k) eqn:E; cbn; rewrite E; [reflexivity|exact IH].
Qed.

Lemma sdict_get_set_other {V} (d : sdict V) (k k' : string) (v : V) :
  k <> k' -> sdict_get (sdict_set d k v) k' = sdict_get d k'.
Proof.
  intros Hne. induction d as [|[k0 v0] d IH]; cbn.
  - now apply String.eqb_neq in Hne as ->.
  - destruct (String.eqb_spec k0 k) as [->|Hk]; cbn.
    + now apply String.eqb_neq in Hne as ->.
    + destruct (String.eqb k0 k'); [reflexivity|exact IH].
Qed.

(** ** The running means of [Summer] *)

Section RunningMean.

(** What the three dictionaries hold once the calls [ops] have been made. *)
Let holds (s : Summer Q) (ops : list (string * Q)) : Prop :=
  forall key,
    match amounts_of key ops with
    | [] => sdict_get (values s) key = None /\
            sdict_get (counts s) key = None /\
            sdict_get (lists s) key = None
    | _ :: _ =>
        sdict_get (lists s) key = Some (amounts_of key ops) /\
        sdict_get (counts s) key
        = Some (Z.of_nat (List.length (amounts_of key ops))) /\
        exists v, sdict_get (values s) key = Some v /\
                  v == qsum (amounts_of key ops)
                       / inject_Z (Z.of_nat (List.length (amounts_of key ops)))
    end.

Lemma amounts_of_snoc (key k : string) (a : Q) (done : list (string * Q)) :
  amounts_of key (done ++ [(k, a)])
  = amounts_of key done ++ (if String.eqb k key then [a] else []).
Proof.
  unfold amounts_of. rewrite filter_app, map_app. cbn [filter fst].
  now destruct (String.eqb k key).
Qed.

Lemma qsum_snoc (l : list Q) (a : Q) : qsum (l ++ [a]) == qsum l + a.
Proof.
  induction l as [|x l IH]; unfold qsum in *; cbn [app fold_right]; [ring|].
  rewrite IH. ring.
Qed.

Lemma Summer_append_holds (s : Summer Q) (done : list (string * Q))
      (k : string) (a : Q) :
  holds s done ->
  exists s', Summer_append s k a = Some s' /\ holds s' (done ++ [(k, a)]).
Proof.
  intros H. unfold Summer_append.
  pose proof (H k) as Hk.
  destruct (amounts_of k done) as [|a0 L] eqn:EL.
  - destruct Hk as (Hv & Hc & Hl). rewrite Hv. cbn [values counts lists].
    rewrite !sdict_get_set_same.
    eexists. split; [reflexivity|].
    intros key. rewrite amounts_of_snoc. cbn [values counts lists].
    destruct (String.eqb_spec k key) as [<-|Hne].
    + rewrite EL. cbn [app List.length]. rewrite !sdict_get_set_same.
      split; [reflexivity|]. split; [reflexivity|].
      eexists. split; [reflexivity|]. qnum. unfold qsum. cbn. field.
    + rewrite app_nil_r. rewrite !sdict_get_set_other by exact Hne.
      exact (H key).
  - destruct Hk as (Hl & Hc & v & Hv & Ev). rewrite Hv. cbv zeta.
    rewrite Hv, Hc, Hl.
    eexists. split; [reflexivity|].
    intros key. rewrite amounts_of_snoc. cbn [values counts lists].
    destruct (String.eqb_spec k key) as [<-|Hne].
    + rewrite EL. rewrite !sdict_get_set_same.
      destruct ((a0 :: L) ++ [a]) as [|? ?] eqn:E; [discriminate E|].
      rewrite <- E. clear E.
      split; [reflexivity|]. split.
      { rewrite length_app. cbn [List.length]. f_equal. lia. }
      eexists. split; [reflexivity|]. qnum.
      rewrite Ev, qsum_snoc, length_app. cbn [List.length].
      rewrite !Nat2Z.inj_add, !Nat2Z.inj_succ. rewrite !inject_Z_plus.
      unfold Z.succ. rewrite !inject_Z_plus.
      assert (Hpos : 0 <= inject_Z (Z.of_nat (List.length L)))
        by (change 0 with (inject_Z 0); rewrite <- Zle_Qle; lia).
      change (inject_Z (Z.of_nat 0)) with 0. change (inject_Z 1) with 1.
      field. split; lra.
    + rewrite app_nil_r. rewrite !sdict_get_set_other by exact Hne.
      exact (H key).
Qed.

Lemma Summer_appends_holds (rest done : list (string * Q)) (s : Summer Q) :
  holds s done ->
  exists s', Summer_appends s rest = Some s' /\ holds s' (done ++ rest).
Proof.
  revert done s. induction rest as [|[k a] rest IH]; intros done s H.
  - exists s. split; [reflexivity|]. now rewrite app_nil_r.
  - cbn [Summer_appends].
    destruct (Summer_append_holds s done k a H) as (s1 & -> & H1).
    destruct (IH _ _ H1) as (s' & Hs' & H').
    exists s'. split; [exact Hs'|]. now rewrite <- app_assoc in H'.
Qed.

(** X11: a [Summer] that has received the calls [append(key, amount)] of
    [ops], in exact arithmetic: no lookup fails; for a key that was given
    amounts, [lists] holds them in order, [counts] their number, [values]
    their arithmetic mean, and [get_stats] returns that mean as its first
    component; any other key is in none of the dictionaries. *)
Theorem Summer_running_mean (ops : list (string * Q)) :
  exists s,
    Summer_appends Summer_init ops = Some s /\
    forall key,
      match amounts_of key ops with
      | [] => sdict_get (values s) key = None /\
              sdict_get (counts s) key = None /\
              sdict_get (lists s) key = None /\
              Summer_get_stats s key = None
      | _ :: _ =>
          sdict_get (lists s) key = Some (amounts_of key ops) /\
          sdict_get (counts s) key
          = Some (Z.of_nat (List.length (amounts_of key ops))) /\
          exists v m var,
            sdict_get (values s) key = Some v /\
            v == qsum (amounts_of key ops)
                 / inject_Z (Z.of_nat (List.length (amounts_of key ops))) /\
            Summer_get_stats s key = Some (m, var) /\ m == v
      end.
Proof.
  destruct (Summer_appends_holds ops [] Summer_init) as (s & Hs & H).
  { intros key. cbn. auto. }
  exists s. split; [exact Hs|]. intros key. cbn [app] in H.
  specialize (H key). unfold Summer_get_stats.
  destruct (amounts_of key ops) as [|a0 L].
  - destruct H as (Hv & Hc & Hl). rewrite Hl. auto.
  - destruct H as (Hl & Hc & v & Hv & Ev). rewrite Hl.
    split; [reflexivity|]. split; [exact Hc|].
    exists v, (np_mean (a0 :: L)), (np_var (a0 :: L)).
    split; [exact Hv|]. split; [exact Ev|]. split; [reflexivity|].
    rewrite Ev. unfold np_mean. qnum. now rewrite np_sum_qsum.
Qed.

End RunningMean.

(** ** The percentages of [Summer] *)

Lemma py_insert_perm {A} (leb : A -> A -> bool) (x : A) (l : list A) :
  Permutation (py_insert leb x l) (x :: l).
Proof.
  induction l as [|y l IH]; cbn; [reflexivity|].
  destruct (leb x y); [reflexivity|]. rewrite IH. apply perm_swap.
Qed.

Lemma py_sorted_perm {A} (leb : A -> A -> bool) (l : list A) :
  Permutation (py_sorted leb l) l.
Proof.
  induction l as [|x l IH]; cbn; [reflexivity|].
  rewrite py_insert_perm. now constructor.
Qed.

Lemma qsum_perm (l l' : list Q) : Permutation l l' -> qsum l == qsum l'.
Proof.
  induction 1 as [|x l l' _ IH|x y l|l l' l'' _ IH1 _ IH2];
    unfold qsum in *; cbn [fold_right].
  - reflexivity.
  - now rewrite IH.
  - ring.
  - now rewrite IH1.
Qed.

Lemma sdict_get_notin {V} (d : sdict V) (k : string) :
  ~ In k (map fst d) -> sdict_get d k = None.
Proof.
  induction d as [|[k' v] d IH]; cbn; [reflexivity|]. intros H.
  destruct (String.eqb_spec k' k) as [->|_]; [exfalso; apply H; now left|].
  apply IH. intros Hin. apply H. now right.
Qed.

Lemma sdict_get_in {V} (d : sdict V) (k : string) (v : V) :
  dict_ok d -> In (k, v) d -> sdict_get d k = Some v.
Proof.
  unfold dict_ok. induction d as [|[k' v'] d IH]; cbn; [tauto|].
  intros Hd [[= -> ->]|Hin].
  - now rewrite String.eqb_refl.
  - inversion Hd as [|? ? Hni Hd']; subst.
    destruct (String.eqb_spec k' k) as [->|_]; [|now apply IH].
    exfalso. apply Hni. apply in_map_iff. now exists (k, v).
Qed.

(** Looking every key of a dictionary up gives its values, in order. *)
Lemma lookup_all {V} (d : sdict V) :
  dict_ok d ->
  flat_map (fun key => match sdict_get d key with
                       | Some v => [v]
                       | None => []
                       end) (map fst d)
  = map snd d.
Proof.
  intros Hd. rewrite flat_map_concat_map, map_map.
  rewrite (map_ext_in _ (fun kv => [snd kv])).
  - induction d as [|kv d IH]; [reflexivity|]. cbn. f_equal.
    apply IH. now inversion Hd.
  - intros [k v] Hin. cbn [fst snd].
    now rewrite (sdict_get_in d k v Hd Hin).
Qed.

Lemma Summer_sum_values (s : Summer Q) :
  dict_ok (values s) -> Summer_sum s == qsum (map snd (values s)).
Proof.
  intros Hd. unfold Summer_sum, Summer_get_as_lists. cbn [snd].
  rewrite np_sum_qsum. rewrite <- (lookup_all (values s) Hd).
  apply qsum_perm, Permutation_flat_map, py_sorted_perm.
Qed.

Lemma qsum_map_div (c : Q) (l : list Q) :
  qsum (map (fun v => v / c) l) == qsum l / c.
Proof.
  induction l as [|x l IH]; unfold qsum in *; cbn [map fold_right].
  - unfold Qdiv. ring.
  - rewrite IH. unfold Qdiv. ring.
Qed.

Lemma qsum_map_mul (c : Q) (l : list Q) :
  qsum (map (fun v => v * c) l) == qsum l * c.
Proof.
  induction l as [|x l IH]; unfold qsum in *; cbn [map fold_right].
  - ring.
  - rewrite IH. ring.
Qed.

(** X12: the shares that [percentage] returns, unrounded, are listed under
    the keys of [values] in their order and add up to 1, or to 100 with
    [outof100] (in exact arithmetic, when the means do not add up to 0). *)
Theorem Summer_percentage_total (np_round : Q -> Z -> Q) (s : Summer Q) :
  dict_ok (values s) -> ~ Summer_sum s == 0 ->
  map fst (Summer_percentage np_round s false None) = map fst (values s) /\
  map fst (Summer_percentage np_round s true None) = map fst (values s) /\
  qsum (map snd (Summer_percentage np_round s false None)) == 1 /\
  qsum (map snd (Summer_percentage np_round s true None)) == 100.
Proof.
  intros Hd Hs. unfold Summer_percentage. rewrite !map_map. cbn [fst snd].
  split; [reflexivity|]. split; [reflexivity|]. qnum.
  pose proof (Summer_sum_values s Hd) as E.
  split.
  - rewrite <- (map_map snd (fun v => v / Summer_sum s)).
    rewrite qsum_map_div, <- E. field. exact Hs.
  - rewrite <- (map_map snd (fun v => v / Summer_sum s * inject_Z 100)).
    rewrite <- (map_map (fun v => v / Summer_sum s) (fun v => v * inject_Z 100)).
    rewrite qsum_map_mul, qsum_map_div, <- E.
    change (inject_Z 100) with 100. field. exact Hs.
Qed.

(** Means 1 and 3 under the keys "Ta-181" and "W-182": shares 1/4 and
    3/4. *)
Lemma Summer_percentage_total_witness :
  let s := {| values := [("Ta-181"%string, 1); ("W-182"%string, 3)];
              counts := [("Ta-181"%string, 1%Z); ("W-182"%string, 1%Z)];
              lists := [("Ta-181"%string, [1]); ("W-182"%string, [3])] |} in
  map fst (Summer_percentage (fun x _ => x) s false None) = map fst (values s) /\
  map fst (Summer_percentage (fun x _ => x) s true None) = map fst (values s) /\
  qsum (map snd (Summer_percentage (fun x _ => x) s false None)) == 1 /\
  qsum (map snd (Summer_percentage (fun x _ => x) s true None)) == 100.
Proof.
  apply (Summer_percentage_total (fun x _ => x)).
  - repeat constructor; cbn; intuition discriminate.
  - vm_compute. discriminate.
Defined.

(** ** The volumes of [Catalog] *)

Lemma sdict_set_keys {V} (d : sdict V) (k : string) (v : V) :
  map fst (sdict_set d k v)
  = if existsb (String.eqb k) (map fst d) then map fst d
    else map fst d ++ [k].
Proof.
  induction d as [|[k' v'] d IH]; cbn; [reflexivity|].
  rewrite (String.eqb_sym k k').
  destruct (String.eqb k' k); cbn; [reflexivity|].
  rewrite IH. now destruct (existsb (String.eqb k) (map fst d)).
Qed.

Lemma sdict_set_ok {V} (d : sdict V) (k : string) (v : V) :
  dict_ok d -> dict_ok (sdict_set d k v).
Proof.
  unfold dict_ok. intros Hd. rewrite sdict_set_keys.
  destruct (existsb (String.eqb k) (map fst d)) eqn:E; [exact Hd|].
  apply NoDup_app; [exact Hd|repeat constructor; intros []|].
  intros x Hx [<-|[]].
  assert (existsb (String.eqb k) (map fst d) = true); [|congruence].
  apply existsb_exists. exists k. split; [exact Hx|apply String.eqb_refl].
Qed.

Lemma dict_merge_ok {V} (a b : sdict V) :
  dict_ok a -> dict_ok (dict_merge a b).
Proof.
  revert a. induction b as [|[k v] b IH]; intros a Ha; [exact Ha|].
  apply IH. now apply sdict_set_ok.
Qed.

(** In [dict(a, **b)] the entries of [b] win. *)
Lemma sdict_get_merge {V} (a b : sdict V) (k : string) :
  dict_ok b ->
  sdict_get (dict_merge a b) k
  = match sdict_get b k with
    | Some v => Some v
    | None => sdict_get a k
    end.
Proof.
  revert a. induction b as [|[k0 v0] b IH]; intros a Hb; [reflexivity|].
  unfold dict_ok in Hb. cbn [map fst] in Hb.
  inversion Hb as [|? ? Hni Hb']; subst.
  change (dict_merge a ((k0, v0) :: b)) with (dict_merge (sdict_set a k0 v0) b).
  rewrite IH by exact Hb'. cbn [sdict_get].
  destruct (String.eqb_spec k0 k) as [->|Hne].
  - now rewrite (sdict_get_notin b k Hni), sdict_get_set_same.
  - now rewrite sdict_get_set_other by exact Hne.
Qed.

Lemma filter_keys_incl {V} (p : string * V -> bool) (d : sdict V) (k : string) :
  In k (map fst (filter p d)) -> In k (map fst d).
Proof.
  intros H. apply in_map_iff in H as (kv & <- & Hin).
  apply filter_In in Hin as [Hin _]. now apply in_map.
Qed.

Lemma filter_ok {V} (p : string * V -> bool) (d : sdict V) :
  dict_ok d -> dict_ok (filter p d).
Proof.
  unfold dict_ok. induction d as [|kv d IH]; cbn; [trivial|].
  intros Hd. inversion Hd as [|? ? Hni Hd']; subst.
  destruct (p kv); cbn; [|now apply IH].
  constructor; [|now apply IH].
  intros Hin. apply Hni. now apply filter_keys_incl in Hin.
Qed.

Lemma sdict_get_filter {V} (p : V -> bool) (d : sdict V) (k : string) :
  dict_ok d ->
  sdict_get (filter (fun kv => p (snd kv)) d) k
  = match sdict_get d k with
    | Some v => if p v then Some v else None
    | None => None
    end.
Proof.
  unfold dict_ok. induction d as [|[k0 v0] d IH]; cbn; [reflexivity|].
  intros Hd. inversion Hd as [|? ? Hni Hd']; subst.
  destruct (String.eqb_spec k0 k) as [->|Hne].
  - destruct (p v0); cbn; [now rewrite String.eqb_refl|].
    apply sdict_get_notin. intros Hin. apply Hni.
    now apply filter_keys_incl in Hin.
  - destruct (p v0); cbn; [|now apply IH].
    apply String.eqb_neq in Hne as ->. now apply IH.
Qed.

Section CatalogProperties.

Context {E : Type}.
Variable mode_of : E -> string.

Lemma discriminate_ok (d : sdict E) (mode : option string) :
  dict_ok d -> dict_ok (Catalog_discriminate mode_of d mode).
Proof.
  intros Hd. unfold Catalog_discriminate.
  destruct (no_mode mode); [exact Hd|]. now apply filter_ok.
Qed.

(** The lookup in [Substances(mode)], whatever the mode. *)
Lemma Substances_lookup (self : Catalog E) (mode : option string)
      (k : string) :
  catalog_ok self ->
  sdict_get (Substances mode_of self mode) k
  = first_some
      [sdict_get (Samples mode_of self mode) k;
       sdict_get (Compounds mode_of self mode) k;
       sdict_get (Elements mode_of self mode) k;
       sdict_get (Isotopes mode_of self mode) k].
Proof.
  intros (Hi & He & Hc & Hs).
  unfold Substances, Datas, Mixes.
  rewrite sdict_get_merge by (now apply discriminate_ok).
  destruct (sdict_get (Samples mode_of self mode) k); [reflexivity|].
  rewrite sdict_get_merge
    by (apply dict_merge_ok; now apply discriminate_ok).
  rewrite sdict_get_merge by (now apply discriminate_ok).
  cbn [first_some].
  destruct (sdict_get (Compounds mode_of self mode) k); [reflexivity|].
  destruct (sdict_get (Elements mode_of self mode) k); [reflexivity|].
  now destruct (sdict_get (Isotopes mode_of self mode) k).
Qed.

(** X13: [Catalog.get] looks a name up in the samples first, then in the
    compounds, the elements and the isotopes, and returns [otherwise] when
    none of the volumes has it: an entry hides the entries of the same name
    in the volumes that come later in this order. *)
Theorem Catalog_get_precedence (self : Catalog E) (inp : string)
        (otherwise : option E) :
  catalog_ok self ->
  Catalog_get mode_of self inp otherwise
  = match first_some [sdict_get (samples self) inp;
                      sdict_get (compounds self) inp;
                      sdict_get (elements self) inp;
                      sdict_get (isotopes self) inp] with
    | Some e => Some e
    | None => otherwise
    end.
Proof.
  intros H. unfold Catalog_get. now rewrite Substances_lookup by exact H.
Qed.

(** X14: with a mode [m] (not the empty string) [Substances] holds, under a
    name, the entity of mode [m] found first in the samples, the compounds,
    the elements, the isotopes: the volumes are filtered before they are
    merged, so an entity of another mode hides nothing. *)
Theorem Substances_by_mode (self : Catalog E) (m k : string) :
  catalog_ok self -> m <> ""%string ->
  sdict_get (Substances mode_of self (Some m)) k
  = first_some [get_in_mode mode_of m (samples self) k;
                get_in_mode mode_of m (compounds self) k;
                get_in_mode mode_of m (elements self) k;
                get_in_mode mode_of m (isotopes self) k].
Proof.
  intros H Hm. rewrite Substances_lookup by exact H.
  destruct H as (Hi & He & Hc & Hs).
  unfold Samples, Compounds, Elements, Isotopes, Catalog_discriminate, no_mode.
  apply String.eqb_neq in Hm as ->.
  rewrite !(sdict_get_filter (fun e => String.eqb (mode_of e) m))
    by assumption.
  reflexivity.
Qed.

(** X15: [Catalog.update] merges into each volume the dictionary given for
    it: a name found there gets the new entity, every other name keeps what
    it had, and a volume for which nothing is given is left as it was. *)
Theorem Catalog_update_lookup (self : Catalog E) (kwargs : sdict (sdict E))
        (volume k : string) :
  In volume volumes -> dict_ok (kwargs_get kwargs volume) ->
  sdict_get (volume_of (Catalog_update self kwargs) volume) k
  = match sdict_get (kwargs_get kwargs volume) k with
    | Some e => Some e
    | None => sdict_get (volume_of self volume) k
    end /\
  (sdict_get kwargs volume = None ->
   volume_of (Catalog_update self kwargs) volume = volume_of self volume).
Proof.
  intros Hv Hk.
  assert (Hm : volume_of (Catalog_update self kwargs) volume
               = dict_merge (volume_of self volume) (kwargs_get kwargs volume)).
  { destruct Hv as [<-|[<-|[<-|[<-|[]]]]]; reflexivity. }
  rewrite Hm. split; [now apply sdict_get_merge|].
  intros Hn. unfold kwargs_get. now rewrite Hn.
Qed.

End CatalogProperties.

Lemma example_catalog_ok : catalog_ok example_catalog.
Proof.
  repeat split; repeat constructor; cbn; intuition discriminate.
Qed.

(** The sample named "Ta-181" hides the isotope of that name. *)
Lemma Catalog_get_precedence_witness :
  Catalog_get (@mode Q) example_catalog "Ta-181" None = Some example_sample.
Proof.
  rewrite (Catalog_get_precedence (@mode Q) example_catalog "Ta-181" None
             example_catalog_ok).
  reflexivity.
Defined.

(** Asked for the mode "n-g", the sample of mode "n-tot" hides nothing. *)
Lemma Substances_by_mode_witness :
  sdict_get (Substances (@mode Q) example_catalog (Some "n-g"%string)) "Ta-181"
  = Some one_peak.
Proof.
  rewrite (Substances_by_mode (@mode Q) example_catalog "n-g" "Ta-181"
             example_catalog_ok ltac:(discriminate)).
  reflexivity.
Defined.

(** A new entity for the name "flat" in the volume of the isotopes; the
    name "Ta-181" keeps its entity. *)
Lemma Catalog_update_lookup_witness :
  let kwargs := [("isotopes"%string, [("flat"%string, three_candidates)])] in
  sdict_get (volume_of (Catalog_update example_catalog kwargs) "isotopes") "flat"
  = Some three_candidates /\
  sdict_get (volume_of (Catalog_update example_catalog kwargs) "isotopes")
            "Ta-181"
  = Some one_peak.
Proof.
  intros kwargs.
  assert (Hok : dict_ok (kwargs_get kwargs "isotopes"))
    by (repeat constructor; cbn; intuition).
  split.
  - rewrite (proj1 (Catalog_update_lookup example_catalog kwargs
                      "isotopes" "flat" ltac:(now left) Hok)).
    reflexivity.
  - rewrite (proj1 (Catalog_update_lookup example_catalog kwargs
                      "isotopes" "Ta-181" ltac:(now left) Hok)).
    reflexivity.
Defined.

(** ** [RankNearest] *)

Lemma dict_get_found {V} (d : list (Z * V)) (k : Z) :
  In k (map fst d) -> exists v, dict_get d k = Some v /\ In v (map snd d).
Proof.
  induction d as [|[k' v'] d IH]; cbn; [tauto|].
  intros [->|Hin].
  - rewrite Z.eqb_refl. exists v'. split; [reflexivity|now left].
  - destruct (k' =? k)%Z; [exists v'; split; [reflexivity|now left]|].
    destruct (IH Hin) as (v & Hv & Hv'). exists v. split; [exact Hv|now right].
Qed.

Section Nearest.

Context {AS : ArgSort}.
Variable peakattr_has : string -> bool.
Hypothesis has_center_tof : peakattr_has "center_tof" = true.

Lemma get_from_peaks_length {V} (isot : DataObject Q) (field : Peak Q -> V) :
  exists cs,
    get_from_peaks peakattr_has isot "center_tof" field = Some cs /\
    List.length cs = List.length (peaks isot).
Proof.
  unfold get_from_peaks. rewrite has_center_tof. eexists. split; [reflexivity|].
  rewrite <- (length_map fst (peaks isot)).
  rewrite <- (Permutation_length (py_sorted_perm Z.leb (map fst (peaks isot)))).
  assert (H : forall k, In k (py_sorted Z.leb (map fst (peaks isot))) ->
                        In k (map fst (peaks isot)))
    by (intros k; apply Permutation_in, py_sorted_perm).
  induction (py_sorted Z.leb (map fst (peaks isot))) as [|k ks IH];
    [reflexivity|].
  cbn [flat_map]. rewrite length_app, IH by (intros; apply H; now right).
  destruct (dict_get_found (peaks isot) k (H k (or_introl eq_refl)))
    as (v & -> & _).
  reflexivity.
Qed.

Lemma is_nan_Q (x : Q) : is_nan x = false.
Proof. unfold is_nan. qnum. now rewrite Qeq_bool_refl. Qed.

Lemma np_min_from_spec (l : list Q) (cur : Q) :
  In (np_min_from cur l) (cur :: l) /\
  forall x, In x (cur :: l) -> np_min_from cur l <= x.
Proof.
  revert cur. induction l as [|y l IH]; intros cur; cbn [np_min_from].
  - split; [now left|]. intros x [<-|[]]. apply Qle_refl.
  - rewrite !is_nan_Q. qnum.
    destruct (Qle_bool cur y) eqn:E; cbn [negb].
    + apply Qle_bool_iff in E.
      destruct (IH cur) as [Hin Hle]. split.
      * destruct Hin as [H|H]; [now left|right; now right].
      * intros x [<-|[<-|Hx]].
        -- apply Hle. now left.
        -- eapply Qle_trans; [apply Hle; now left|exact E].
        -- apply Hle. now right.
    + assert (Hlt : y < cur).
      { apply Qnot_le_lt. intros H. apply Qle_bool_iff in H. congruence. }
      destruct (IH y) as [Hin Hle]. split.
      * destruct Hin as [H|H]; [right; now left|right; now right].
      * intros x [<-|[<-|Hx]].
        -- eapply Qle_trans; [apply Hle; now left|]. now apply Qlt_le_weak.
        -- apply Hle. now left.
        -- apply Hle. now right.
Qed.

Lemma first_where_spec (cond : Q -> bool) (l : list Q) (k : Z) :
  (exists x, In x l /\ cond x = true) ->
  exists n,
    first_where cond l k = Ok (k + Z.of_nat n)%Z /\
    (n < List.length l)%nat /\ cond (nth n l 0) = true /\
    forall j, (j < n)%nat -> cond (nth j l 0) = false.
Proof.
  revert k. induction l as [|y l IH]; intros k (x & Hin & Hx); [destruct Hin|].
  cbn [first_where]. destruct (cond y) eqn:Ey.
  - exists 0%nat. rewrite Z.add_0_r. cbn. repeat split; try lia; auto.
  - destruct Hin as [->|Hin]; [congruence|].
    destruct (IH (k + 1)%Z (ex_intro _ x (conj Hin Hx)))
      as (n & Hn & Hlt & Hc & Hmin).
    exists (S n). split; [rewrite Hn; f_equal; lia|].
    split; [cbn; lia|]. split; [exact Hc|].
    intros [|j] Hj; [exact Ey|]. cbn. apply Hmin. lia.
Qed.

(** The loop of [RankNearest]: one row for each entity with peaks, in the
    order of the dictionary, each naming the nearest peak of its entity. *)
Lemma nearest_rows_spec (Dict : sdict (DataObject Q)) (xx : Q) :
  exists rows,
    nearest_rows peakattr_has Dict xx = Ok rows /\
    map (fun row => fst (fst row)) rows
    = filter (fun isot => negb (List.length (peaks isot) =? 0)%nat)
             (map snd Dict) /\
    Forall (nearest_peak_row peakattr_has xx) rows.
Proof.
  induction Dict as [|[name isot] Dict (rows & Hrows & Hmap & Hall)].
  - exists []. repeat split. constructor.
  - cbn [nearest_rows map snd filter].
    destruct (get_from_peaks_length isot (@center_tof Q)) as (cs & Hcs & Lcs).
    rewrite Hcs, length_map, Lcs.
    destruct (List.length (peaks isot) =? 0)%nat eqn:E0; cbn [negb].
    { exists rows. now rewrite Hrows. }
    apply Nat.eqb_neq in E0.
    destruct cs as [|c0 cs']; [cbn in Lcs; lia|].
    set (cs := c0 :: cs') in *.
    set (dist := map (fun c => nabs (c - xx)%num) cs).
    assert (Hd : dist = Qabs (c0 - xx) :: map (fun c => Qabs (c - xx)) cs')
      by reflexivity.
    rewrite Hd. cbn [np_min bind]. rewrite <- Hd.
    set (m := np_min_from (Qabs (c0 - xx)) (map (fun c => Qabs (c - xx)) cs')).
    destruct (np_min_from_spec (map (fun c => Qabs (c - xx)) cs')
                               (Qabs (c0 - xx))) as [Hin Hle].
    fold m in Hin, Hle. rewrite <- Hd in Hin, Hle.
    destruct (first_where_spec (fun d => neqb d m) dist 0)
      as (n & Hn & Hlt & Hc & Hmin).
    { exists m. split; [exact Hin|]. qnum. apply Qeq_bool_refl. }
    rewrite Hn, Hrows. cbn [bind].
    eexists. split; [reflexivity|]. split; [cbn [map fst]; now rewrite Hmap|].
    constructor; [|exact Hall].
    unfold nearest_peak_row. exists cs. split; [exact Hcs|].
    assert (Ld : List.length dist = List.length cs)
      by (unfold dist; apply length_map).
    assert (Hnth : forall j, nth j dist 0 = Qabs (nth j cs 0 - xx) \/
                             (List.length cs <= j)%nat).
    { intros j. destruct (Nat.lt_ge_cases j (List.length cs)) as [Hj|Hj];
        [left|now right].
      unfold dist. rewrite (nth_indep _ 0 (nabs (0 - xx)%num))
        by (now rewrite length_map).
      exact (map_nth (fun c => nabs (c - xx)%num) cs 0 j). }
    rewrite Z.add_0_l, Nat2Z.id.
    split; [lia|]. split.
    + destruct (Hnth n) as [H|H]; [|lia]. rewrite <- H.
      qnum. apply Qeq_bool_iff in Hc. now symmetry.
    + split.
      * intros c Hc'. apply Hle. unfold dist. apply in_map_iff.
        now exists c.
      * intros j Hj Heq. specialize (Hmin j Hj).
        destruct (Hnth j) as [H|H]; [|lia]. rewrite H in Hmin.
        qnum. apply Qeq_bool_iff in Heq. congruence.
Qed.

(** X16: when [peakattr] knows ['center_tof'], [RankNearest] raises nothing
    and returns one row for each entity of the dictionary that has peaks,
    none for the others, in the order of increasing distance (in exact
    arithmetic). *)
Theorem RankNearest_sorted (Dict : sdict (DataObject Q)) (xx : Q) :
  exists rows,
    RankNearest peakattr_has Dict xx = Ok rows /\
    StronglySorted (fun r1 r2 => snd (fst r1) <= snd (fst r2)) rows /\
    Permutation (map (fun row => fst (fst row)) rows)
                (filter (fun isot => negb (List.length (peaks isot) =? 0)%nat)
                        (map snd Dict)).
Proof.
  destruct (nearest_rows_spec Dict xx) as (rows & Hrows & Hmap & _).
  unfold RankNearest. rewrite Hrows. cbn [bind].
  eexists. split; [reflexivity|].
  destruct rows as [|d rows']; [split; [constructor|now rewrite <- Hmap]|].
  set (rows := d :: rows') in *.
  set (keys := map (fun row : DataObject Q * Q * Z => snd (fst row)) rows).
  assert (Lk : List.length keys = List.length rows) by apply length_map.
  pose proof (argsort_perm sort_leb keys) as Hp. rewrite Lk in Hp.
  split.
  - apply (StronglySorted_map_In (key_le sort_leb keys)).
    + intros i j Hi Hj Hij.
      assert (Bi : (i < List.length rows)%nat)
        by (eapply Permutation_in in Hi; [|exact Hp]; apply in_seq in Hi; lia).
      assert (Bj : (j < List.length rows)%nat)
        by (eapply Permutation_in in Hj; [|exact Hp]; apply in_seq in Hj; lia).
      apply (key_le_nth sort_leb keys (snd (fst d))) in Hij; try lia.
      unfold keys in Hij.
      rewrite !(map_nth (fun row : DataObject Q * Q * Z => snd (fst row))) in Hij.
      now apply Qle_bool_iff in Hij.
    + apply argsort_sorted; [exact Qle_bool_total|exact Qle_bool_trans].
  - rewrite <- Hmap. apply Permutation_map.
    etransitivity; [apply Permutation_map, Hp|]. now rewrite map_nth_seq.
Qed.

End Nearest.

Lemma nearest_rows_no_attr {AS : ArgSort} (peakattr_has : string -> bool)
      (Dict : sdict (DataObject Q)) (xx : Q) (rows : list (DataObject Q * Q * Z)) :
  peakattr_has "center_tof"%string = false ->
  nearest_rows peakattr_has Dict xx = Ok rows -> rows = [].
Proof.
  intros Hf. destruct Dict as [|[name isot] Dict]; cbn [nearest_rows].
  - now intros [= <-].
  - unfold get_from_peaks. rewrite Hf. discriminate.
Qed.

(** X17: every row [(isot, d, n)] that [RankNearest] returns names the peak
    of [isot] nearest to [xx]: [isot] is an entity of the dictionary, [d] is
    the distance of its peak number [n] (by increasing key) from [xx], no
    peak of [isot] is nearer, and no earlier one is as near. *)
Theorem RankNearest_nearest {AS : ArgSort} (peakattr_has : string -> bool)
        (Dict : sdict (DataObject Q)) (xx : Q)
        (rows : list (DataObject Q * Q * Z)) :
  RankNearest peakattr_has Dict xx = Ok rows ->
  Forall (fun row => In (fst (fst row)) (map snd Dict) /\
                     nearest_peak_row peakattr_has xx row) rows.
Proof.
  unfold RankNearest.
  destruct (peakattr_has "center_tof"%string) eqn:Hhas.
  2:{ destruct (nearest_rows peakattr_has Dict xx) as [rows0|] eqn:E;
        [|discriminate].
      apply (nearest_rows_no_attr _ _ _ _ Hhas) in E as ->.
      cbn [bind]. intros [= <-]. constructor. }
  destruct (nearest_rows_spec peakattr_has Hhas Dict xx)
    as (rows0 & Hrows & Hmap & Hall).
  rewrite Hrows. cbn [bind]. intros [= <-].
  destruct rows0 as [|d rows']; [constructor|].
  set (rows0 := d :: rows') in *.
  apply Forall_forall. intros row Hin.
  apply in_map_iff in Hin as (i & <- & Hi).
  assert (Hrow : In (nth i rows0 d) rows0).
  { apply nth_In.
    eapply Permutation_in in Hi; [|apply argsort_perm].
    apply in_seq in Hi. rewrite length_map in Hi. lia. }
  split.
  - assert (H : In (fst (fst (nth i rows0 d)))
                   (map (fun row => fst (fst row)) rows0))
      by (apply (in_map (fun row : DataObject Q * Q * Z => fst (fst row)));
          exact Hrow).
    rewrite Hmap in H. now apply filter_In in H as [H _].
  - rewrite Forall_forall in Hall. now apply Hall.
Qed.

(** Around the time of flight 11: the peak at 10 of the first entity, then
    the peak at 14 of the third; the entity without peaks has no row. *)
Lemma RankNearest_sorted_witness :
  exists rows,
    RankNearest (AS := stable_ArgSort) (fun _ => true) example_dict 11 = Ok rows /\
    StronglySorted (fun r1 r2 => snd (fst r1) <= snd (fst r2)) rows /\
    Permutation (map (fun row => fst (fst row)) rows)
                (filter (fun isot => negb (List.length (peaks isot) =? 0)%nat)
                        (map snd example_dict)).
Proof.
  exact (RankNearest_sorted (AS := stable_ArgSort) (fun _ => true) eq_refl
           example_dict 11).
Defined.

Lemma RankNearest_nearest_witness :
  Forall (fun row => In (fst (fst row)) (map snd example_dict) /\
                     nearest_peak_row (fun _ => true) 11 row)
         [(two_peaks, 1, 1%Z); (a_peak, 3, 0%Z)].
Proof.
  exact (RankNearest_nearest (AS := stable_ArgSort) (fun _ => true)
           example_dict 11 [(two_peaks, 1, 1%Z); (a_peak, 3, 0%Z)] eq_refl).
Defined.

(** ** Deleting peaks ([Data.delete]) *)

(** X18: [Data.delete] with the keys that [DeletePeaks] returned.  An empty
    list changes nothing.  Otherwise the peaks whose key is not in the list
    are kept, up to their ranks, and renumbered: the new keys are 0, 1, ...,
    the entry at position [i] has [num] and [integral_] equal to [i], and
    [errors] holds the kept peaks whose bounds are [(0., 0.)].  When
    [DeletePeaks] returned [None] and there are peaks, [TypeError] is
    raised. *)
Theorem Data_delete_renumbers {T} {NT : Number T} {AS : ArgSort}
        (self : DataObject T) (deleting : option (list Z)) :
  match deleting with
  | Some [] => Data_delete deleting self = Ok self
  | Some l =>
      let kept := filter (fun ip => negb (existsb (Z.eqb (fst ip)) l))
                         (peaks self) in
      exists self',
        Data_delete deleting self = Ok self' /\
        data self' = data self /\
        map fst (peaks self') = map Z.of_nat (seq 0 (List.length kept)) /\
        Permutation (map unranked (map snd (peaks self')))
                    (map unranked (map snd kept)) /\
        (forall i k p, nth_error (peaks self') i = Some (k, p) ->
                       num p = Z.of_nat i /\ integral_ p = Z.of_nat i) /\
        (forall p, In p (errors self') <->
                   In p (map snd (peaks self')) /\
                   is_sentinel (xlims p) = true)
  | None =>
      match peaks self with
      | [] => exists self', Data_delete deleting self = Ok self' /\
                            peaks self' = [] /\ errors self' = []
      | _ :: _ => Data_delete deleting self = Raise TypeError
      end
  end.
Proof.
  destruct deleting as [[|z l]|].
  - reflexivity.
  - cbv zeta. eexists. split; [reflexivity|].
    cbn [data peaks errors Data_seterrors].
    set (kept := filter _ (peaks self)).
    split; [reflexivity|]. split; [apply map_fst_sorting|].
    split; [apply sorting_perm_unranked|]. split.
    + intros i k p H. apply sorting_entry in H as (_ & H1 & H2 & _). auto.
    + intros p. split.
      * intros H. apply in_map_iff in H as ([k q] & <- & H).
        apply filter_In in H as [H1 H2]. split; [|exact H2].
        apply in_map_iff. now exists (k, q).
      * intros [H1 H2]. apply in_map_iff in H1 as ([k q] & <- & H1).
        apply in_map_iff. exists (k, q). split; [reflexivity|].
        apply filter_In. now split.
  - destruct (peaks self) as [|ip rest] eqn:E.
    + unfold Data_delete. rewrite E. eexists. split; [reflexivity|].
      split; reflexivity.
    + unfold Data_delete. now rewrite E.
Qed.

(** ** [AskPeak] *)

(** X19: what [AskPeak] returns for a line [p]: -2 exactly when [p] is
    "q", "quit" or empty; otherwise -1 or a number [r] with
    [0 <= r < firstno], so that a caller never gets an index outside the
    range it asked for; the only exception is the one of [int(p)]. *)
Theorem AskPeak_in_range (str_isnumeric : string -> bool)
        (py_int : string -> result Z) (p : string) (firstno : Z) :
  match AskPeak str_isnumeric py_int p firstno with
  | Ok r => (r = -2 /\ In p ["q"; "quit"; ""]%string \/
             r = -1 /\ ~ In p ["q"; "quit"; ""]%string \/
             (0 <= r < firstno) /\ py_int p = Ok r /\
             str_isnumeric p = true /\ ~ In p ["q"; "quit"; ""]%string)%Z
  | Raise e => py_int p = Raise e /\ str_isnumeric p = true
  end.
Proof.
  unfold AskPeak.
  destruct (existsb (String.eqb p) ["q"; "quit"; ""]%string) eqn:Eq.
  - left. split; [reflexivity|].
    apply existsb_exists in Eq as (x & Hx & Ex).
    apply String.eqb_eq in Ex as ->. exact Hx.
  - assert (Hn : ~ In p ["q"; "quit"; ""]%string).
    { intros Hin.
      assert (existsb (String.eqb p) ["q"; "quit"; ""]%string = true);
        [|congruence].
      apply existsb_exists. exists p. split; [exact Hin|apply String.eqb_refl]. }
    destruct (str_isnumeric p) eqn:En; cbn [negb]; [|right; left; now split].
    destruct (py_int p) as [ind|e] eqn:Ei; cbn [bind]; [|now split].
    destruct (Z.leb_spec 0 ind); destruct (Z.ltb_spec ind firstno);
      cbn [andb negb]; try (right; left; now split).
    right. right. repeat split; assumption.
Qed.

(** On ASCII digits: a valid index, an index past the end, a word, and the
    request to stop. *)
Lemma AskPeak_examples :
  AskPeak isnumeric_ascii int_ascii "3" 5 = Ok 3%Z /\
  AskPeak isnumeric_ascii int_ascii "7" 5 = Ok (-1)%Z /\
  AskPeak isnumeric_ascii int_ascii "two" 5 = Ok (-1)%Z /\
  AskPeak isnumeric_ascii int_ascii "quit" 5 = Ok (-2)%Z.
Proof. repeat split. Qed.

(** ** Bounded peaks have a positive width *)

Lemma increasing_lt (X : nat -> Q) (N i j : nat) :
  (forall k, (k + 1 < N)%nat -> X k < X (k + 1)%nat) ->
  (i < j)%nat -> (j < N)%nat -> X i < X j.
Proof.
  intros Hinc Hij. induction Hij as [|j Hij IH]; intros Hj.
  - replace (S i) with (i + 1)%nat by lia. apply Hinc. lia.
  - eapply Qlt_trans; [apply IH; lia|].
    replace (S j) with (j + 1)%nat by lia. apply Hinc. lia.
Qed.

Lemma getitem_nonneg {A} (l : list A) (i : Z) (x d : A) :
  getitem l i = Ok x -> (0 <= i)%Z ->
  (Z.to_nat i < List.length l)%nat /\ x = nth (Z.to_nat i) l d.
Proof.
  unfold getitem, norm_index. intros H Hi. cbv zeta in H.
  destruct (Z.leb_spec 0 i); [|lia].
  destruct (Z.ltb_spec i (Z.of_nat (List.length l))); cbn [andb] in H.
  - destruct (nth_error l (Z.to_nat i)) eqn:E; [|discriminate H].
    injection H as <-. split; [lia|]. symmetry. now apply nth_error_nth.
  - destruct (Z.leb_spec (- Z.of_nat (List.length l)) i);
      destruct (Z.ltb_spec i 0); cbn [andb] in H; try lia; discriminate H.
Qed.

Section Widths.

Variable B : Basics Q.
Variables (self : Data Q) (params : Params Q).

Hypothesis x_increasing :
  forall k, (k + 1 < List.length (spectrum self))%nat ->
            fst (nth k (spectrum self) (0, 0))
            < fst (nth (k + 1) (spectrum self) (0, 0)).

(** What a Peak says about its width. *)
Let width_ok (pk : Peak Q) : Prop :=
  (is_sentinel (xlims pk) = true /\ width pk = inject_Z (-1)) \/
  (is_sentinel (xlims pk) = false /\ fst (xlims pk) < snd (xlims pk) /\
   width pk = snd (xlims pk) - fst (xlims pk) /\ 0 < width pk).

Lemma definepeak_try_ordered (npeak p c : Z) (b : Bounds Q) :
  definepeak_try B self npeak (RInt p) params = Ok b ->
  getitem (mai self) npeak = Ok c -> (0 <= c - p)%Z ->
  is_sentinel (b_xlims b) = false /\ fst (b_xlims b) < snd (b_xlims b).
Proof.
  intros H Hc Hp.
  apply definepeak_try_window in H
    as (c' & p' & i0 & i1 & x0 & x1 & [= <-] & Hc' & _ & Hx & H0 & H1
        & Hx0 & Hx1 & Hne & _).
  rewrite Hc in Hc'. injection Hc' as <-. rewrite Hx. cbn [fst snd].
  destruct (getitem_nonneg _ _ _ 0 Hx0 ltac:(lia)) as [L0 E0].
  destruct (getitem_nonneg _ _ _ 0 Hx1 ltac:(lia)) as [L1 E1].
  unfold row0 in L0, L1, E0, E1. rewrite length_map in L0, L1.
  change 0 with (fst ((0, 0) : Q * Q)) in E0, E1.
  rewrite map_nth in E0, E1.
  assert (Hlt : x0 < x1).
  { destruct (Z.eq_dec i0 i1) as [->|Hd].
    - exfalso. qnum. rewrite E0, E1, Qeq_bool_refl in Hne. discriminate.
    - rewrite E0, E1.
      apply (increasing_lt (fun k => fst (nth k (spectrum self) (0, 0)))
                           (List.length (spectrum self)));
        [exact x_increasing|lia|lia]. }
  split; [|exact Hlt].
  unfold is_sentinel. cbn [fst snd]. qnum.
  destruct (Qeq_bool x0 zero) eqn:A0; [|reflexivity].
  destruct (Qeq_bool x1 zero) eqn:A1; [|reflexivity].
  apply Qeq_bool_iff in A0, A1. rewrite A0, A1 in Hlt.
  exfalso. exact (Qlt_irrefl _ Hlt).
Qed.

Lemma peak_info_width (peakpos : Z) (prange : radius)
      (c : Q) (coords coords_tof : Q * Q) (icenter : Z) (ct : Q)
      (bnd : Bounds Q) (ue : bool) (info : Peak Q) :
  peak_info B self peakpos prange c coords coords_tof icenter ct bnd ue
  = Ok info ->
  xlims info = b_xlims bnd /\
  width info = if negb (is_sentinel (b_xlims bnd))
               then snd (b_xlims bnd) - fst (b_xlims bnd)
               else inject_Z (-1).
Proof.
  unfold peak_info. intros H.
  repeat match type of H with
         | bind ?x _ = _ => destruct x; cbn [bind] in H; [|discriminate H]
         end.
  injection H as <-. split; reflexivity.
Qed.

Lemma computepeak_width (peakpos : Z) (r : radius) (c : Z)
      (err err' : sink) (pk : Peak Q) :
  computepeak B self peakpos r params None err = (Ok pk, err') ->
  getitem (mai self) peakpos = Ok c -> (0 <= c - radius_val r)%Z ->
  width_ok pk.
Proof.
  intros H Hc Hr. apply computepeak_Ok in H as [H _].
  unfold computepeak_info, mbind, lift, ret in H.
  repeat match type of H with
         | context [match getitem ?l ?i with _ => _ end] =>
             destruct (getitem l i) eqn:?; [|discriminate H]
         | context [match E2t ?b ?x ?m with _ => _ end] =>
             destruct (E2t b x m); [|discriminate H]
         end.
  assert (Hc' : getitem (mai self) peakpos = Ok c) by congruence.
  unfold definepeak, try_except, lift in H.
  destruct (definepeak_try B self peakpos r params) as [b|e] eqn:Et.
  - injection H as H _. apply peak_info_width in H as [Hx Hw].
    destruct r as [p|p].
    2:{ unfold definepeak_try in Et. rewrite Hc' in Et. discriminate Et. }
    destruct (definepeak_try_ordered _ _ _ _ Et Hc' Hr) as [Hs Hlt].
    right. rewrite Hx, Hw, Hs. cbn [negb].
    repeat split; try assumption. lra.
  - injection H as H _. rewrite <- H. left. split; reflexivity.
Qed.

Lemma candidate_width (setx : list (Z * (Q * Q))) (i : nat)
      (err err' : sink) (pk : Peak Q) :
  (i < List.length (mai self))%nat -> dict_get setx (Z.of_nat i) = None ->
  candidate B self params setx (Z.of_nat i) err = (Ok pk, err') ->
  width_ok pk.
Proof.
  intros Hi Hs. unfold candidate, mbind, lift.
  destruct (search_radius_bounds self params i Hi) as (r & -> & _ & Hr & _).
  rewrite Hs. intros H.
  apply (computepeak_width _ _ (nth i (mai self) 0%Z) _ _ _ H);
    [now apply getitem_nat|exact Hr].
Qed.

Lemma candidates_width {AS : ArgSort} (idxs : list nat)
      (peaks_pos : list (Z * Peak Q)) (err : sink) :
  Forall (fun i => (i < List.length (mai self))%nat) idxs ->
  Forall (fun ip => width_ok (snd ip)) peaks_pos ->
  Forall (fun ip => width_ok (snd ip))
         (fst (candidates B self params [] (map Z.of_nat idxs) peaks_pos err)).
Proof.
  revert peaks_pos err.
  induction idxs as [|i rest IH]; intros pp err Hidx Hpp; [exact Hpp|].
  inversion Hidx as [|? ? Hi Hrest]; subst.
  cbn [map candidates].
  destruct (candidate B self params [] (Z.of_nat i) err) as [[pk|e] err1] eqn:E.
  - apply IH; [exact Hrest|]. apply Forall_app. split; [exact Hpp|].
    constructor; [|constructor]. cbn [snd].
    now apply (candidate_width [] i err err1 pk Hi eq_refl).
  - now apply IH.
Qed.

Lemma width_ok_unranked (p q : Peak Q) :
  unranked p = unranked q -> width_ok q -> width_ok p.
Proof.
  intros E H.
  pose proof (f_equal (@xlims Q) E) as E1.
  pose proof (f_equal (@width Q) E) as E2.
  cbn in E1, E2. unfold width_ok in *. now rewrite E1, E2.
Qed.

(** X20: on a spectrum whose [x] increases strictly, and without bounds set
    by the user, every Peak that [propsisot] returns is either unbounded,
    with the bounds [(0., 0.)] and the width -1, or bounded with its left
    bound below its right bound and the positive width [xlims[1] -
    xlims[0]] (in exact arithmetic). *)
Theorem propsisot_widths {AS : ArgSort} (err : sink) :
  Forall (fun pk =>
            (is_sentinel (xlims pk) = true /\ width pk = inject_Z (-1)) \/
            (is_sentinel (xlims pk) = false /\
             fst (xlims pk) < snd (xlims pk) /\
             width pk = snd (xlims pk) - fst (xlims pk) /\ 0 < width pk))
         (map snd (fst (propsisot B self params [] err))).
Proof.
  unfold propsisot. rewrite range_0.
  pose proof (candidates_width (seq 0 (List.length (mai self))) [] err) as H.
  destruct (candidates B self params []
              (map Z.of_nat (seq 0 (List.length (mai self)))) [] err)
    as [pp err'].
  cbn [fst] in *.
  assert (Hpp : Forall (fun ip => width_ok (snd ip)) pp).
  { apply H; [|constructor].
    apply Forall_forall. intros i Hi. apply in_seq in Hi. lia. }
  apply Forall_forall. intros p Hp.
  apply in_map_iff in Hp as ([k p'] & Ep & Hin). cbn in Ep. subst p'.
  apply In_nth_error in Hin as (i & Hi).
  apply sorting_entry in Hi as (_ & _ & _ & j & q & Hq & Eu).
  apply (width_ok_unranked p q Eu).
  rewrite nth_error_map in Hq.
  destruct (nth_error pp j) as [[kq q']|] eqn:Ej; [|discriminate Hq].
  cbn in Hq. injection Hq as ->.
  rewrite Forall_forall in Hpp. exact (Hpp _ (nth_error_In _ _ Ej)).
Qed.

End Widths.

(** The spectrum with one peak: its Peak is bounded, from 1 to 8, with the
    width 7. *)
Lemma propsisot_widths_witness :
  Forall (fun pk =>
            (is_sentinel (xlims pk) = true /\ width pk = inject_Z (-1)) \/
            (is_sentinel (xlims pk) = false /\
             fst (xlims pk) < snd (xlims pk) /\
             width pk = snd (xlims pk) - fst (xlims pk) /\ 0 < width pk))
         (map snd (fst (propsisot (AS := stable_ArgSort)
                                  basics_q one_peak params_q [] []))).
Proof.
  apply (propsisot_widths basics_q one_peak params_q).
  intros k Hk.
  do 11 (destruct k as [|k]; [vm_compute; reflexivity|]).
  cbn in Hk. lia.
Defined.

(** ** The names of a catalog ([Catalog._unravel]) *)

Lemma comprehension_Ok {A C} (f : A -> result C) (l : list A) (cs : list C) :
  comprehension f l = Ok cs -> Forall2 (fun a c => f a = Ok c) l cs.
Proof.
  revert cs. induction l as [|a l IH]; intros cs; cbn [comprehension].
  - intros [= <-]. constructor.
  - destruct (f a) as [c|] eqn:Ea; [|discriminate]. cbn [bind].
    destruct (comprehension f l) as [t|]; [|discriminate]. cbn [bind].
    intros [= <-]. constructor; [exact Ea|now apply IH].
Qed.

Lemma comprehension_all {A C} (f : A -> result C) (l : list A) :
  Forall (fun a => exists c, f a = Ok c) l ->
  exists cs, comprehension f l = Ok cs.
Proof.
  induction 1 as [|a l (c & Hc) _ (cs & Hcs)]; cbn [comprehension].
  - now exists [].
  - rewrite Hc, Hcs. cbn [bind]. now eexists.
Qed.

Lemma comprehension_Raise {A C} (f : A -> result C) (l : list A) (e : exn) :
  comprehension f l = Raise e -> Exists (fun a => f a = Raise e) l.
Proof.
  induction l as [|a l IH]; cbn [comprehension]; [discriminate|].
  destruct (f a) as [c|e'] eqn:Ea; cbn [bind].
  - destruct (comprehension f l) as [t|e']; cbn [bind]; [discriminate|].
    intros [= ->]. apply Exists_cons_tl. now apply IH.
  - intros [= ->]. now apply Exists_cons_hd.
Qed.

Lemma getitem_past {A} (l : list A) (i : nat) :
  (List.length l <= i)%nat -> getitem l (Z.of_nat i) = Raise IndexError.
Proof.
  intros H. unfold getitem, norm_index. cbv zeta.
  destruct (Z.leb_spec 0 (Z.of_nat i)); [|lia].
  destruct (Z.ltb_spec (Z.of_nat i) (Z.of_nat (List.length l))); [lia|].
  cbn [andb].
  destruct (Z.leb_spec (- Z.of_nat (List.length l)) (Z.of_nat i));
    destruct (Z.ltb_spec (Z.of_nat i) 0); cbn [andb]; try lia; reflexivity.
Qed.

(** [spl(a, n)] returns when the name has [n] fields, and raises
    [IndexError] when it has fewer. *)
Lemma spl_cases (a : string) (n : nat) :
  ((n <= name_fields a)%nat /\ exists y, spl a n = Ok y) \/
  ((name_fields a < n)%nat /\ spl a n = Raise IndexError).
Proof.
  unfold spl, name_fields.
  set (parts := str_split hyphen (hd EmptyString (str_split underscore a))).
  destruct (Nat.le_gt_cases n (List.length parts)) as [H|H].
  - left. split; [exact H|].
    destruct (comprehension_all (fun i => getitem parts (Z.of_nat i)) (seq 0 n))
      as (cs & ->).
    + apply Forall_forall. intros i Hi. apply in_seq in Hi.
      exists (nth i parts EmptyString). apply getitem_nat. lia.
    + cbn [bind]. now eexists.
  - right. split; [exact H|].
    destruct (comprehension (fun i => getitem parts (Z.of_nat i)) (seq 0 n))
      as [cs|e] eqn:E.
    + apply comprehension_Ok in E.
      assert (Hin : In (List.length parts) (seq 0 n)) by (apply in_seq; lia).
      exfalso. clear H. induction E as [|i c l cs Hic _ IH]; [destruct Hin|].
      destruct Hin as [->|Hin]; [|now apply IH].
      rewrite getitem_past in Hic by lia. discriminate.
    + cbn [bind]. apply comprehension_Raise in E.
      apply Exists_exists in E as (i & Hi & Hr).
      destruct (Nat.lt_ge_cases i (List.length parts)) as [Hlt|Hge].
      * rewrite (getitem_nat _ _ EmptyString Hlt) in Hr. discriminate.
      * rewrite getitem_past in Hr by exact Hge. congruence.
Qed.

Lemma spl_all (n : nat) (keys : list string) :
  match comprehension (fun k => spl k n) keys with
  | Ok _ => Forall (fun k => (n <= name_fields k)%nat) keys
  | Raise e => e = IndexError /\ Exists (fun k => (name_fields k < n)%nat) keys
  end.
Proof.
  destruct (comprehension (fun k => spl k n) keys) as [cs|e] eqn:E.
  - apply comprehension_Ok in E. induction E as [|k c l cs Hk _ IH];
      constructor; [|exact IH].
    destruct (spl_cases k n) as [[H _]|[_ H]]; [exact H|congruence].
  - apply comprehension_Raise in E.
    apply Exists_exists in E as (k & Hin & Hk).
    destruct (spl_cases k n) as [[_ (y & H)]|[Hlt H]]; [congruence|].
    split; [congruence|]. apply Exists_exists. now exists k.
Qed.

Lemma np_unique_str_keys (l : list string) :
  NoDup (map fst (np_unique_str l)) /\
  forall x, In x (map fst (np_unique_str l)) <-> In x (map np_str l).
Proof.
  unfold np_unique_str. rewrite map_map. cbn [fst]. rewrite map_id.
  pose proof (py_sorted_perm String.leb (nodup string_dec (map np_str l)))
    as Hp.
  split.
  - eapply Permutation_NoDup; [symmetry; exact Hp|apply NoDup_nodup].
  - intros x. split; intros H.
    + apply (nodup_In string_dec).
      eapply Permutation_in; [exact Hp|exact H].
    + eapply Permutation_in; [symmetry; exact Hp|].
      now apply (nodup_In string_dec).
Qed.

Lemma np_unique_str_combine (l : list string) :
  combine (map fst (np_unique_str l)) (map snd (np_unique_str l))
  = np_unique_str l.
Proof.
  induction (np_unique_str l) as [|[x c] u IH]; [reflexivity|].
  cbn. now rewrite IH.
Qed.

Lemma np_unique_str_count (l : list string) (x : string) (c : nat) :
  In (x, c) (np_unique_str l) <->
  In x (map np_str l) /\ c = count_occ string_dec (map np_str l) x.
Proof.
  unfold np_unique_str. rewrite in_map_iff. split.
  - intros (y & [= -> <-] & Hin). split; [|reflexivity].
    apply (nodup_In string_dec).
    eapply Permutation_in; [apply py_sorted_perm|exact Hin].
  - intros [Hin ->]. exists x. split; [reflexivity|].
    eapply Permutation_in; [symmetry; apply py_sorted_perm|].
    now apply (nodup_In string_dec).
Qed.

Lemma cut_names (n : nat) (keys ys : list string) (x : string) :
  Forall2 (fun k y => spl k n = Ok y) keys ys ->
  (In x (map np_str ys) <-> exists k, In k keys /\ cut_is n x k = true) /\
  count_occ string_dec (map np_str ys) x
  = List.length (filter (cut_is n x) keys).
Proof.
  induction 1 as [|k y keys ys Hk _ [IH1 IH2]].
  - split; [|reflexivity]. split; [intros []|intros (k & [] & _)].
  - assert (Hc : cut_is n x k = String.eqb (np_str y) x)
      by (unfold cut_is; now rewrite Hk).
    split.
    + cbn [map]. split.
      * intros [H|H].
        -- exists k. split; [now left|]. rewrite Hc. now apply String.eqb_eq.
        -- apply IH1 in H as (k' & Hin & H). exists k'. split; [now right|exact H].
      * intros (k' & [<-|Hin] & H).
        -- left. rewrite Hc in H. now apply String.eqb_eq.
        -- right. apply IH1. now exists k'.
    + cbn [map count_occ filter]. rewrite Hc.
      destruct (string_dec (np_str y) x) as [->|Hne].
      * rewrite String.eqb_refl. cbn [List.length]. now rewrite IH2.
      * apply String.eqb_neq in Hne as ->. exact IH2.
Qed.

(** X21: [Catalog._unravel] and the lists made of it.  It raises only
    [IndexError], and does so exactly when the name of an isotope has fewer
    than three fields or the name of an element fewer than two; then
    [get_isotopes], [get_elements], [get_elements_from_isotopes] and
    [ready_to_mix] raise it too.  Otherwise each of the lists of isotopes
    and elements holds a name once; the isotopes are the names of the
    catalog cut to three fields, the elements of the isotopes those cut to
    two, and the non-unique elements are those that two or more names of
    isotopes are cut to. *)
Theorem Catalog_unravel_spec {E} (self : Catalog E) :
  match Catalog_unravel self with
  | Ok (isots, ielems, elems, non_unique) =>
      Forall (fun k => (3 <= name_fields k)%nat) (map fst (isotopes self)) /\
      Forall (fun k => (2 <= name_fields k)%nat) (map fst (elements self)) /\
      NoDup isots /\ NoDup ielems /\ NoDup elems /\
      (forall x, In x isots <->
                 exists k, In k (map fst (isotopes self)) /\
                           cut_is 3 x k = true) /\
      (forall x, In x ielems <->
                 exists k, In k (map fst (isotopes self)) /\
                           cut_is 2 x k = true) /\
      (forall x, In x non_unique <->
                 (2 <= List.length (filter (cut_is 2 x)
                                           (map fst (isotopes self))))%nat)
  | Raise e =>
      e = IndexError /\
      (Exists (fun k => (name_fields k < 3)%nat) (map fst (isotopes self)) \/
       Exists (fun k => (name_fields k < 2)%nat) (map fst (elements self))) /\
      get_isotopes self = Raise e /\ get_elements self = Raise e /\
      ready_to_mix self = Raise e /\
      forall b, get_elements_from_isotopes self b = Raise e
  end.
Proof.
  assert (Hraise : forall e, Catalog_unravel self = Raise e ->
            get_isotopes self = Raise e /\ get_elements self = Raise e /\
            ready_to_mix self = Raise e /\
            forall b, get_elements_from_isotopes self b = Raise e).
  { intros e He. unfold ready_to_mix, get_isotopes, get_elements,
      get_elements_from_isotopes. rewrite He. cbn [bind].
    repeat split. intros []; reflexivity. }
  destruct (Catalog_unravel self) as [[[[isots ielems] elems] non_unique]|e]
    eqn:EU.
  2:{ split; [|split; [|now apply Hraise]].
      - unfold Catalog_unravel in EU.
        pose proof (spl_all 3 (map fst (isotopes self))) as H3.
        destruct (comprehension (fun k => spl k 3) (map fst (isotopes self)));
          [|destruct H3 as [-> _]; cbn [bind] in EU; congruence].
        cbn [bind] in EU.
        pose proof (spl_all 2 (map fst (isotopes self))) as H2.
        destruct (comprehension (fun k => spl k 2) (map fst (isotopes self)));
          [|destruct H2 as [-> _]; cbn [bind] in EU; congruence].
        cbn [bind] in EU.
        pose proof (spl_all 2 (map fst (elements self))) as He.
        destruct (comprehension (fun k => spl k 2) (map fst (elements self)));
          [discriminate EU|destruct He as [-> _]; cbn [bind] in EU; congruence].
      - unfold Catalog_unravel in EU.
        pose proof (spl_all 3 (map fst (isotopes self))) as H3.
        destruct (comprehension (fun k => spl k 3) (map fst (isotopes self)));
          [|left; exact (proj2 H3)].
        cbn [bind] in EU.
        pose proof (spl_all 2 (map fst (isotopes self))) as H2.
        destruct (comprehension (fun k => spl k 2) (map fst (isotopes self))).
        2:{ left. destruct H2 as [_ H2]. eapply Exists_impl; [|exact H2].
            cbn. intros; lia. }
        cbn [bind] in EU.
        pose proof (spl_all 2 (map fst (elements self))) as He.
        destruct (comprehension (fun k => spl k 2) (map fst (elements self)));
          [discriminate EU|right; exact (proj2 He)]. }
  clear Hraise. unfold Catalog_unravel in EU.
  pose proof (spl_all 3 (map fst (isotopes self))) as H3.
  destruct (comprehension (fun k => spl k 3) (map fst (isotopes self)))
    as [i3|] eqn:E3; [|discriminate EU].
  cbn [bind] in EU.
  destruct (comprehension (fun k => spl k 2) (map fst (isotopes self)))
    as [i2|] eqn:E2; [|discriminate EU].
  cbn [bind] in EU.
  pose proof (spl_all 2 (map fst (elements self))) as He.
  destruct (comprehension (fun k => spl k 2) (map fst (elements self)))
    as [e2|] eqn:Ee; [|discriminate EU].
  cbn [bind] in EU. injection EU as <- <- <- <-.
  apply comprehension_Ok in E3, E2, Ee.
  destruct (np_unique_str_keys i3) as [N3 I3].
  destruct (np_unique_str_keys i2) as [N2 I2].
  destruct (np_unique_str_keys e2) as [Ne _].
  split; [exact H3|]. split; [exact He|].
  split; [exact N3|]. split; [exact N2|]. split; [exact Ne|].
  split; [|split].
  - intros x. rewrite I3. exact (proj1 (cut_names 3 _ _ x E3)).
  - intros x. rewrite I2. exact (proj1 (cut_names 2 _ _ x E2)).
  - intros x. rewrite np_unique_str_combine.
    destruct (cut_names 2 _ _ x E2) as [Hin Hcount]. rewrite <- Hcount.
    split.
    + intros H. apply in_map_iff in H as ([y c] & <- & H).
      apply filter_In in H as [H Hc]. cbn [fst snd] in *.
      apply np_unique_str_count in H as [_ ->].
      apply Nat.ltb_lt in Hc. lia.
    + intros H. apply in_map_iff.
      exists (x, count_occ string_dec (map np_str i2) x).
      split; [reflexivity|]. apply filter_In. split.
      * apply np_unique_str_count. split; [|reflexivity].
        apply (count_occ_In string_dec). lia.
      * cbn [snd]. apply Nat.ltb_lt. lia.
Qed.

(** The catalog with the isotopes 73-Ta-181, 74-W-182 (twice) and 74-W-184. *)
Lemma names_catalog_lists :
  Catalog_unravel names_catalog
  = Ok (["73-Ta-181"; "74-W-182"; "74-W-184"], ["73-Ta"; "74-W"],
        ["74-W"], ["74-W"])%string /\
  ready_to_mix names_catalog
  = Ok ["73-Ta-181"; "74-W-182"; "74-W-184"; "74-W"; "WC"]%string.
Proof. vm_compute. split; reflexivity. Qed.
